(** * The language-implementation grader (functions/src/graders/languageGrader.js)
      and the i18n pass of the FileScanner utility.

    Conventions of the embedding.

    - A JavaScript string is a [list ascii] ([jstr]): a sequence of code
      units, here restricted to the range 0..255; a literal is written as a
      Rocq string and coerced by [chars].  White space ([\s], [trim], the
      white space of numeric literals) is therefore the set
      TAB, LF, VT, FF, CR, SPACE and NBSP.
    - A value produced by [JSON.parse] is a [value]; [undefined] is the [None]
      of [option value].  The entries of a [VObj] are listed in the order
      [Object.entries] yields them.
    - In the run, numbers (weights, scores, thresholds) are exact rationals
      [Q]: the arithmetic of [calculateScore] is read mathematically.
      [Double] gives the numbers of the machine, with their rounding, their
      infinities and [NaN], and [Double.calculateScore] the score as the
      machine computes it; the properties that depend on the arithmetic are
      stated there.
    - The file system, [glob.sync] and [JSON.parse] are inputs ([Env]).
    - The logger of the [context] ([context.log] and its [warn], [error] and
      [info]) is that of the Functions host: a call to it returns, and no
      result depends on it. *)

From Stdlib Require Import String Ascii List ZArith QArith Qminmax Lia Lqa
  Permutation Bool DecimalString DecimalNat DecimalFacts PeanoNat Sorted
  Qround Qpower.
From Stdlib Require PrimFloat FloatOps SpecFloat Uint63.
From stdpp Require Import gmap strings.
Import ListNotations.

#[local] Set Warnings "-clear-no-such-hyp".

Local Open Scope string_scope.
Local Open Scope list_scope.

(** ** JavaScript strings *)

Abbreviation jstr := (list ascii).

Definition chars (s : string) : jstr := list_ascii_of_string s.
Coercion chars : string >-> list.

Module JS.

Definition str (l : jstr) : string := string_of_list_ascii l.

Definition code (c : ascii) : nat := nat_of_ascii c.

Definition in_range (lo hi c : ascii) : bool :=
  (code lo <=? code c)%nat && (code c <=? code hi)%nat.

Definition is_char (a c : ascii) : bool := Ascii.eqb a c.

(** WhiteSpace and LineTerminator code units below 256. *)
Definition is_space (c : ascii) : bool :=
  match code c with
  | 9 | 10 | 11 | 12 | 13 | 32 | 160 => true
  | _ => false
  end.

(** The line terminators of the language are LF, CR, U+2028 and U+2029: of
    these, strings of code units below 256 hold LF and CR. *)
Definition is_line_terminator (c : ascii) : bool := is_char "010" c || is_char "013" c.

Definition is_digit (c : ascii) : bool := in_range "0" "9" c.
Definition is_lower (c : ascii) : bool := in_range "a" "z" c.
Definition is_upper (c : ascii) : bool := in_range "A" "Z" c.
Definition is_letter (c : ascii) : bool := is_upper c || is_lower c.
Definition is_hex (c : ascii) : bool :=
  is_digit c || in_range "a" "f" c || in_range "A" "F" c.

(** [s.trimStart()], [s.trimEnd()], [s.trim()] *)
Fixpoint trimStart (l : list ascii) : list ascii :=
  match l with
  | c :: l' => if is_space c then trimStart l' else l
  | [] => []
  end.

Fixpoint trimEnd (l : list ascii) : list ascii :=
  match l with
  | [] => []
  | c :: l' =>
      match trimEnd l' with
      | [] => if is_space c then [] else [c]
      | t => c :: t
      end
  end.

Definition trim (l : list ascii) : list ascii := trimEnd (trimStart l).

(** [s.split(sep)] for a one-character separator: never empty. *)
Fixpoint split (sep : ascii) (l : list ascii) : list (list ascii) :=
  match l with
  | [] => [[]]
  | c :: l' =>
      if is_char sep c then [] :: split sep l'
      else match split sep l' with
           | h :: t => (c :: h) :: t
           | [] => [[c]]
           end
  end.

(** [s.includes(c)] for a one-character needle. *)
Definition includes (c : ascii) (l : list ascii) : bool := existsb (is_char c) l.

(** [s.substring(0, index)] *)
Definition substring0 (index : nat) (l : list ascii) : list ascii := firstn index l.

(** [s.includes(needle)] for a string needle. *)
Fixpoint starts_with (p l : list ascii) : bool :=
  match p, l with
  | [], _ => true
  | a :: p', c :: l' => is_char a c && starts_with p' l'
  | _ :: _, [] => false
  end.

Fixpoint includes_str (needle l : list ascii) : bool :=
  starts_with needle l ||
  match l with
  | [] => false
  | _ :: l' => includes_str needle l'
  end.

(** *** Numbers read from strings *)

Definition digit_value (c : ascii) : Z := Z.of_nat (code c - code "0").

Definition hex_value (c : ascii) : Z :=
  if is_digit c then digit_value c
  else if in_range "a" "f" c then Z.of_nat (code c - code "a" + 10)
  else Z.of_nat (code c - code "A" + 10).

(** The value of the longest prefix of radix digits, and whether it is
    non-empty. *)
Fixpoint digits_prefix (isd : ascii -> bool) (val : ascii -> Z) (radix : Z)
    (l : list ascii) (seen : bool) (acc : Z) : option Z :=
  match l with
  | c :: l' =>
      if isd c then digits_prefix isd val radix l' true (acc * radix + val c)
      else if seen then Some acc else None
  | [] => if seen then Some acc else None
  end.

(** [parseInt(s)] with no radix; [None] is NaN.  The sign of zero is dropped:
    [-0] indexes an array like [0]. *)
Definition parseInt (s : list ascii) : option Z :=
  let t := trimStart s in
  let '(sign, u) :=
    match t with
    | c :: t' =>
        if is_char "-" c then ((-1)%Z, t')
        else if is_char "+" c then (1%Z, t') else (1%Z, t)
    | [] => (1%Z, t)
    end in
  match u with
  | z :: x :: h =>
      if is_char "0" z && (is_char "x" x || is_char "X" x)
      then option_map (Z.mul sign) (digits_prefix is_hex hex_value 16 h false 0)
      else option_map (Z.mul sign) (digits_prefix is_digit digit_value 10 u false 0)
  | _ => option_map (Z.mul sign) (digits_prefix is_digit digit_value 10 u false 0)
  end.

(** StringToNumber: does the string denote a number?  [isNaN(s)] is the
    negation.  The grammar is StrWhiteSpace? StrNumericLiteral? StrWhiteSpace?. *)
Definition all_nonempty (p : ascii -> bool) (l : list ascii) : bool :=
  match l with
  | [] => false
  | _ => forallb p l
  end.

Fixpoint skip (p : ascii -> bool) (l : list ascii) : list ascii :=
  match l with
  | c :: l' => if p c then skip p l' else l
  | [] => []
  end.

(** ExponentPart?, then the end of the literal *)
Definition exponent_opt (l : list ascii) : bool :=
  match l with
  | [] => true
  | e :: l' =>
      (is_char "e" e || is_char "E" e) &&
      match l' with
      | s :: l'' =>
          if is_char "+" s || is_char "-" s then all_nonempty is_digit l''
          else all_nonempty is_digit l'
      | [] => false
      end
  end.

(** StrUnsignedDecimalLiteral *)
Definition unsigned_decimal (l : list ascii) : bool :=
  if String.eqb (str l) "Infinity" then true
  else
    match l with
    | [] => false
    | c :: l' =>
        if is_char "." c then
          (* . DecimalDigits ExponentPart? *)
          match l' with
          | d :: _ => is_digit d && exponent_opt (skip is_digit l')
          | [] => false
          end
        else if is_digit c then
          (* DecimalDigits [. DecimalDigits?] ExponentPart? *)
          match skip is_digit l with
          | p :: r => if is_char "." p then exponent_opt (skip is_digit r)
                      else exponent_opt (p :: r)
          | [] => true
          end
        else false
    end.

Definition non_decimal (l : list ascii) : bool :=
  match l with
  | z :: b :: r =>
      is_char "0" z &&
      ((is_char "x" b || is_char "X" b) && all_nonempty is_hex r
       || (is_char "o" b || is_char "O" b) && all_nonempty (in_range "0" "7") r
       || (is_char "b" b || is_char "B" b) && all_nonempty (in_range "0" "1") r)
  | _ => false
  end.

Definition numeric_literal (l : list ascii) : bool :=
  non_decimal l ||
  match l with
  | c :: l' =>
      if is_char "+" c || is_char "-" c then unsigned_decimal l'
      else unsigned_decimal l
  | [] => false
  end.

(** [isNaN(s)] for a string [s]: Number("") and Number("  ") are 0. *)
Definition isNaN (s : list ascii) : bool :=
  match trim s with
  | [] => false
  | t => negb (numeric_literal t)
  end.

(** [String(n)] / [`${n}`] for a non-negative integer below 10^21. *)
Definition toString (n : nat) : list ascii :=
  chars (NilZero.string_of_uint (Nat.to_uint n)).

(** Is [s] the canonical numeric string of an array index?  Gives the index. *)
Definition canonical_index (s : list ascii) : option Z :=
  match s with
  | [] => None
  | c :: r =>
      if forallb is_digit s && (negb (is_char "0" c) || match r with [] => true | _ => false end)
      then digits_prefix is_digit digit_value 10 s false 0
      else None
  end.

(** [a[n]] for a dense array and a number [n]. *)
Fixpoint nth_Z {A} (l : list A) (n : Z) : option A :=
  match l with
  | [] => None
  | x :: l' => if (n =? 0)%Z then Some x
               else if (n <? 0)%Z then None else nth_Z l' (n - 1)
  end.

(** [s.toLowerCase()]: among the code units below 256 the capital letters are
    A-Z and the capital letters of Latin-1 (192..222 without the sign 215);
    each is 32 below its small letter. *)
Definition lower_char (c : ascii) : ascii :=
  let n := code c in
  if ((65 <=? n)%nat && (n <=? 90)%nat)
     || ((192 <=? n)%nat && (n <=? 222)%nat && negb (n =? 215)%nat)
  then ascii_of_nat (n + 32) else c.

Definition toLowerCase (l : list ascii) : list ascii := map lower_char l.

(** [array.includes(s)] for an array of strings. *)
Definition array_includes (array : list (list ascii)) (s : list ascii) : bool :=
  existsb (fun x => String.eqb (str x) (str s)) array.

(** [s.split(sep).pop()]: what follows the last separator. *)
Fixpoint after_last (sep : ascii) (l : list ascii) : list ascii :=
  match l with
  | [] => []
  | c :: l' =>
      if includes sep l' then after_last sep l'
      else if is_char sep c then l' else l
  end.

(** The text without the separators at its end. *)
Fixpoint strip_end (sep : ascii) (l : list ascii) : list ascii :=
  match l with
  | [] => []
  | c :: l' =>
      match strip_end sep l' with
      | [] => if is_char sep c then [] else [c]
      | t => c :: t
      end
  end.

(** [String(n)] for a non-negative integer given in binary. *)
Definition toStringN (n : N) : list ascii :=
  chars (NilZero.string_of_uint (N.to_uint n)).

End JS.

#[global] Arguments JS.is_char : simpl never.
#[global] Arguments JS.in_range : simpl never.
#[global] Arguments JS.is_space : simpl never.
#[global] Arguments JS.is_digit : simpl never.
#[global] Arguments JS.is_lower : simpl never.
#[global] Arguments JS.is_upper : simpl never.
#[global] Arguments JS.is_letter : simpl never.
#[global] Arguments JS.is_hex : simpl never.

(** ** Regular expressions

    The fragment of ECMAScript patterns the graders use, and a backtracking
    matcher for it in continuation-passing style: alternatives are tried in
    the order of the pattern, a greedy quantifier tries one more iteration
    before it continues, a lazy one continues before it iterates. *)

Module Regex.

Inductive regex : Type :=
| Eps                                   (* the empty pattern *)
| Chr (p : ascii -> bool)               (* a character class, one character *)
| Cat (r1 r2 : regex)                   (* r1 r2 *)
| Alt (r1 r2 : regex)                   (* r1|r2 *)
| Star (greedy : bool) (r : regex)      (* r* and r*? *)
| Group (n : nat) (r : regex)           (* the n-th capturing group *)
| Bol                                   (* ^ without the m flag *)
| Eol.                                  (* $ without the m flag *)

Definition Plus (greedy : bool) (r : regex) : regex := Cat r (Star greedy r).
Definition Opt (r : regex) : regex := Alt r Eps.

(** A literal string. *)
Fixpoint Lit (l : jstr) : regex :=
  match l with
  | [] => Eps
  | c :: l' => Cat (Chr (JS.is_char c)) (Lit l')
  end.

Definition captures := list (nat * jstr).

Record state := { pos : nat; rest : jstr; caps : captures }.

Definition advance (st : state) (l : jstr) : state :=
  {| pos := S (pos st); rest := l; caps := caps st |}.

Definition capture (n : nat) (st st' : state) : state :=
  {| pos := pos st'; rest := rest st';
     caps := (n, firstn (pos st' - pos st) (rest st)) :: caps st' |}.

Section Matcher.
Context {R : Type}.

(** One more iteration of [m], which has to consume input, then the loop
    again; [fuel] bounds the iterations by the length of the input left. *)
Fixpoint star_loop (m : (state -> option R) -> state -> option R)
    (greedy : bool) (k : state -> option R) (fuel : nat) (st : state) : option R :=
  match fuel with
  | 0 => k st
  | S f =>
      let again :=
        m (fun st' => if (pos st <? pos st')%nat then star_loop m greedy k f st' else None) in
      if greedy then
        match again st with Some x => Some x | None => k st end
      else
        match k st with Some x => Some x | None => again st end
  end.

Fixpoint rmatch (r : regex) (k : state -> option R) (st : state) : option R :=
  match r with
  | Eps => k st
  | Chr p =>
      match rest st with
      | c :: l => if p c then k (advance st l) else None
      | [] => None
      end
  | Cat r1 r2 => rmatch r1 (rmatch r2 k) st
  | Alt r1 r2 =>
      match rmatch r1 k st with Some x => Some x | None => rmatch r2 k st end
  | Star g r1 => star_loop (rmatch r1) g k (length (rest st)) st
  | Group n r1 => rmatch r1 (fun st' => k (capture n st st')) st
  | Bol => if (pos st =? 0)%nat then k st else None
  | Eol => match rest st with [] => k st | _ :: _ => None end
  end.

End Matcher.

(** What [RegExp.prototype.exec] returns: [match.index], the end of the
    match (the next [lastIndex] of a global pattern) and the groups. *)
Record result := { index : nat; lastIndex : nat; groups : captures }.

Definition match_at (r : regex) (p : nat) (l : jstr) : option result :=
  rmatch r (fun st => Some {| index := p; lastIndex := pos st; groups := caps st |})
         {| pos := p; rest := l; caps := [] |}.

(** The first position from [p] on at which the pattern matches. *)
Fixpoint search (r : regex) (p : nat) (l : jstr) : option result :=
  match match_at r p l with
  | Some m => Some m
  | None =>
      match l with
      | [] => None
      | _ :: l' => search r (S p) l'
      end
  end.

(** [re.exec(input)] for a global pattern whose [lastIndex] is [from]. *)
Definition exec (r : regex) (input : jstr) (from : nat) : option result :=
  if (length input <? from)%nat then None else search r from (skipn from input).

(** [re.test(input)] for a pattern without flags. *)
Definition test (r : regex) (input : jstr) : bool :=
  match search r 0 input with Some _ => true | None => false end.

(** [match[n]]; a group of the patterns below always takes part in a match. *)
Fixpoint group (n : nat) (g : captures) : jstr :=
  match g with
  | [] => []
  | (i, w) :: g' => if (i =? n)%nat then w else group n g'
  end.

(** [while ((match = re.exec(code)) !== null) { ... }] for a global pattern:
    the matches in the order the loop sees them.  A match that does not move
    [lastIndex] would be found again for ever: [None]. *)
Fixpoint exec_loop (fuel : nat) (r : regex) (input : jstr) (from : nat)
    : option (list result) :=
  match fuel with
  | 0 => None
  | S f =>
      match exec r input from with
      | None => Some []
      | Some m =>
          if (from <? lastIndex m)%nat
          then option_map (cons m) (exec_loop f r input (lastIndex m))
          else None
      end
  end.

Definition matches (r : regex) (input : jstr) : option (list result) :=
  exec_loop (S (length input)) r input 0.

(** *** The matches the matcher can find, without their priorities *)

Inductive sem : regex -> state -> state -> Prop :=
| sem_eps st : sem Eps st st
| sem_chr p st c l :
    rest st = c :: l -> p c = true -> sem (Chr p) st (advance st l)
| sem_cat r1 r2 st st1 st2 :
    sem r1 st st1 -> sem r2 st1 st2 -> sem (Cat r1 r2) st st2
| sem_alt_l r1 r2 st st' : sem r1 st st' -> sem (Alt r1 r2) st st'
| sem_alt_r r1 r2 st st' : sem r2 st st' -> sem (Alt r1 r2) st st'
| sem_star_done g r st : sem (Star g r) st st
| sem_star_more g r st st1 st2 :
    sem r st st1 -> (pos st < pos st1)%nat -> sem (Star g r) st1 st2 ->
    sem (Star g r) st st2
| sem_group n r st st' : sem r st st' -> sem (Group n r) st (capture n st st')
| sem_bol st : pos st = 0%nat -> sem Bol st st
| sem_eol st : rest st = [] -> sem Eol st st.

End Regex.

Import Regex.

Definition Seq (l : list regex) : regex := fold_right Cat Eps l.

(** [match[0]]: the characters of the input from [index] to [lastIndex]. *)
Definition matched_text (input : jstr) (m : result) : jstr :=
  firstn (lastIndex m - index m) (skipn (index m) input).

(** ** Paths of files

    [path.basename] and [path.extname] of Node.js for POSIX paths (the
    functions run on Linux). *)

Module path.

(** The last portion of the path; slashes at the end are ignored. *)
Definition basename (p : jstr) : jstr := JS.after_last "/" (JS.strip_end "/" p).

(** The extension: from the last dot of the last portion to its end; empty
    when the portion has no dot, when its only dot is its first character,
    and for the portion [..]. *)
Definition extname (p : jstr) : jstr :=
  let base := basename p in
  if negb (JS.includes "." base) then []
  else if negb (JS.includes "." (tl base)) && JS.is_char "." (hd "a"%char base) then []
  else if String.eqb (JS.str base) ".." then []
  else "."%char :: JS.after_last "." base.

End path.

(** ** JSON values *)

Unset Elimination Schemes.
Inductive value : Type :=
| VNull
| VBool (b : bool)
| VNum (q : Q)
| VStr (s : jstr)
| VArr (items : list value)
| VObj (entries : list (jstr * value)).
Set Elimination Schemes.

(** [!!v]; [None] is [undefined]. *)
Definition truthy (v : option value) : bool :=
  match v with
  | None | Some VNull => false
  | Some (VBool b) => b
  | Some (VNum q) => negb (Qeq_bool q 0)
  | Some (VStr s) => match s with [] => false | _ => true end
  | Some (VArr _) | Some (VObj _) => true
  end.

(** [hasOwnProperty.call(o, part) ? o[part] : undefined] for an object. *)
Fixpoint own_property (entries : list (jstr * value)) (part : jstr) : option value :=
  match entries with
  | [] => None
  | (k, v) :: entries' =>
      if String.eqb (JS.str k) (JS.str part) then Some v else own_property entries' part
  end.

(** The own properties of a string: its indices and [length]. *)
Definition string_own_property (s : jstr) (part : jstr) : option value :=
  match JS.canonical_index part with
  | Some i => option_map (fun c => VStr [c]) (JS.nth_Z s i)
  | None =>
      if String.eqb (JS.str part) "length"
      then Some (VNum (inject_Z (Z.of_nat (length s))))
      else None
  end.

(** ** languageGrader.js *)

(** One turn of the loop of [resolveKey]; once [undefined], always.  An
    array is indexed by [parseInt(part)] unless [isNaN(part)]; an object and
    a non-empty string give their own property [part]; [null], [''],
    booleans and numbers have no own property. *)
Definition resolve_step (current : option value) (part : jstr) : option value :=
  match current with
  | Some (VArr items) =>
      if JS.isNaN part then None
      else match JS.parseInt part with
           | Some n => JS.nth_Z items n
           | None => None
           end
  | Some (VObj entries) => own_property entries part
  | Some (VStr s) => if truthy current then string_own_property s part else None
  | Some VNull | Some (VBool _) | Some (VNum _) | None => None
  end.

Definition resolveKey (obj : value) (key : jstr) : option value :=
  fold_left resolve_step (JS.split "." key) (Some obj).

Definition flat_mapi {A B} (f : nat -> A -> list B) : nat -> list A -> list B :=
  fix go (i : nat) (l : list A) : list B :=
    match l with
    | [] => []
    | x :: l' => f i x ++ go (S i) l'
    end.

(** [prefix ? `${prefix}.${key}` : key] *)
Definition fullKey (prefix key : jstr) : jstr :=
  match prefix with
  | [] => key
  | _ => prefix ++ "." ++ key
  end.

(** [`${fullKey}.${index}`] *)
Definition indexKey (fullKey : jstr) (index : nat) : jstr :=
  fullKey ++ "." ++ JS.toString index.

(** [extractAllKeys(obj, prefix = '')]; [Object.entries] of an array are its
    indices and items, of a string its indices and characters, of a number
    or a boolean nothing.  [Object.entries(null)] throws: see
    [gradeLanguageImplementation]. *)
Fixpoint extractAllKeys (obj : value) (prefix : jstr) {struct obj} : list jstr :=
  let entry (key : jstr) (v : value) : list jstr :=
    match v with
    | VObj _ => extractAllKeys v (fullKey prefix key)
    | VArr items =>
        flat_mapi (fun index item =>
          match item with
          | VObj _ | VArr _ => extractAllKeys item (indexKey (fullKey prefix key) index)
          | _ => [indexKey (fullKey prefix key) index]
          end) 0 items
    | _ => [fullKey prefix key]
    end in
  match obj with
  | VObj entries => flat_map (fun kv => entry (fst kv) (snd kv)) entries
  | VArr items => flat_mapi (fun i v => entry (JS.toString i) v) 0 items
  | VStr s => flat_mapi (fun i c => [fullKey prefix (JS.toString i)]) 0 s
  | VNull | VBool _ | VNum _ => []
  end.

(** The patterns of [gradeLanguageImplementation]. *)
Definition is_quote (c : ascii) : bool :=
  JS.is_char "'" c || JS.is_char "034" c || JS.is_char "`" c.

(** The global pattern [i18n\.t\(Q([^Q]+)Q\)], where the class Q holds the
    single quote, the double quote (code 34) and the back-tick. *)
Definition I18N_REGEX : regex :=
  Seq [Lit "i18n.t("; Chr is_quote;
       Group 1 (Plus true (Chr (fun c => negb (is_quote c))));
       Chr is_quote; Lit ")"].

(** [/>\s*([A-Za-z][^<{]+?)\s*</g] *)
Definition HARDCODED_TEXT_REGEX : regex :=
  Seq [Lit ">"; Star true (Chr JS.is_space);
       Group 1 (Cat (Chr JS.is_letter)
                    (Plus false (Chr (fun c => negb (JS.is_char "<" c || JS.is_char "{" c)))));
       Star true (Chr JS.is_space); Lit "<"].

Definition excludePatterns : list regex :=
  [ Seq [Bol; Chr (fun c => JS.is_char "{" c || JS.is_char "}" c || JS.is_char "$" c)]
               (* /^[{}$]/ *)
  ; Seq [Bol; Plus true (Chr JS.is_digit); Eol]                     (* /^\d+$/ *)
  ; Seq [Bol; Chr JS.is_lower; Opt (Cat (Chr JS.is_lower) (Opt (Chr JS.is_lower))); Eol]
               (* /^[a-z]{1,3}$/ *)
  ; Seq [Bol; Lit "#"; Plus true (Chr JS.is_hex); Eol]             (* /^#[0-9a-fA-F]+$/ *)
  ; Seq [Bol; Plus true (Chr (fun c => JS.is_upper c || JS.is_char "_" c)); Eol]
               (* /^[A-Z_]+$/ *)
  ; Seq [Bol; Lit "className"; Eol]                                 (* /^className$/ *)
  ; Seq [Bol; Lit "testID"; Eol]                                    (* /^testID$/ *)
  ].

(** [/^\s*$/] *)
Definition BLANK_REGEX : regex := Seq [Bol; Star true (Chr JS.is_space); Eol].

Definition shouldFlagAsHardcoded (text : jstr) : bool :=
  (3 <? length text)%nat
  && negb (existsb (fun pattern => test pattern text) excludePatterns)
  && negb (test BLANK_REGEX text).

Record UsageFinding := { uf_file : jstr; uf_key : jstr }.
Record HardcodedFinding := { hf_file : jstr; hf_text : jstr }.
Record MalformedKeyFinding := { mf_file : jstr; mf_key : jstr; mf_issue : jstr }.

Record Summary := {
  filesScanned : nat;
  totalKeys : nat;
  usedKeysSize : nat;
  missingKeysCount : nat;
  hardcodedStringsCount : nat;
  unusedKeysCount : nat;
  malformedKeysCount : nat;
  summaryScore : Q
}.

Record Report := {
  missingKeys : list UsageFinding;
  hardcodedStrings : list HardcodedFinding;
  unusedKeys : list jstr;
  malformedKeys : list MalformedKeyFinding;
  summary : option Summary      (* [{}] until the run assembles it *)
}.


(** The numeric fields are a number or absent. *)
Record Config := {
  translationFile : jstr;
  sourcePattern : jstr;
  ignorePattern : jstr;
  minimumScore : option Q;
  missingKeyWeight : option Q;
  hardcodedWeight : option Q;
  malformedWeight : option Q;
  unusedKeyWeight : option Q
}.

(** [configured || fallback] for a number or [undefined]: 0 is falsy. *)
Definition or_default (configured : option Q) (fallback : Q) : Q :=
  match configured with
  | Some q => if truthy (Some (VNum q)) then q else fallback
  | None => fallback
  end.

Record PerKind := {
  k_missingKeys : Q; k_hardcodedStrings : Q; k_malformedKeys : Q; k_unusedKeys : Q
}.

Definition Object_values (o : PerKind) : list Q :=
  [k_missingKeys o; k_hardcodedStrings o; k_malformedKeys o; k_unusedKeys o].

Definition count {A} (l : list A) : Q := inject_Z (Z.of_nat (length l)).

(** [calculateScore] in exact arithmetic; [Double.calculateScore], below, is
    the same function in the arithmetic of the machine. *)
Definition calculateScore (report : Report) (config : Config) : Q :=
  let weights := {|
    k_missingKeys := or_default (missingKeyWeight config) (4 # 10);
    k_hardcodedStrings := or_default (hardcodedWeight config) (3 # 10);
    k_malformedKeys := or_default (malformedWeight config) (2 # 10);
    k_unusedKeys := or_default (unusedKeyWeight config) (1 # 10) |} in
  let penalties := {|
    k_missingKeys := (count (missingKeys report) * k_missingKeys weights)%Q;
    k_hardcodedStrings := (count (hardcodedStrings report) * k_hardcodedStrings weights)%Q;
    k_malformedKeys := (count (malformedKeys report) * k_malformedKeys weights)%Q;
    k_unusedKeys := (count (unusedKeys report) * k_unusedKeys weights)%Q |} in
  let totalPenalty :=
    fold_left (fun sum penalty => sum + penalty)%Q (Object_values penalties) 0%Q in
  let maxPossibleScore := 1%Q in
  Qmax 0 (maxPossibleScore - totalPenalty / 10).

(** ** Numbers in the arithmetic of the machine

    The numbers of the language are the binary64 floating-point numbers of
    IEEE 754: a result that is not representable is rounded to the nearest
    number that is, to the one with an even significand when two are as near,
    and to an infinity from [2^1024 - 2^970] on.  A finite number is given by
    its value.  The two zeros are not told apart: nothing modelled here
    divides by a zero or reads the sign of one. *)

Module Double.

Inductive number : Type :=
| NaN
| Infinity (negative : bool)
| Finite (q : Q).

(** [floor (log2 q)], for [0 < q] *)
Definition ilog2 (q : Q) : Z :=
  let k := (Z.log2 (Qnum q) - Z.log2 (Z.pos (Qden q)))%Z in
  if Qle_bool (2 ^ k) q then k else (k - 1)%Z.

(** The exponent of the last place of the significand of 53 bits; the
    subnormal numbers share the exponent -1074. *)
Definition cexp (q : Q) : Z := Z.max (ilog2 q - 52) (-1074).

(** The nearest integer, the even one of two that are as near. *)
Definition rne (x : Q) : Z :=
  let f := Qfloor x in
  match (x - inject_Z f ?= 1 # 2)%Q with
  | Lt => f
  | Gt => (f + 1)%Z
  | Eq => if Z.even f then f else (f + 1)%Z
  end.

(** The nearest multiple of the last place, for [0 < a]. *)
Definition nearest (a : Q) : Q := (inject_Z (rne (a / 2 ^ cexp a)) * 2 ^ cexp a)%Q.

(** From [2^1024] on, the nearest multiple is no number. *)
Definition overflows (a : Q) : bool := Qle_bool (2 ^ 1024) a.

Definition round (q : Q) : number :=
  match (q ?= 0)%Q with
  | Eq => Finite 0
  | Gt => if overflows (nearest q) then Infinity false else Finite (Qred (nearest q))
  | Lt => if overflows (nearest (- q)) then Infinity true
          else Finite (Qred (- nearest (- q)))
  end.

(** [x <= y]: false when one of the two is [NaN]. *)
Definition leb (x y : number) : bool :=
  match x, y with
  | NaN, _ | _, NaN => false
  | Infinity true, _ => true
  | _, Infinity false => true
  | Infinity false, _ => false
  | _, Infinity true => false
  | Finite a, Finite b => Qle_bool a b
  end.

(** [x < y] *)
Definition ltb (x y : number) : bool :=
  match x, y with
  | NaN, _ | _, NaN => false
  | Infinity true, Infinity true => false
  | Infinity true, _ => true
  | Infinity false, _ => false
  | Finite _, Infinity s => negb s
  | Finite a, Finite b => negb (Qle_bool b a)
  end.

(** [x >= y] *)
Definition geb (x y : number) : bool := leb y x.

(** The same number, [NaN] and itself also. *)
Definition eqb (x y : number) : bool :=
  match x, y with
  | NaN, NaN => true
  | Infinity s, Infinity s' => Bool.eqb s s'
  | Finite a, Finite b => Qeq_bool a b
  | _, _ => false
  end.

(** A number that is not negative: a finite one, or the infinity. *)
Definition nonneg (x : number) : Prop := leb (Finite 0) x = true.

Definition is_zero (x : number) : bool :=
  match x with
  | Finite q => Qeq_bool q 0
  | _ => false
  end.

Definition neg (x : number) : number :=
  match x with
  | NaN => NaN
  | Infinity s => Infinity (negb s)
  | Finite q => Finite (- q)
  end.

(** [x + y] *)
Definition add (x y : number) : number :=
  match x, y with
  | NaN, _ | _, NaN => NaN
  | Infinity s, Infinity s' => if Bool.eqb s s' then Infinity s else NaN
  | Infinity s, Finite _ | Finite _, Infinity s => Infinity s
  | Finite a, Finite b => round (a + b)
  end.

(** [x - y] *)
Definition sub (x y : number) : number := add x (neg y).

(** [x * y] *)
Definition mul (x y : number) : number :=
  match x, y with
  | NaN, _ | _, NaN => NaN
  | Infinity s, Infinity s' => Infinity (xorb s s')
  | Infinity s, Finite q | Finite q, Infinity s =>
      match (q ?= 0)%Q with
      | Eq => NaN
      | Lt => Infinity (negb s)
      | Gt => Infinity s
      end
  | Finite a, Finite b => round (a * b)
  end.

(** [x / y]; a divisor that is a zero is taken as [+0]. *)
Definition div (x y : number) : number :=
  match x, y with
  | NaN, _ | _, NaN => NaN
  | Infinity _, Infinity _ => NaN
  | Infinity s, Finite q => Infinity (if Qle_bool 0 q then s else negb s)
  | Finite _, Infinity _ => Finite 0
  | Finite a, Finite b =>
      if Qeq_bool b 0 then
        match (a ?= 0)%Q with
        | Eq => NaN
        | Gt => Infinity false
        | Lt => Infinity true
        end
      else round (a / b)
  end.

(** [Math.max(x, y)] *)
Definition max (x y : number) : number :=
  match x, y with
  | NaN, _ | _, NaN => NaN
  | _, _ => if leb x y then y else x
  end.

(** [x || y] for a number or [undefined]: 0 and [NaN] are falsy. *)
Definition or_default (configured : option number) (fallback : number) : number :=
  match configured with
  | Some NaN | None => fallback
  | Some x => if is_zero x then fallback else x
  end.

(** The number a decimal literal denotes: the nearest one. *)
Definition literal (q : Q) : number := round q.

(** The numeric properties of [config]; [None] is a property that is
    absent. *)
Record Config := {
  minimumScore : option number;
  missingKeyWeight : option number;
  hardcodedWeight : option number;
  malformedWeight : option number;
  unusedKeyWeight : option number
}.

Record PerKind := {
  k_missingKeys : number; k_hardcodedStrings : number;
  k_malformedKeys : number; k_unusedKeys : number
}.

Definition Object_values (o : PerKind) : list number :=
  [k_missingKeys o; k_hardcodedStrings o; k_malformedKeys o; k_unusedKeys o].

(** The length of an array: an integer below [2^32], which is a number. *)
Definition count {A} (l : list A) : number := Finite (inject_Z (Z.of_nat (length l))).

Definition calculateScore (report : Report) (config : Config) : number :=
  let weights := {|
    k_missingKeys := or_default (missingKeyWeight config) (literal (4 # 10));
    k_hardcodedStrings := or_default (hardcodedWeight config) (literal (3 # 10));
    k_malformedKeys := or_default (malformedWeight config) (literal (2 # 10));
    k_unusedKeys := or_default (unusedKeyWeight config) (literal (1 # 10)) |} in
  let penalties := {|
    k_missingKeys := mul (count (missingKeys report)) (k_missingKeys weights);
    k_hardcodedStrings := mul (count (hardcodedStrings report)) (k_hardcodedStrings weights);
    k_malformedKeys := mul (count (malformedKeys report)) (k_malformedKeys weights);
    k_unusedKeys := mul (count (unusedKeys report)) (k_unusedKeys weights) |} in
  let totalPenalty :=
    fold_left (fun sum penalty => add sum penalty) (Object_values penalties) (Finite 0) in
  let maxPossibleScore := Finite 1 in
  max (Finite 0) (sub maxPossibleScore (div totalPenalty (Finite 10))).

(** [score >= (config.minimumScore || 0.8)], the [success] of a run *)
Definition success (score : number) (config : Config) : bool :=
  geb score (or_default (minimumScore config) (literal (8 # 10))).

End Double.

(** What the run asks of its host: the file system, [glob.sync] and
    [JSON.parse].  A call that throws gives the message of its error.
    [glob.sync(pattern, { ignore, nodir })] throws with the message that
    [glob_sync_throws] gives, as it does for an empty pattern
    ([must provide pattern]); where that is [None] it returns the list that
    [glob_sync] gives. *)
Record Env := {
  existsSync : jstr -> bool;
  readFileSync : jstr -> jstr + jstr;
  JSON_parse : jstr -> value + jstr;
  glob_sync : jstr -> jstr -> list jstr;     (* pattern, ignore *)
  glob_sync_throws : jstr -> jstr -> option jstr
}.

Inductive ReportOrError : Type :=
| Failure (error : jstr)                     (* [{ error }] *)
| Findings (report : Report).

Record GradeResult := { success : bool; score : Q; report : ReportOrError }.

Inductive outcome : Type :=
| Returned (result : GradeResult)
| Thrown (message : jstr).

(** The [try] block that loads the translation file. *)
Definition loadTranslations (config : Config) (env : Env) : value + jstr :=
  if existsSync env (translationFile config) then
    match readFileSync env (translationFile config) with
    | inl data => JSON_parse env data
    | inr message => inr message
    end
  else inr ("Translation file not found: " ++ translationFile config).

(** The state of the scan: the set [usedKeys] and the lists of [report]. *)
Record Scan := { usedKeys : gset jstr; found : Report }.

Definition push {A} (l : list A) (x : A) : list A := l ++ [x].

Definition push_missingKey (r : Report) (f : UsageFinding) : Report :=
  {| missingKeys := push (missingKeys r) f; hardcodedStrings := hardcodedStrings r;
     unusedKeys := unusedKeys r; malformedKeys := malformedKeys r; summary := summary r |}.
Definition push_hardcodedString (r : Report) (f : HardcodedFinding) : Report :=
  {| missingKeys := missingKeys r; hardcodedStrings := push (hardcodedStrings r) f;
     unusedKeys := unusedKeys r; malformedKeys := malformedKeys r; summary := summary r |}.
Definition push_malformedKey (r : Report) (f : MalformedKeyFinding) : Report :=
  {| missingKeys := missingKeys r; hardcodedStrings := hardcodedStrings r;
     unusedKeys := unusedKeys r; malformedKeys := push (malformedKeys r) f; summary := summary r |}.
Definition push_unusedKey (r : Report) (key : jstr) : Report :=
  {| missingKeys := missingKeys r; hardcodedStrings := hardcodedStrings r;
     unusedKeys := push (unusedKeys r) key; malformedKeys := malformedKeys r; summary := summary r |}.
Definition set_summary (r : Report) (s : Summary) : Report :=
  {| missingKeys := missingKeys r; hardcodedStrings := hardcodedStrings r;
     unusedKeys := unusedKeys r; malformedKeys := malformedKeys r; summary := Some s |}.

(** The matches a [while ((match = re.exec(code)) !== null)] loop visits.
    The two patterns of a run are shared by all files; a loop ends when
    [exec] returns [null], which sets [lastIndex] back to 0, so every file is
    scanned from its start. *)
Definition all_matches (r : regex) (code : jstr) : list result :=
  match matches r code with
  | Some ms => ms
  | None => []
  end.

(** The body of the usage loop. *)
Definition onUsage (translations : value) (file : jstr) (s : Scan) (m : result) : Scan :=
  let key := group 1 (groups m) in
  let used := usedKeys s ∪ {[ key ]} in
  let r1 :=
    if negb (truthy (resolveKey translations key))
    then push_missingKey (found s) {| uf_file := file; uf_key := key |}
    else found s in
  let r2 :=
    if JS.includes "[" key && JS.includes "]" key
    then push_malformedKey r1
           {| mf_file := file; mf_key := key;
              mf_issue := "Use dot notation instead of bracket notation" |}
    else r1 in
  {| usedKeys := used; found := r2 |}.

(** The body of the hardcoded-text loop. *)
Definition onHardcoded (file : jstr) (s : Scan) (hcMatch : result) : Scan :=
  let text := JS.trim (group 1 (groups hcMatch)) in
  if shouldFlagAsHardcoded text
  then {| usedKeys := usedKeys s;
          found := push_hardcodedString (found s) {| hf_file := file; hf_text := text |} |}
  else s.

(** The body of [for (const file of srcFiles)]: a file that cannot be read
    is logged and skipped. *)
Definition scanFile (translations : value) (env : Env) (s : Scan) (file : jstr) : Scan :=
  match readFileSync env file with
  | inl code =>
      let s1 := fold_left (onUsage translations file) (all_matches I18N_REGEX code) s in
      fold_left (onHardcoded file) (all_matches HARDCODED_TEXT_REGEX code) s1
  | inr _ => s
  end.

Definition emptyReport : Report :=
  {| missingKeys := []; hardcodedStrings := []; unusedKeys := []; malformedKeys := [];
     summary := None |}.

Definition gradeLanguageImplementation (config : Config) (env : Env) : outcome :=
  match loadTranslations config env with
  | inr message =>
      Returned {| success := false; score := 0;
                  report := Failure ("Failed to load translation file: " ++ message) |}
  | inl translations =>
      match glob_sync_throws env (sourcePattern config) (ignorePattern config) with
      | Some message => Thrown message
      | None =>
          let srcFiles := glob_sync env (sourcePattern config) (ignorePattern config) in
          let scanned :=
            fold_left (scanFile translations env) srcFiles
                      {| usedKeys := ∅; found := emptyReport |} in
          match translations with
          | VNull => Thrown "Cannot convert undefined or null to object"
          | _ =>
              let allTranslationKeys := extractAllKeys translations "" in
              let report :=
                fold_left (fun r key =>
                             if negb (bool_decide (key ∈ usedKeys scanned))
                             then push_unusedKey r key else r)
                          allTranslationKeys (found scanned) in
              let score := calculateScore report config in
              let report := set_summary report {|
                filesScanned := length srcFiles;
                totalKeys := length allTranslationKeys;
                usedKeysSize := size (usedKeys scanned);
                missingKeysCount := length (missingKeys report);
                hardcodedStringsCount := length (hardcodedStrings report);
                unusedKeysCount := length (unusedKeys report);
                malformedKeysCount := length (malformedKeys report);
                summaryScore := score |} in
              let success := Qle_bool (or_default (minimumScore config) (8 # 10)) score in
              Returned {| success := success; score := score; report := Findings report |}
          end
      end
  end.

(** ** The i18n pass of the FileScanner utility *)

Module FileScanner.

(** [content.substring(0, index).split('\n').length] *)
Definition getLineNumber (content : jstr) (index : nat) : nat :=
  length (JS.split "010" (JS.substring0 index content)).

Definition shouldFlagAsHardcoded (text : jstr) : bool :=
  (3 <? length text)%nat
  && negb (existsb (fun pattern => test pattern text) excludePatterns)
  && negb (test BLANK_REGEX text).

Record KeyUse := { key : jstr; key_line : nat }.
Record HardcodedUse := { text : jstr; text_line : nat }.

Record I18nUsage := {
  usedKeys : list KeyUse;
  hardcodedStrings : list HardcodedUse;
  hasI18nImport : bool;
  keyCount : nat;
  hardcodedCount : nat
}.

(** [/import.*i18n/]: the dot is any character but a line terminator. *)
Definition IMPORT_I18N : regex :=
  Seq [Lit "import"; Star true (Chr (fun c => negb (JS.is_line_terminator c))); Lit "i18n"].

Definition analyzeI18nUsage (content : jstr) : I18nUsage :=
  let usedKeys :=
    map (fun m => {| key := group 1 (groups m);
                     key_line := getLineNumber content (index m) |})
        (all_matches I18N_REGEX content) in
  let hardcodedStrings :=
    flat_map (fun m =>
                let text := JS.trim (group 1 (groups m)) in
                if shouldFlagAsHardcoded text
                then [{| text := text; text_line := getLineNumber content (index m) |}]
                else [])
             (all_matches HARDCODED_TEXT_REGEX content) in
  {| usedKeys := usedKeys;
     hardcodedStrings := hardcodedStrings;
     hasI18nImport := test IMPORT_I18N content;
     keyCount := length usedKeys;
     hardcodedCount := length hardcodedStrings |}.

(** *** The other analyses of a source file *)

(** The dot of a pattern: any character but a line terminator. *)
Definition dot (c : ascii) : bool := negb (JS.is_line_terminator c).

(** [\w] *)
Definition is_word (c : ascii) : bool := JS.is_letter c || JS.is_digit c || JS.is_char "_" c.

Record ComponentPatterns := {
  hasAccessibilityLabels : bool;
  hasTestIds : bool;
  hasInlineStyles : bool;
  hasPressableElements : bool;
  hasTextInputs : bool;
  hasImages : bool;
  usesStyleSheet : bool;
  hasMappedComponents : bool
}.

(** [/style=\{\{[^}]+\}\}/] *)
Definition INLINE_STYLE : regex :=
  Seq [Lit "style={{"; Plus true (Chr (fun c => negb (JS.is_char "}" c))); Lit "}}"].

(** [/(Pressable|TouchableOpacity|Button)/] *)
Definition PRESSABLE : regex :=
  Group 1 (Alt (Lit "Pressable") (Alt (Lit "TouchableOpacity") (Lit "Button"))).

(** [/\.map\([^)]*\)\s*=>\s*</] *)
Definition MAPPED : regex :=
  Seq [Lit ".map("; Star true (Chr (fun c => negb (JS.is_char ")" c))); Lit ")";
       Star true (Chr JS.is_space); Lit "=>"; Star true (Chr JS.is_space); Lit "<"].

Definition analyzeComponentPatterns (content : jstr) : ComponentPatterns :=
  {| hasAccessibilityLabels := test (Lit "accessibilityLabel") content;
     hasTestIds := test (Lit "testID") content;
     hasInlineStyles := test INLINE_STYLE content;
     hasPressableElements := test PRESSABLE content;
     hasTextInputs := test (Lit "TextInput") content;
     hasImages := test (Lit "<Image") content;
     usesStyleSheet := test (Lit "StyleSheet.create") content;
     hasMappedComponents := test MAPPED content |}.

Record ImportUse := { module : jstr; import_line : nat; import_statement : jstr }.
Record ExportUse := { name : jstr; export_line : nat; export_statement : jstr }.

(** [\{[^}]*\}] *)
Definition BRACES : regex :=
  Seq [Lit "{"; Star true (Chr (fun c => negb (JS.is_char "}" c))); Lit "}"].

(** The global pattern
    [import\s+(?:(?:\*\s+as\s+\w+)|(?:\{[^}]*\})|(?:\w+(?:\s*,\s*\{[^}]*\})?))?\s+from\s+Q([^Q]+)Q],
    where the class Q holds the three quote characters. *)
Definition IMPORT_REGEX : regex :=
  Seq [Lit "import"; Plus true (Chr JS.is_space);
       Opt (Alt (Seq [Lit "*"; Plus true (Chr JS.is_space); Lit "as";
                      Plus true (Chr JS.is_space); Plus true (Chr is_word)])
           (Alt BRACES
                (Seq [Plus true (Chr is_word);
                      Opt (Seq [Star true (Chr JS.is_space); Lit ",";
                                Star true (Chr JS.is_space); BRACES])])));
       Plus true (Chr JS.is_space); Lit "from"; Plus true (Chr JS.is_space);
       Chr is_quote; Group 1 (Plus true (Chr (fun c => negb (is_quote c)))); Chr is_quote].

(** [/export\s+(?:default\s+)?(?:function|class|const|let|var)?\s*([^=\s;]+)/g] *)
Definition EXPORT_REGEX : regex :=
  Seq [Lit "export"; Plus true (Chr JS.is_space);
       Opt (Seq [Lit "default"; Plus true (Chr JS.is_space)]);
       Opt (Alt (Lit "function") (Alt (Lit "class") (Alt (Lit "const")
              (Alt (Lit "let") (Lit "var")))));
       Star true (Chr JS.is_space);
       Group 1 (Plus true (Chr (fun c =>
                  negb (JS.is_char "=" c || JS.is_space c || JS.is_char ";" c))))].

Definition extractImports (content : jstr) : list ImportUse :=
  map (fun m => {| module := group 1 (groups m);
                   import_line := getLineNumber content (index m);
                   import_statement := matched_text content m |})
      (all_matches IMPORT_REGEX content).

Definition extractExports (content : jstr) : list ExportUse :=
  map (fun m => {| name := group 1 (groups m);
                   export_line := getLineNumber content (index m);
                   export_statement := matched_text content m |})
      (all_matches EXPORT_REGEX content).

(** [/import.*React/] *)
Definition IMPORT_REACT : regex := Seq [Lit "import"; Star true (Chr dot); Lit "React"].

(** [/(function|class|const).*=.*=>|extends.*Component/] *)
Definition COMPONENT_SHAPE : regex :=
  Alt (Seq [Group 1 (Alt (Lit "function") (Alt (Lit "class") (Lit "const")));
            Star true (Chr dot); Lit "="; Star true (Chr dot); Lit "=>"])
      (Seq [Lit "extends"; Star true (Chr dot); Lit "Component"]).

Record CodeAnalysis := {
  lines : nat;
  nonEmptyLines : nat;
  isReactComponent : bool;
  isTypeScript : bool;
  i18nUsage : I18nUsage;
  componentPatterns : ComponentPatterns;
  imports : list ImportUse;
  exports : list ExportUse
}.

(** *** Kinds of files *)

Definition getFileType (filePath : jstr) : jstr :=
  let ext := JS.toLowerCase (path.extname filePath) in
  let fileName := JS.toLowerCase (path.basename filePath) in
  if JS.array_includes [chars ".js"; chars ".jsx"; chars ".ts"; chars ".tsx"] ext then
    if JS.includes_str ".test." fileName || JS.includes_str ".spec." fileName then "test"
    else if JS.includes_str "/components/" filePath then "component"
    else "source"
  else if String.eqb (JS.str ext) ".json"
          && (JS.includes_str "/locales/" filePath
              || JS.includes_str "/translations/" filePath
              || JS.includes_str "i18n" fileName
              || String.eqb (JS.str fileName) "en.json") then "translation"
  else if JS.array_includes
            [chars "package.json"; chars "tsconfig.json"; chars ".eslintrc.json"] fileName
  then "config"
  else "other".

Definition isSourceFile (filePath : jstr) : bool :=
  let type := getFileType filePath in
  JS.array_includes [chars "source"; chars "component"; chars "test"] type.

(** *** Scans

    What a scan asks of its host: [fs.stat], [fs.readFile] (decoded), the
    promisified [glob], [process.cwd] and the functions of [path] that depend
    on it.  A call that rejects gives the message of its error.  Dates are
    numbers of milliseconds. *)

Record Stats := { size : N; mtime : Z; birthtime : Z }.

(** The options of a scan; [None] is a property that is absent.  A batch
    size is an integer. *)
Record Options := {
  o_cwd : option jstr;
  o_ignore : option (list jstr);
  o_absolute : option bool;
  o_nodir : option bool;
  o_patterns : option (jstr + list jstr);
  batchSize : option Z;
  includeContent : bool;
  analyzeCode : bool
}.

(** [scanOptions], as [glob] receives it. *)
Record GlobOptions := {
  cwd : jstr; absolute : bool; nodir : bool; ignore : list jstr; others : Options
}.

Record Host := {
  stat : jstr -> Stats + jstr;
  readFile : jstr -> jstr + jstr;
  glob : jstr -> GlobOptions -> list jstr + jstr;
  process_cwd : jstr;
  resolve : jstr -> jstr;
  relative : jstr -> jstr -> jstr;
  dirname : jstr -> jstr
}.

(** [this.config], and the argument of the constructor: [None] is a
    property that is absent. *)
Record ScannerConfig := {
  sourcePatterns : list jstr;
  config_componentPatterns : list jstr;
  translationPatterns : list jstr;
  testPatterns : list jstr;
  maxFileSize : N;
  timeout : N
}.

Record ConstructorConfig := {
  c_sourcePatterns : option (list jstr);
  c_componentPatterns : option (list jstr);
  c_translationPatterns : option (list jstr);
  c_testPatterns : option (list jstr);
  c_maxFileSize : option N;
  c_timeout : option N
}.

(** [given || fallback]: an array is truthy, the number 0 is not. *)
Definition array_or (given : option (list jstr)) (fallback : list jstr) : list jstr :=
  match given with
  | Some a => a
  | None => fallback
  end.

Definition number_or (given : option N) (fallback : N) : N :=
  match given with
  | Some 0%N | None => fallback
  | Some n => n
  end.

Definition integer_or (given : option Z) (fallback : Z) : Z :=
  match given with
  | Some 0%Z | None => fallback
  | Some n => n
  end.

(** [{ key: computed, ...config }]: a property of [config] replaces the
    computed one. *)
Definition spread_over {A} (computed : A) (given : option A) : A :=
  match given with
  | Some a => a
  | None => computed
  end.

Definition constructor (config : ConstructorConfig) : ScannerConfig :=
  {| sourcePatterns :=
       spread_over
         (array_or (c_sourcePatterns config)
            [chars "**/*.{js,jsx,ts,tsx}"; chars "!node_modules/**"; chars "!dist/**";
             chars "!build/**"; chars "!coverage/**"])
         (c_sourcePatterns config);
     config_componentPatterns :=
       spread_over
         (array_or (c_componentPatterns config)
            [chars "components/**/*.{js,jsx,ts,tsx}";
             chars "src/components/**/*.{js,jsx,ts,tsx}"])
         (c_componentPatterns config);
     translationPatterns :=
       spread_over
         (array_or (c_translationPatterns config)
            [chars "**/i18n.js"; chars "**/locales/**/*.json";
             chars "**/translations/**/*.json"; chars "store/en.json"])
         (c_translationPatterns config);
     testPatterns :=
       spread_over
         (array_or (c_testPatterns config)
            [chars "**/*.test.{js,jsx,ts,tsx}"; chars "**/*.spec.{js,jsx,ts,tsx}";
             chars "**/__tests__/**/*.{js,jsx,ts,tsx}"])
         (c_testPatterns config);
     maxFileSize :=
       spread_over (number_or (c_maxFileSize config) (5 * 1024 * 1024)%N) (c_maxFileSize config);
     timeout := spread_over (number_or (c_timeout config) 30000%N) (c_timeout config) |}.

(** What [getFileMetadata] resolves to: [{ path, error }] or the data of the
    file. *)
Record FileInfo := {
  file_path : jstr;
  absolutePath : jstr;
  relativePath : jstr;
  fileName : jstr;
  extension : jstr;
  directory : jstr;
  file_size : N;
  modified : Z;
  created : Z;
  file_type : jstr;
  content : option jstr;
  file_lines : option nat;
  isEmpty : option bool;
  codeAnalysis : option CodeAnalysis
}.

Inductive FileData : Type :=
| FileError (path : jstr) (error : jstr)
| File (info : FileInfo).

(** [{ files, summary: { totalFiles, patterns, options } }]; the time the scan
    took, [scanTime], is left out. *)
Record ScanResult := {
  files : list FileData;
  totalFiles : nat;
  patterns : list jstr;
  options : GlobOptions
}.

Record I18nSummary := {
  s_totalFiles : nat;
  filesWithI18n : nat;
  totalKeys : nat;
  totalHardcodedStrings : nat;
  filesWithHardcodedText : nat
}.

Record ComponentSummary := {
  totalComponents : nat;
  withAccessibilityLabels : nat;
  withTestIds : nat;
  withInlineStyles : nat;
  usingStyleSheet : nat
}.

(** [f.codeAnalysis], [undefined] for [{ path, error }]. *)
Definition analysis_of (f : FileData) : option CodeAnalysis :=
  match f with
  | File info => codeAnalysis info
  | FileError _ _ => None
  end.

(** [files.filter(f => f.codeAnalysis && p(f.codeAnalysis))] *)
Definition analysed (p : CodeAnalysis -> bool) (files : list FileData) : list CodeAnalysis :=
  flat_map (fun f => match analysis_of f with
                     | Some a => if p a then [a] else []
                     | None => []
                     end) files.

Definition summarizeI18nUsage (files : list FileData) : I18nSummary :=
  let filesWithAnalysis := analysed (fun _ => true) files in
  {| s_totalFiles := length filesWithAnalysis;
     filesWithI18n :=
       length (List.filter (fun a => (0 <? keyCount (i18nUsage a))%nat) filesWithAnalysis);
     totalKeys :=
       fold_left (fun sum a => (sum + keyCount (i18nUsage a))%nat) filesWithAnalysis 0%nat;
     totalHardcodedStrings :=
       fold_left (fun sum a => (sum + hardcodedCount (i18nUsage a))%nat) filesWithAnalysis 0%nat;
     filesWithHardcodedText :=
       length (List.filter (fun a => (0 <? hardcodedCount (i18nUsage a))%nat)
                           filesWithAnalysis) |}.

Definition summarizeComponentPatterns (files : list FileData) : ComponentSummary :=
  let components := analysed isReactComponent files in
  {| totalComponents := length components;
     withAccessibilityLabels :=
       length (List.filter (fun a => hasAccessibilityLabels (componentPatterns a)) components);
     withTestIds :=
       length (List.filter (fun a => hasTestIds (componentPatterns a)) components);
     withInlineStyles :=
       length (List.filter (fun a => hasInlineStyles (componentPatterns a)) components);
     usingStyleSheet :=
       length (List.filter (fun a => usesStyleSheet (componentPatterns a)) components) |}.

(** [filePaths.slice(start, final)]: an index below 0 counts from the end,
    and no index reaches outside the array. *)
Definition slice {A} (start final : Z) (l : list A) : list A :=
  let len := Z.of_nat (length l) in
  let relative (index : Z) :=
    if (index <? 0)%Z then Z.max (len + index) 0 else Z.min index len in
  let k := relative start in
  let final := relative final in
  firstn (Z.to_nat (final - k)) (skipn (Z.to_nat k) l).

(** [[...new Set(l)]]: the first occurrence of every element. *)
Fixpoint unique (seen l : list jstr) : list jstr :=
  match l with
  | [] => []
  | x :: l' =>
      if JS.array_includes seen x then unique seen l'
      else x :: unique (x :: seen) l'
  end.

(** [Promise.all]: the values, or the first rejection in the order of the
    array. *)
Fixpoint Promise_all {A} (promises : list (A + jstr)) : list A + jstr :=
  match promises with
  | [] => inl []
  | inr message :: _ => inr message
  | inl a :: rest =>
      match Promise_all rest with
      | inl values => inl (a :: values)
      | inr message => inr message
      end
  end.

(** The summary of a project; [scanTime] and [timestamp] are left out. *)
Record ProjectSummary := {
  p_totalFiles : nat;
  p_components : nat;
  p_translations : nat;
  p_tests : nat;
  totalSize : N;
  i18nSummary : I18nSummary;
  componentSummary : ComponentSummary
}.

Section Scanner.
Variable this_config : ScannerConfig.
Variable host : Host.

Definition readFileContent (filePath : jstr) : jstr + jstr :=
  match readFile host filePath with
  | inl content => inl content
  | inr message => inr ("Failed to read file " ++ filePath ++ ": " ++ message)
  end.

(** [analyzeSourceFile(filePath, content = null)]: without a content, or
    with the empty one, the file is read. *)
Definition analyzeSourceFile (filePath : jstr) (content : option jstr)
    : CodeAnalysis + jstr :=
  let read :=
    match content with
    | Some (c :: l) => inl (c :: l)
    | Some [] | None => readFileContent filePath
    end in
  match read with
  | inr message => inr message
  | inl content =>
      inl {| lines := length (JS.split "010" content);
             nonEmptyLines :=
               length (List.filter (fun line => (0 <? length (JS.trim line))%nat)
                                   (JS.split "010" content));
             isReactComponent := test IMPORT_REACT content && test COMPONENT_SHAPE content;
             isTypeScript :=
               String.eqb (JS.str (path.extname filePath)) ".ts"
               || String.eqb (JS.str (path.extname filePath)) ".tsx";
             i18nUsage := analyzeI18nUsage content;
             componentPatterns := analyzeComponentPatterns content;
             imports := extractImports content;
             exports := extractExports content |}
  end.

(** The whole body is in a [try]: an error gives [{ path, error }], the
    promise is never rejected. *)
Definition getFileMetadata (filePath : jstr) (options : Options) : FileData + jstr :=
  match stat host filePath with
  | inr message => inl (FileError filePath message)
  | inl stats =>
      if (maxFileSize this_config <? size stats)%N then
        inl (FileError filePath
               ("File too large: " ++ JS.toStringN (size stats) ++ " bytes (max: "
                ++ JS.toStringN (maxFileSize this_config) ++ ")"))
      else
        let read :=
          if includeContent options
          then match readFileContent filePath with
               | inl content => inl (Some content)
               | inr message => inr message
               end
          else inl None in
        match read with
        | inr message => inl (FileError filePath message)
        | inl content =>
            let analysis :=
              if analyzeCode options && isSourceFile filePath
              then match analyzeSourceFile filePath content with
                   | inl a => inl (Some a)
                   | inr message => inr message
                   end
              else inl None in
            match analysis with
            | inr message => inl (FileError filePath message)
            | inl codeAnalysis =>
                inl (File {|
                  file_path := filePath;
                  absolutePath := resolve host filePath;
                  relativePath := relative host (process_cwd host) filePath;
                  fileName := path.basename filePath;
                  extension := path.extname filePath;
                  directory := dirname host filePath;
                  file_size := size stats;
                  modified := mtime stats;
                  created := birthtime stats;
                  file_type := getFileType filePath;
                  content := content;
                  file_lines := option_map (fun c => length (JS.split "010" c)) content;
                  isEmpty :=
                    option_map (fun c => (length (JS.trim c) =? 0)%nat) content;
                  codeAnalysis := codeAnalysis |})
            end
        end
  end.

(** The turns of [for (let i = 0; i < filePaths.length; i += batchSize)]:
    [Promise.allSettled] over the batch, then the fulfilled values are pushed
    in the order of the batch.  [None] is a loop that has not ended when the
    fuel is spent. *)
Fixpoint batches (fuel : nat) (batchSize i : Z) (filePaths : list jstr)
    (options : Options) (results : list FileData) : option (list FileData) :=
  match fuel with
  | 0 => None
  | S fuel' =>
      if (i <? Z.of_nat (length filePaths))%Z then
        let batch := slice i (i + batchSize) filePaths in
        let batchResults := map (fun filePath => getFileMetadata filePath options) batch in
        let results :=
          fold_left (fun results result =>
                       match result with
                       | inl value => results ++ [value]
                       | inr _ => results
                       end) batchResults results in
        batches fuel' batchSize (i + batchSize)%Z filePaths options results
      else Some results
  end.

(** [None] stands for a loop that does not end: a loop that ends takes no
    more turns than there are paths, and one more to leave. *)
Definition processFilesInBatches (filePaths : list jstr) (options : Options)
    : option (list FileData) :=
  let batchSize := integer_or (batchSize options) 10 in
  batches (S (length filePaths)) batchSize 0 filePaths options [].

Definition scanFiles (patterns : jstr + list jstr) (options : Options)
    : option (ScanResult + jstr) :=
  let scanOptions :=
    {| cwd := spread_over (match o_cwd options with
                           | Some (c :: l) => c :: l
                           | Some [] | None => process_cwd host
                           end) (o_cwd options);
       absolute := spread_over true (o_absolute options);
       nodir := spread_over true (o_nodir options);
       ignore := spread_over (array_or (o_ignore options)
                                [chars "node_modules/**"; chars ".git/**"])
                             (o_ignore options);
       others := options |} in
  let normalizedPatterns :=
    match patterns with
    | inr array => array
    | inl pattern => [pattern]
    end in
  match Promise_all (map (fun pattern => glob host pattern scanOptions) normalizedPatterns) with
  | inr message => Some (inr ("File scanning failed: " ++ message))
  | inl allMatches =>
      let uniqueFiles := unique [] (concat allMatches) in
      match processFilesInBatches uniqueFiles options with
      | None => None
      | Some fileResults =>
          Some (inl {| files := fileResults;
                       totalFiles := length fileResults;
                       patterns := normalizedPatterns;
                       options := scanOptions |})
      end
  end.

(** [{ ...options, includeContent, analyzeCode }] *)
Definition with_content (options : Options) (content : bool) (analyze : option bool)
    : Options :=
  {| o_cwd := o_cwd options; o_ignore := o_ignore options;
     o_absolute := o_absolute options; o_nodir := o_nodir options;
     o_patterns := o_patterns options; batchSize := batchSize options;
     includeContent := content;
     analyzeCode := spread_over (analyzeCode options) analyze |}.

(** [options.patterns || fallback]: the empty string is falsy, an array is
    not. *)
Definition patterns_or (given : option (jstr + list jstr)) (fallback : list jstr)
    : jstr + list jstr :=
  match given with
  | Some (inl []) | None => inr fallback
  | Some patterns => patterns
  end.

Definition scanComponents (options : Options) : option (ScanResult + jstr) :=
  let patterns := patterns_or (o_patterns options) (config_componentPatterns this_config) in
  scanFiles patterns (with_content options true (Some true)).

Definition scanTranslations (options : Options) : option (ScanResult + jstr) :=
  let patterns := patterns_or (o_patterns options) (translationPatterns this_config) in
  scanFiles patterns (with_content options true None).

Definition scanTests (options : Options) : option (ScanResult + jstr) :=
  let patterns := patterns_or (o_patterns options) (testPatterns this_config) in
  scanFiles patterns (with_content options false None).

(** [file.size || 0] *)
Definition size_or_0 (file : FileData) : N :=
  match file with
  | File info => file_size info
  | FileError _ _ => 0%N
  end.

(** [{}], and [{ includeContent }] *)
Definition no_options : Options :=
  {| o_cwd := None; o_ignore := None; o_absolute := None; o_nodir := None;
     o_patterns := None; batchSize := None; includeContent := false; analyzeCode := false |}.

Definition only_includeContent (includeContent : bool) : Options :=
  with_content no_options includeContent None.

(** [Promise.all] over scans: the message of the first that is rejected, in
    the order of the array. *)
Fixpoint first_rejection {A} (scans : list (option (A + jstr))) : option jstr :=
  match scans with
  | [] => None
  | Some (inr message) :: _ => Some message
  | _ :: rest => first_rejection rest
  end.

(** The four scans run together; [None] stands for a scan that does not
    end. *)
Definition generateProjectSummary : option (ProjectSummary + jstr) :=
  let sourceFiles := scanFiles (inr (sourcePatterns this_config)) (only_includeContent false) in
  let components := scanComponents (only_includeContent true) in
  let translations := scanTranslations (only_includeContent true) in
  let tests := scanTests (only_includeContent false) in
  match first_rejection [sourceFiles; components; translations; tests] with
  | Some message => Some (inr ("Failed to generate project summary: " ++ message))
  | None =>
      match sourceFiles, components, translations, tests with
      | Some (inl sourceFiles), Some (inl components), Some (inl translations),
        Some (inl tests) =>
          Some (inl {|
            p_totalFiles := length (files sourceFiles);
            p_components := length (files components);
            p_translations := length (files translations);
            p_tests := length (files tests);
            totalSize :=
              fold_left (fun sum file => (sum + size_or_0 file)%N) (files sourceFiles) 0%N;
            i18nSummary := summarizeI18nUsage (files components);
            componentSummary := summarizeComponentPatterns (files components) |})
      | _, _, _, _ => None
      end
  end.

End Scanner.

End FileScanner.

(** ** The HTTP function [languageGrader]

    The handler of [app.http('languageGrader', ...)].  A response is its
    status and the object its body was made of by [JSON.stringify]; the
    [timestamp] of the body and the headers are left out. *)

Module LanguageGraderFunction.

(** A JavaScript object as the list of its properties; the order of the
    list is not meant. *)
Definition object := list (jstr * value).

(** [o[k] = v] *)
Fixpoint assign (o : object) (k : jstr) (v : value) : object :=
  match o with
  | [] => [(k, v)]
  | (k', v') :: o' =>
      if String.eqb (JS.str k') (JS.str k) then (k', v) :: o'
      else (k', v') :: assign o' k v
  end.

(** The own enumerable properties of a value: the properties of an object,
    the indices of an array and of a string. *)
Definition own_enumerable (source : value) : object :=
  match source with
  | VObj entries => entries
  | VArr items => flat_mapi (fun i item => [(JS.toString i, item)]) 0 items
  | VStr s => flat_mapi (fun i c => [(JS.toString i, VStr [c])]) 0 s
  | VNull | VBool _ | VNum _ => []
  end.

(** [{ ...o, ...source }] *)
Definition spread (o : object) (source : value) : object :=
  fold_left (fun o kv => assign o (fst kv) (snd kv)) (own_enumerable source) o.

(** [requestBody.name] for the names the handler reads, which no prototype
    defines; reading a property of [null] throws. *)
Definition property (requestBody : value) (name : jstr) : option value + jstr :=
  match requestBody with
  | VNull => inr ("Cannot read properties of null (reading '" ++ name ++ "')")
  | VObj entries => inl (own_property entries name)
  | VBool _ | VNum _ | VStr _ | VArr _ => inl None
  end.

(** [v || fallback] *)
Definition or_value (v : option value) (fallback : value) : value :=
  match v with
  | Some x => if truthy v then x else fallback
  | None => fallback
  end.

(** The object [config] of the handler, for a body that is not [null]. *)
Definition config_object (requestBody : value) : object :=
  let get name := match property requestBody name with inl v => v | inr _ => None end in
  spread [ (chars "translationFile",
            or_value (get (chars "translationFile")) (VStr "./store/en.json"));
           (chars "sourcePattern",
            or_value (get (chars "sourcePattern")) (VStr "./**/*.{js,jsx,ts,tsx}"));
           (chars "ignorePattern",
            or_value (get (chars "ignorePattern")) (VStr "node_modules/**"));
           (chars "strictMode", or_value (get (chars "strictMode")) (VBool false)) ]
         requestBody.

(** The properties [gradeLanguageImplementation] reads, when each has the
    type the grader expects: the three paths are strings, the minimum score
    and the weights are numbers or absent. *)
Definition string_property (o : object) (name : jstr) : option jstr :=
  match own_property o name with
  | Some (VStr s) => Some s
  | _ => None
  end.

Definition number_property (o : object) (name : jstr) : option (option Q) :=
  match own_property o name with
  | None => Some None
  | Some (VNum q) => Some (Some q)
  | Some _ => None
  end.

Definition typed (o : object) : option Config :=
  match string_property o "translationFile", string_property o "sourcePattern",
        string_property o "ignorePattern", number_property o "minimumScore",
        number_property o "missingKeyWeight", number_property o "hardcodedWeight",
        number_property o "malformedWeight", number_property o "unusedKeyWeight" with
  | Some translationFile, Some sourcePattern, Some ignorePattern, Some minimumScore,
    Some missingKeyWeight, Some hardcodedWeight, Some malformedWeight, Some unusedKeyWeight =>
      Some {| translationFile := translationFile; sourcePattern := sourcePattern;
              ignorePattern := ignorePattern; minimumScore := minimumScore;
              missingKeyWeight := missingKeyWeight; hardcodedWeight := hardcodedWeight;
              malformedWeight := malformedWeight; unusedKeyWeight := unusedKeyWeight |}
  | _, _, _, _, _, _, _, _ => None
  end.

Inductive ResponseBody : Type :=
| Graded (success : bool) (score : Q) (report : ReportOrError) (config : object)
| Failed (error : jstr).                 (* [{ success: false, error }] *)

Record Response := { status : nat; body : ResponseBody }.

(** [request_json] is what [request.json()] settles to.  [None] stands for a
    body whose properties have types outside those of [typed]. *)
Definition handler (request_json : value + jstr) (env : Env) : option Response :=
  let requestBody :=
    match request_json with
    | inl v => v
    | inr _ => VObj []
    end in
  match property requestBody "translationFile" with
  | inr message => Some {| status := 500; body := Failed message |}
  | inl _ =>
      let config := config_object requestBody in
      match typed config with
      | None => None
      | Some typed_config =>
          match gradeLanguageImplementation typed_config env with
          | Returned result =>
              Some {| status := if success result then 200 else 400;
                      body := Graded (success result) (score result) (report result) config |}
          | Thrown message => Some {| status := 500; body := Failed message |}
          end
      end
  end.

End LanguageGraderFunction.

(** ** The HTTP function [E2ETestGrader] and [runMaestroTest] *)

Module E2ETestGrader.

(** The two properties [runMaestroTest] reads of the error [execAsync]
    rejects with; a property that is absent is [None]. *)
Record ExecError := { stdout : option jstr; stderr : option jstr }.

(** The host: [execAsync(command, { cwd, timeout })], which resolves to
    [{ stdout, stderr }], and the two readings of [Date.now()], in
    milliseconds. *)
Record Host := {
  execAsync : jstr -> jstr -> N -> (jstr * jstr) + ExecError;
  startTime : Z;
  endTime : Z
}.

Record Report := {
  testFlow : jstr;
  passed : bool;
  output : jstr;
  duration : Z;
  screenshots : list jstr
}.

Record Result := { success : bool; score : Q; report : Report }.

(** [s || fallback] for a string or [undefined] *)
Definition or_string (s : option jstr) (fallback : jstr) : jstr :=
  match s with
  | Some (c :: l) => c :: l
  | Some [] | None => fallback
  end.

(** [Math.round(ms / 1000)] for an integer [ms]: halves go up. *)
Definition round_seconds (ms : Z) : Z := ((ms + 500) / 1000)%Z.

Definition runMaestroTest (host : Host) (projectPath testPath : jstr) : Result :=
  let settled :=
    execAsync host ("maestro test " ++ testPath ++ " --format=json") projectPath 900000%N in
  let '(passed, output) :=
    match settled with
    | inl (stdout, _) => (true, stdout)
    | inr error =>
        (false, or_string (stdout error)
                  (or_string (stderr error) "An unknown error occurred."))
    end in
  let report :=
    {| testFlow := testPath; passed := passed; output := output;
       duration := round_seconds (endTime host - startTime host);
       screenshots := [] |} in
  let score := if passed then 1%Q else 0%Q in
  {| success := passed; score := score; report := report |}.

Inductive ResponseBody : Type :=
| Ran (result : Result)
| Failed (error : jstr).              (* [{ success: false, error, details }] *)

Record Response := { status : nat; body : ResponseBody }.

(** What [request.json()] settles to.  In a body, [projectPath] and
    [testPath] are strings or absent; a number, a string, a boolean or an array
    is a body without the two.  Of the body of a failure, [details] (the
    stack of the error) is left out. *)
Inductive RequestBody : Type :=
| Rejected (message : jstr)                        (* [request.json()] rejects *)
| Null                                             (* the JSON value [null] *)
| Body (projectPath testPath : option jstr).

Definition handler (host : Host) (request_json : RequestBody) : Response :=
  match request_json with
  | Rejected message => {| status := 500; body := Failed message |}
  | Null =>
      {| status := 500;
         body := Failed "Cannot read properties of null (reading 'projectPath')" |}
  | Body projectPath testPath =>
      let projectPath := or_string projectPath "." in
      match testPath with
      | Some (c :: l) =>
          {| status := 200; body := Ran (runMaestroTest host projectPath (c :: l)) |}
      | Some [] | None =>
          {| status := 500; body := Failed "Missing required parameter: 'testPath'" |}
      end
  end.

End E2ETestGrader.

(** ** The helpers of the code-quality grader that read the output of the
    test run and of the type check *)

Module CodeQualityGrader.

(** [/error TS\d+:/] *)
Definition TS_ERROR : regex := Seq [Lit "error TS"; Plus true (Chr JS.is_digit); Lit ":"].

(** [None] is an output that is no string. *)
Definition parseTestOutput (output : option jstr) : list jstr :=
  match output with
  | None => []
  | Some output =>
      List.filter (fun line => JS.includes_str "FAIL" line
                               || test (Lit "Test suite failed") line)
                  (JS.split "010" output)
  end.

Definition parseTypeScriptOutput (output : option jstr) : list jstr :=
  match output with
  | None => []
  | Some output => List.filter (fun line => test TS_ERROR line) (JS.split "010" output)
  end.

End CodeQualityGrader.

(** * The vocabulary of the properties

    Predicates and functions in which the properties below are stated,
    closed forms of what a run computes, and the concrete hosts,
    configurations and documents of the examples. *)

(** ** Patterns *)

(** A matcher [m] for [r] finds only matches of [sem] ... *)
Definition sound_for {R : Type} (r : regex)
    (m : (state -> option R) -> state -> option R) : Prop :=
  forall k st x, m k st = Some x -> exists st', sem r st st' /\ k st' = Some x.

(** ... and misses none. *)
Definition complete_for {R : Type} (r : regex)
    (m : (state -> option R) -> state -> option R) : Prop :=
  forall k st, m k st = None -> forall st', sem r st st' -> k st' = None.

(** The words a pattern can consume. *)
Inductive lang : regex -> jstr -> Prop :=
| lang_eps : lang Eps []
| lang_chr p c : p c = true -> lang (Chr p) [c]
| lang_cat r1 r2 w1 w2 : lang r1 w1 -> lang r2 w2 -> lang (Cat r1 r2) (w1 ++ w2)
| lang_alt_l r1 r2 w : lang r1 w -> lang (Alt r1 r2) w
| lang_alt_r r1 r2 w : lang r2 w -> lang (Alt r1 r2) w
| lang_star_done g r : lang (Star g r) []
| lang_star_more g r w1 w2 :
    lang r w1 -> lang (Star g r) w2 -> lang (Star g r) (w1 ++ w2)
| lang_group n r w : lang r w -> lang (Group n r) w
| lang_bol : lang Bol []
| lang_eol : lang Eol [].

(** A pattern without capturing groups. *)
Fixpoint no_group (r : regex) : bool :=
  match r with
  | Group _ _ => false
  | Cat r1 r2 | Alt r1 r2 => no_group r1 && no_group r2
  | Star _ r1 => no_group r1
  | Eps | Chr _ | Bol | Eol => true
  end.

(** The state at position [p], with [l] left to read and the captures [c]. *)
Definition at_ (p : nat) (l : jstr) (c : captures) : state :=
  {| pos := p; rest := l; caps := c |}.

(** [m] is a match of [r] somewhere in [input]. *)
Definition found_at (r : regex) (input : jstr) (m : result) : Prop :=
  (index m <= length input)%nat /\
  exists st', sem r (at_ (index m) (skipn (index m) input) []) st' /\
              lastIndex m = pos st' /\ groups m = caps st'.

(** A pattern whose matches are never empty. *)
Definition progresses (r : regex) : Prop := forall w, lang r w -> w <> [].

(** ** Runs *)

(** The key of a usage: [match[1]]. *)
Definition usage_key (m : result) : jstr := group 1 (groups m).

(** The findings the usage loop and the hardcoded-text loop append for the
    matches [ms] of one file. *)
Definition missing_of (translations : value) (file : jstr) (ms : list result)
    : list UsageFinding :=
  flat_map (fun m =>
    if negb (truthy (resolveKey translations (usage_key m)))
    then [{| uf_file := file; uf_key := usage_key m |}] else []) ms.

Definition malformed_of (file : jstr) (ms : list result) : list MalformedKeyFinding :=
  flat_map (fun m =>
    if JS.includes "[" (usage_key m) && JS.includes "]" (usage_key m)
    then [{| mf_file := file; mf_key := usage_key m;
             mf_issue := "Use dot notation instead of bracket notation" |}]
    else []) ms.

Definition hardcoded_of (file : jstr) (ms : list result) : list HardcodedFinding :=
  flat_map (fun m =>
    if shouldFlagAsHardcoded (JS.trim (group 1 (groups m)))
    then [{| hf_file := file; hf_text := JS.trim (group 1 (groups m)) |}] else []) ms.

(** The matches of the two passes over a file; none when it cannot be read. *)
Definition usages_in (env : Env) (file : jstr) : list result :=
  match readFileSync env file with
  | inl code => all_matches I18N_REGEX code
  | inr _ => []
  end.

Definition candidates_in (env : Env) (file : jstr) : list result :=
  match readFileSync env file with
  | inl code => all_matches HARDCODED_TEXT_REGEX code
  | inr _ => []
  end.

(** The keys used in [files], with repetitions. *)
Definition keys_in (env : Env) (files : list jstr) : list jstr :=
  flat_map (fun file => map usage_key (usages_in env file)) files.

(** The class [[^<{]]. *)
Definition not_markup (c : ascii) : bool := negb (JS.is_char "<" c || JS.is_char "{" c).

(** A text that begins with an ASCII letter and holds no [<] and no [{]. *)
Definition candidate_shape (t : jstr) : Prop :=
  (exists c w, t = c :: w /\ JS.is_letter c = true) /\
  JS.includes "<" t = false /\ JS.includes "{" t = false.

(** The four lists of a completed run over [files]. *)
Definition scanned_report (translations : value) (env : Env) (files : list jstr) : Report :=
  {| missingKeys :=
       flat_map (fun file => missing_of translations file (usages_in env file)) files;
     hardcodedStrings :=
       flat_map (fun file => hardcoded_of file (candidates_in env file)) files;
     unusedKeys :=
       List.filter (fun key => negb (bool_decide (key ∈ (list_to_set (keys_in env files) : gset jstr))))
              (extractAllKeys translations "");
     malformedKeys :=
       flat_map (fun file => malformed_of file (usages_in env file)) files;
     summary := None |}.

(** The summary and the result of a completed run. *)
Definition summary_of (translations : value) (env : Env) (files : list jstr)
    (r : Report) (score : Q) : Summary :=
  {| filesScanned := length files;
     totalKeys := length (extractAllKeys translations "");
     usedKeysSize := size (list_to_set (keys_in env files) : gset jstr);
     missingKeysCount := length (missingKeys r);
     hardcodedStringsCount := length (hardcodedStrings r);
     unusedKeysCount := length (unusedKeys r);
     malformedKeysCount := length (malformedKeys r);
     summaryScore := score |}.

Definition completed (config : Config) (translations : value) (env : Env)
    (files : list jstr) : GradeResult :=
  let r := scanned_report translations env files in
  let score := calculateScore r config in
  {| success := Qle_bool (or_default (minimumScore config) (8 # 10)) score;
     score := score;
     report := Findings (set_summary r (summary_of translations env files r score)) |}.

(** ** The classifier *)

(** The exclusions in words: what each pattern of [excludePatterns] accepts. *)
Definition template_start (text : jstr) : bool :=
  match text with
  | c :: _ => JS.is_char "{" c || JS.is_char "}" c || JS.is_char "$" c
  | [] => false
  end.

Definition digits_only (text : jstr) : bool := JS.all_nonempty JS.is_digit text.

Definition short_lowercase (text : jstr) : bool :=
  (1 <=? length text)%nat && (length text <=? 3)%nat && forallb JS.is_lower text.

Definition hex_colour (text : jstr) : bool :=
  match text with
  | c :: w => JS.is_char "#" c && JS.all_nonempty JS.is_hex w
  | [] => false
  end.

Definition constant_like (text : jstr) : bool :=
  JS.all_nonempty (fun c => JS.is_upper c || JS.is_char "_" c) text.

Definition is_exactly (s : string) (text : jstr) : bool := String.eqb (JS.str text) s.

Definition all_whitespace (text : jstr) : bool := forallb JS.is_space text.

Definition excluded (text : jstr) : bool :=
  template_start text || digits_only text || short_lowercase text || hex_colour text
  || constant_like text || is_exactly "className" text || is_exactly "testID" text.

(** ** Paths *)

(** The digits of a decimal numeral. *)
Definition uint_chars (d : Decimal.uint) : jstr := chars (NilEmpty.string_of_uint d).

(** [segs.join('.')] *)
Fixpoint join (segs : list jstr) : jstr :=
  match segs with
  | [] => []
  | [s] => s
  | s :: rest => s ++ "." ++ join rest
  end.

Definition dot_free (s : jstr) : Prop := JS.includes "." s = false.

(** Induction on a value, with the hypothesis for every item of an array and
    every property of an object. *)
Section value_induction.
Variable P : value -> Prop.
Hypothesis P_null : P VNull.
Hypothesis P_bool : forall b, P (VBool b).
Hypothesis P_num : forall q, P (VNum q).
Hypothesis P_str : forall s, P (VStr s).
Hypothesis P_arr : forall items, Forall P items -> P (VArr items).
Hypothesis P_obj : forall entries, Forall (fun kv => P (snd kv)) entries -> P (VObj entries).

Fixpoint value_ind (v : value) : P v :=
  match v with
  | VNull => P_null
  | VBool b => P_bool b
  | VNum q => P_num q
  | VStr s => P_str s
  | VArr items =>
      P_arr items
        ((fix all (l : list value) : Forall P l :=
            match l with
            | [] => List.Forall_nil P
            | x :: l' => @List.Forall_cons _ P x l' (value_ind x) (all l')
            end) items)
  | VObj entries =>
      P_obj entries
        ((fix all (l : list (jstr * value)) : Forall (fun kv => P (snd kv)) l :=
            match l with
            | [] => List.Forall_nil _
            | kv :: l' => @List.Forall_cons _ _ kv l' (value_ind (snd kv)) (all l')
            end) entries)
  end.
End value_induction.

(** A mapping or a sequence; the other values are scalars. *)
Definition is_container (v : value) : bool :=
  match v with
  | VObj _ | VArr _ => true
  | _ => false
  end.

(** No key occurs twice. *)
Fixpoint distinct (keys : list jstr) : bool :=
  match keys with
  | [] => true
  | k :: ks => negb (existsb (fun k' => String.eqb (JS.str k) (JS.str k')) ks) && distinct ks
  end.

(** A key that is not empty and holds no dot. *)
Definition key_ok (k : jstr) : bool :=
  match k with
  | [] => false
  | _ => negb (JS.includes "." k)
  end.

(** The keys of every mapping are distinct (as the properties of an object
    are), not empty and without a dot. *)
Fixpoint well_keyed (v : value) : bool :=
  match v with
  | VArr items => forallb well_keyed items
  | VObj entries =>
      distinct (map fst entries)
      && forallb (fun kv => key_ok (fst kv) && well_keyed (snd kv)) entries
  | _ => true
  end.

(** The keys one entry of an object or of an array contributes. *)
Definition entry_keys (prefix key : jstr) (v : value) : list jstr :=
  match v with
  | VObj _ => extractAllKeys v (fullKey prefix key)
  | VArr items =>
      flat_mapi (fun index item =>
        match item with
        | VObj _ | VArr _ => extractAllKeys item (indexKey (fullKey prefix key) index)
        | _ => [indexKey (fullKey prefix key) index]
        end) 0 items
  | _ => [fullKey prefix key]
  end.

(** The node a path addresses: a segment is a key of a mapping or the
    canonical decimal index of an item of a sequence. *)
Fixpoint address (segs : list jstr) (v : value) : option value :=
  match segs with
  | [] => Some v
  | seg :: rest =>
      match v with
      | VObj entries =>
          match own_property entries seg with
          | Some v' => address rest v'
          | None => None
          end
      | VArr items =>
          match JS.canonical_index seg with
          | Some i =>
              match JS.nth_Z items i with
              | Some v' => address rest v'
              | None => None
              end
          | None => None
          end
      | _ => None
      end
  end.

(** [K] is a path of non-empty length below [prefix] that leads from [v]
    to a scalar. *)
Definition leads (v : value) (prefix K : jstr) : Prop :=
  exists segs leaf,
    segs <> [] /\ Forall dot_free segs /\ K = fullKey prefix (join segs) /\
    address segs v = Some leaf /\ is_container leaf = false.

(** Every extracted key of [v] is such a path. *)
Definition keys_lead (v : value) : Prop :=
  is_container v = true -> well_keyed v = true ->
  forall prefix K, In K (extractAllKeys v prefix) -> leads v prefix K.

(** Conversely, every path to a scalar is extracted. *)
Definition addressed (v : value) : Prop :=
  is_container v = true -> well_keyed v = true ->
  forall prefix segs leaf,
    address segs v = Some leaf -> is_container leaf = false ->
    In (fullKey prefix (join segs)) (extractAllKeys v prefix).

(** ** Scores *)

Section ScoreVocabulary.
Local Open Scope Q_scope.

(** The weight a configuration gives a kind of finding, as [calculateScore]
    reads it. *)
Definition weights_of (config : Config) : PerKind :=
  {| k_missingKeys := or_default (missingKeyWeight config) (4 # 10);
     k_hardcodedStrings := or_default (hardcodedWeight config) (3 # 10);
     k_malformedKeys := or_default (malformedWeight config) (2 # 10);
     k_unusedKeys := or_default (unusedKeyWeight config) (1 # 10) |}.

(** The total penalty of a report under the weights [w]. *)
Definition penalty_sum (w : PerKind) (report : Report) : Q :=
  count (missingKeys report) * k_missingKeys w
  + count (hardcodedStrings report) * k_hardcodedStrings w
  + count (malformedKeys report) * k_malformedKeys w
  + count (unusedKeys report) * k_unusedKeys w.

(** The weights in the words of the specification: the configured value
    whenever one is supplied, the default only when it is absent. *)
Definition spec_weight (configured : option Q) (default : Q) : Q :=
  match configured with
  | Some q => q
  | None => default
  end.

Definition spec_weights (config : Config) : PerKind :=
  {| k_missingKeys := spec_weight (missingKeyWeight config) (4 # 10);
     k_hardcodedStrings := spec_weight (hardcodedWeight config) (3 # 10);
     k_malformedKeys := spec_weight (malformedWeight config) (2 # 10);
     k_unusedKeys := spec_weight (unusedKeyWeight config) (1 # 10) |}.

(** The score in the words of the specification. *)
Definition spec_score (report : Report) (config : Config) : Q :=
  Qmax 0 (1 - penalty_sum (spec_weights config) report / 10).

(** A field that is absent or a number other than 0. *)
Definition not_zero (configured : option Q) : Prop :=
  forall q, configured = Some q -> ~ q == 0.

End ScoreVocabulary.

(** ** Lines and orders *)

(** The newline characters of a text. *)
Definition count_newlines (l : jstr) : nat := length (List.filter (JS.is_char "010") l).

(** The host whose [glob.sync] finds [files], in this order, for every
    pattern. *)
Definition with_files (env : Env) (files : list jstr) : Env :=
  {| existsSync := existsSync env; readFileSync := readFileSync env;
     JSON_parse := JSON_parse env; glob_sync := fun _ _ => files;
     glob_sync_throws := fun _ _ => None |}.

(** Two outcomes that differ at most in the order of their findings. *)
Definition same_report (p p' : Report) : Prop :=
  summary p = summary p' /\
  Permutation (missingKeys p) (missingKeys p') /\
  Permutation (hardcodedStrings p) (hardcodedStrings p') /\
  Permutation (unusedKeys p) (unusedKeys p') /\
  Permutation (malformedKeys p) (malformedKeys p').

Definition same_up_to_order (o o' : outcome) : Prop :=
  match o, o' with
  | Thrown m, Thrown m' => m = m'
  | Returned r, Returned r' =>
      success r = success r' /\ score r = score r' /\
      match report r, report r' with
      | Failure e, Failure e' => e = e'
      | Findings p, Findings p' => same_report p p'
      | _, _ => False
      end
  | _, _ => False
  end.

(** ** Hosts, configurations and documents of the examples *)

(** A configuration without any of the numeric fields. *)
Definition default_config : Config :=
  {| translationFile := "./store/en.json";
     sourcePattern := "./**/*.{js,jsx,ts,tsx}";
     ignorePattern := "node_modules/**";
     minimumScore := None;
     missingKeyWeight := None; hardcodedWeight := None;
     malformedWeight := None; unusedKeyWeight := None |}.

(** The text of the source file [path]. *)
Fixpoint source_of (sources : list (jstr * jstr)) (path : jstr) : option jstr :=
  match sources with
  | [] => None
  | (p, code) :: rest =>
      if String.eqb (JS.str p) (JS.str path) then Some code else source_of rest path
  end.

(** A host whose translation file parses to [translations] and whose source
    files are [sources]. *)
Definition host (translations : value) (sources : list (jstr * jstr)) : Env :=
  {| existsSync := fun _ => true;
     readFileSync := fun path =>
       match source_of sources path with
       | Some code => inl code
       | None => inl (chars "(the text of the translation file)")
       end;
     JSON_parse := fun _ => inl translations;
     glob_sync := fun _ _ => map fst sources;
     glob_sync_throws := fun _ _ => None |}.

(** A host without a translation file. *)
Definition host_without_translations (sources : list (jstr * jstr)) : Env :=
  {| existsSync := fun _ => false;
     readFileSync := fun path =>
       match source_of sources path with
       | Some code => inl code
       | None => inr (chars "ENOENT: no such file or directory")
       end;
     JSON_parse := fun _ => inr (chars "Unexpected end of JSON input");
     glob_sync := fun _ _ => map fst sources;
     glob_sync_throws := fun _ _ => None |}.

(** The result and the findings of an outcome, when it has them. *)
Definition returned (o : outcome) : option GradeResult :=
  match o with
  | Returned r => Some r
  | Thrown _ => None
  end.

Definition findings (o : outcome) : option Report :=
  match o with
  | Returned {| report := Findings p |} => Some p
  | _ => None
  end.

(** [{ a: '' }]: the key [a] is declared, its translation is the empty string. *)
Definition empty_leaf_document : value := VObj [(chars "a", VStr [])].

(** One source file, with one usage of the key [a]. *)
Definition one_usage_of_a : list (jstr * jstr) := [(chars "App.js", chars "i18n.t('a')")].

(** [{ a: { b: 'x' } }] and [{ 'a.b': 'x' }] *)
Definition nested_document : value := VObj [(chars "a", VObj [(chars "b", VStr "x")])].

Definition dotted_key_document : value := VObj [(chars "a.b", VStr "x")].

(** [{ screen: { title: 'T', buttons: [{ label: 'Save' }, 'Cancel'] } }] *)
Definition screen_document : value :=
  VObj [(chars "screen",
         VObj [(chars "title", VStr "T");
               (chars "buttons", VArr [VObj [(chars "label", VStr "Save")]; VStr "Cancel"])])].

(** A report with one missing key and nothing else. *)
Definition one_missing_key : Report :=
  push_missingKey emptyReport {| uf_file := "App.js"; uf_key := "a" |}.

(** [{ missingKeyWeight: 0 }] *)
Definition zero_missing_weight : Config :=
  {| translationFile := "./store/en.json";
     sourcePattern := "./**/*.{js,jsx,ts,tsx}";
     ignorePattern := "node_modules/**";
     minimumScore := None;
     missingKeyWeight := Some 0%Q; hardcodedWeight := None;
     malformedWeight := None; unusedKeyWeight := None |}.

(** [{ minimumScore: 0, missingKeyWeight: 5 }] *)
Definition zero_minimum_score : Config :=
  {| translationFile := "./store/en.json";
     sourcePattern := "./**/*.{js,jsx,ts,tsx}";
     ignorePattern := "node_modules/**";
     minimumScore := Some 0%Q;
     missingKeyWeight := Some 5%Q; hardcodedWeight := None;
     malformedWeight := None; unusedKeyWeight := None |}.



(** The classifier in the words of the claim: the length is taken after
    trimming. *)
Definition claimed_flag (text : jstr) : bool :=
  (3 <? length (JS.trim text))%nat && negb (all_whitespace text) && negb (excluded text).

(** Two hosts that answer alike about the translation file. *)
Definition same_translation_file (config : Config) (env env' : Env) : Prop :=
  existsSync env' (translationFile config) = existsSync env (translationFile config) /\
  readFileSync env' (translationFile config) = readFileSync env (translationFile config) /\
  forall data, JSON_parse env' data = JSON_parse env data.

(** ** The score in the arithmetic of the machine *)

Module DoubleScore.
Import Double.

(** A weight that is absent, falsy, or finite and not negative. *)
Definition weight_okb (configured : option number) : bool :=
  match configured with
  | None | Some NaN => true
  | Some (Finite q) => Qle_bool 0 q
  | Some (Infinity _) => false
  end.

(** No configured weight is negative or infinite. *)
Definition weights_okb (config : Config) : bool :=
  weight_okb (missingKeyWeight config) && weight_okb (hardcodedWeight config)
  && weight_okb (malformedWeight config) && weight_okb (unusedKeyWeight config).

Definition weight_finite (configured : option number) : bool :=
  match configured with
  | Some (Infinity _) => false
  | _ => true
  end.

(** No configured weight is an infinity. *)
Definition weights_finite (config : Config) : bool :=
  weight_finite (missingKeyWeight config) && weight_finite (hardcodedWeight config)
  && weight_finite (malformedWeight config) && weight_finite (unusedKeyWeight config).

(** [weights] and [totalPenalty] of [calculateScore]. *)
Definition weights_of (config : Config) : PerKind :=
  {| k_missingKeys :=
       or_default (missingKeyWeight config) (literal (4 # 10));
     k_hardcodedStrings :=
       or_default (hardcodedWeight config) (literal (3 # 10));
     k_malformedKeys :=
       or_default (malformedWeight config) (literal (2 # 10));
     k_unusedKeys :=
       or_default (unusedKeyWeight config) (literal (1 # 10)) |}.

Definition totalPenalty (report : Report) (config : Config) : number :=
  let w := weights_of config in
  add
    (add
       (add
          (add (Finite 0)
             (mul (count (missingKeys report)) (k_missingKeys w)))
          (mul (count (hardcodedStrings report)) (k_hardcodedStrings w)))
       (mul (count (malformedKeys report)) (k_malformedKeys w)))
    (mul (count (unusedKeys report)) (k_unusedKeys w)).

(** No list of the second report is shorter than in the first. *)
Definition no_fewer (r r' : Report) : Prop :=
  (length (missingKeys r) <= length (missingKeys r'))%nat /\
  (length (hardcodedStrings r) <= length (hardcodedStrings r'))%nat /\
  (length (malformedKeys r) <= length (malformedKeys r'))%nat /\
  (length (unusedKeys r) <= length (unusedKeys r'))%nat.

(** The greatest number below 10. *)
Definition below_ten : Q := (10 - 2 ^ (-49))%Q.

End DoubleScore.

(** The binary64 numbers of the kernel, whose operations are those of the
    machine, read as numbers of [Double]; and the integers from 0 among
    them. *)
Definition binary64 (f : PrimFloat.float) : Double.number :=
  match FloatOps.Prim2SF f with
  | SpecFloat.S754_zero _ => Double.Finite 0
  | SpecFloat.S754_infinity s => Double.Infinity s
  | SpecFloat.S754_nan => Double.NaN
  | SpecFloat.S754_finite s m e =>
      Double.Finite (Qred ((if s then -1 else 1) * inject_Z (Z.pos m) * 2 ^ e))
  end.

Definition machine (n : Z) : PrimFloat.float := PrimFloat.of_uint63 (Uint63.of_Z n).

(** [1 - (m * 0.4 + h * 0.3 + b * 0.2 + u * 0.1) / 10] on the machine and in
    [Double], the decimals as the quotients that round to them. *)
Definition machine_score (m h b u : Z) : PrimFloat.float :=
  let tenth k := PrimFloat.div (machine k) (machine 10) in
  PrimFloat.sub (machine 1)
    (PrimFloat.div
       (PrimFloat.add
          (PrimFloat.add
             (PrimFloat.add
                (PrimFloat.add (machine 0) (PrimFloat.mul (machine m) (tenth 4%Z)))
                (PrimFloat.mul (machine h) (tenth 3%Z)))
             (PrimFloat.mul (machine b) (tenth 2%Z)))
          (PrimFloat.mul (machine u) (tenth 1%Z)))
       (machine 10)).

Definition double_score (m h b u : Z) : Double.number :=
  let tenth k := Double.literal (k # 10) in
  Double.sub (Double.Finite 1)
    (Double.div
       (Double.add
          (Double.add
             (Double.add
                (Double.add (Double.Finite 0)
                   (Double.mul (Double.Finite (inject_Z m)) (tenth 4%Z)))
                (Double.mul (Double.Finite (inject_Z h)) (tenth 3%Z)))
             (Double.mul (Double.Finite (inject_Z b)) (tenth 2%Z)))
          (Double.mul (Double.Finite (inject_Z u)) (tenth 1%Z)))
       (Double.Finite 10)).

(** The numeric properties of a configuration as the machine reads them: a
    decimal is the number nearest to it. *)
Definition double_config (config : Config) : Double.Config :=
  {| Double.minimumScore := option_map Double.literal (minimumScore config);
     Double.missingKeyWeight := option_map Double.literal (missingKeyWeight config);
     Double.hardcodedWeight := option_map Double.literal (hardcodedWeight config);
     Double.malformedWeight := option_map Double.literal (malformedWeight config);
     Double.unusedKeyWeight := option_map Double.literal (unusedKeyWeight config) |}.

(** The numeric properties of [{}], of [{ missingKeyWeight: -1 }] and of
    [{ missingKeyWeight: Infinity }], the last as [JSON.parse] reads
    [1e999]. *)
Definition no_numbers : Double.Config :=
  {| Double.minimumScore := None; Double.missingKeyWeight := None;
     Double.hardcodedWeight := None; Double.malformedWeight := None;
     Double.unusedKeyWeight := None |}.

Definition negative_missing_weight : Double.Config :=
  {| Double.minimumScore := None;
     Double.missingKeyWeight := Some (Double.Finite (-1));
     Double.hardcodedWeight := None; Double.malformedWeight := None;
     Double.unusedKeyWeight := None |}.

Definition infinite_missing_weight : Double.Config :=
  {| Double.minimumScore := None;
     Double.missingKeyWeight := Some (Double.Infinity false);
     Double.hardcodedWeight := None; Double.malformedWeight := None;
     Double.unusedKeyWeight := None |}.

(** A report with the given numbers of findings. *)
Definition report_with (missing hardcoded malformed unused : nat) : Report :=
  {| missingKeys := repeat {| uf_file := "App.js"; uf_key := "a" |} missing;
     hardcodedStrings := repeat {| hf_file := "App.js"; hf_text := "Welcome" |} hardcoded;
     unusedKeys := repeat (chars "b") unused;
     malformedKeys :=
       repeat {| mf_file := "App.js"; mf_key := "a[0]";
                 mf_issue := "Use dot notation instead of bracket notation" |} malformed;
     summary := None |}.

(** Two source files. *)
Definition two_sources : list (jstr * jstr) :=
  [(chars "A.js", chars "<Text>{i18n.t('a')}</Text><Text>Welcome back</Text>");
   (chars "B.js", chars "i18n.t('list[0]')")].

(** A text is reported when some run lists it in [hardcodedStrings]. *)
Definition reported (t : jstr) : Prop :=
  exists config env res rep f,
    gradeLanguageImplementation config env = Returned res /\
    report res = Findings rep /\ In f (hardcodedStrings rep) /\ hf_text f = t.

(** The first character of [t] that is not white space is no letter. *)
Definition starts_without_letter (t : jstr) : Prop :=
  forall c w, JS.trimStart t = c :: w -> JS.is_letter c = false.

(** ** Further vocabulary *)


(** The key is used somewhere in [files]. *)
Definition used_in (env : Env) (files : list jstr) (key : jstr) : Prop :=
  exists file m, In file files /\ In m (usages_in env file) /\ usage_key m = key.



(** [{ a: 'A', b: { c: 'C' } }] *)
Definition small_document : value :=
  VObj [(chars "a", VStr "A"); (chars "b", VObj [(chars "c", VStr "C")])].

(** The class of the characters that are no quote. *)
Definition not_quote (c : ascii) : bool := negb (is_quote c).

(** [undefined] has no property: resolving below it gives [undefined]. *)
Definition resolve_below (current : option value) (key : jstr) : option value :=
  match current with
  | Some v => resolveKey v key
  | None => None
  end.

(** No key of a mapping is empty. *)
Fixpoint keys_nonempty (v : value) : bool :=
  match v with
  | VArr items => forallb keys_nonempty items
  | VObj entries =>
      forallb (fun kv => match fst kv with [] => false | _ => keys_nonempty (snd kv) end)
              entries
  | _ => true
  end.

(** [`${prefix}.${key}`] *)
Definition below (prefix key : jstr) : jstr := prefix ++ "." ++ key.

(** Extraction below a prefix is extraction at the top, with the prefix put
    before every key. *)
Definition prefix_ok (v : value) : Prop :=
  keys_nonempty v = true ->
  forall prefix, prefix <> [] ->
  extractAllKeys v prefix = map (below prefix) (extractAllKeys v "").

(** The key [K] is the segment [k], or begins with [k] and a dot. *)
Definition headed (k K : jstr) : Prop := K = k \/ exists r, K = below k r.

(** Below [prefix], the key [K] begins with the segment [k]. *)
Definition tagged (prefix k K : jstr) : Prop :=
  exists r, K = fullKey prefix r /\ headed k r.

(** The extracted keys of [v] are pairwise distinct. *)
Definition distinct_keys (v : value) : Prop :=
  well_keyed v = true -> forall prefix, List.NoDup (extractAllKeys v prefix).

(** The texts the FileScanner flags in a file, none when it cannot be read. *)
Definition scanner_texts (env : Env) (file : jstr) : list jstr :=
  match readFileSync env file with
  | inl content =>
      map FileScanner.text (FileScanner.hardcodedStrings (FileScanner.analyzeI18nUsage content))
  | inr _ => []
  end.

(** The keys the FileScanner finds in a file. *)
Definition scanner_keys (env : Env) (file : jstr) : list jstr :=
  match readFileSync env file with
  | inl content =>
      map FileScanner.key (FileScanner.usedKeys (FileScanner.analyzeI18nUsage content))
  | inr _ => []
  end.

(** A text of two lines. *)
Definition two_lines : jstr :=
  chars "const title = i18n.t('missing.key');" ++ ["010"%char] ++
  chars "<Text>Hello World</Text>".

(** Every match ends before the next one begins. *)
Definition apart (m m' : result) : Prop := (lastIndex m <= index m')%nat.

(** A pattern without [^] and [$]. *)
Fixpoint no_anchor (r : regex) : bool :=
  match r with
  | Bol | Eol => false
  | Cat r1 r2 | Alt r1 r2 => no_anchor r1 && no_anchor r2
  | Star _ r1 | Group _ r1 => no_anchor r1
  | Eps | Chr _ => true
  end.

(** The text holds a word of the pattern. *)
Definition holds (r : regex) (l : jstr) : Prop :=
  exists a w b, l = a ++ w ++ b /\ lang r w.

(** Any character but a line terminator: the dot of a pattern. *)
Definition not_line_terminator (c : ascii) : bool := negb (JS.is_line_terminator c).

(** The class [[^}]], the class [[^)]] and the class of [[^=\s;]]. *)
Definition not_rbrace (c : ascii) : bool := negb (JS.is_char "}" c).
Definition not_rparen (c : ascii) : bool := negb (JS.is_char ")" c).
Definition name_char (c : ascii) : bool :=
  negb (JS.is_char "=" c || JS.is_space c || JS.is_char ";" c).

(** The extensions of source files. *)
Definition source_extensions : list jstr :=
  [chars ".js"; chars ".jsx"; chars ".ts"; chars ".tsx"].

(** A batch size that is absent or not negative. *)
Definition batch_size_ok (options : FileScanner.Options) : bool :=
  match FileScanner.batchSize options with
  | Some n => (0 <=? n)%Z
  | None => true
  end.

(** The path of what [getFileMetadata] resolves to. *)
Definition path_of (d : FileScanner.FileData) : jstr :=
  match d with
  | FileScanner.FileError path _ => path
  | FileScanner.File info => FileScanner.file_path info
  end.

(** What [getFileMetadata] resolves to. *)
Definition metadata (config : FileScanner.ScannerConfig) (host : FileScanner.Host)
    (options : FileScanner.Options) (filePath : jstr) : FileScanner.FileData :=
  match FileScanner.getFileMetadata config host filePath options with
  | inl d => d
  | inr message => FileScanner.FileError filePath message
  end.

(** The text [analyzeSourceFile] analyses: the content it is given, or the
    text of the file when that is absent or empty. *)
Definition analysed_text (host : FileScanner.Host) (filePath : jstr)
    (content : option jstr) (text : jstr) : Prop :=
  match content with
  | Some (c :: l) => text = c :: l
  | Some [] | None => FileScanner.readFile host filePath = inl text
  end.

(** A scanner made with [{ maxFileSize: 0 }]. *)
Definition zero_size_limit : FileScanner.ConstructorConfig :=
  {| FileScanner.c_sourcePatterns := None; FileScanner.c_componentPatterns := None;
     FileScanner.c_translationPatterns := None; FileScanner.c_testPatterns := None;
     FileScanner.c_maxFileSize := Some 0%N; FileScanner.c_timeout := None |}.

(** A host with the one file [App.js], of 11 bytes. *)
Definition small_host : FileScanner.Host :=
  {| FileScanner.stat := fun p =>
       if String.eqb (JS.str p) "App.js"
       then inl {| FileScanner.size := 11; FileScanner.mtime := 0; FileScanner.birthtime := 0 |}
       else inr (chars "ENOENT: no such file or directory");
     FileScanner.readFile := fun p =>
       if String.eqb (JS.str p) "App.js" then inl (chars "i18n.t('a')")
       else inr (chars "ENOENT: no such file or directory");
     FileScanner.glob := fun _ _ => inl [chars "App.js"];
     FileScanner.process_cwd := "/app";
     FileScanner.resolve := fun p => "/app/" ++ p;
     FileScanner.relative := fun _ p => p;
     FileScanner.dirname := fun _ => "." |}.

(** The defaults of the handler: [config] for the body [{}]. *)
Definition default_object : LanguageGraderFunction.object :=
  [ (chars "translationFile", VStr "./store/en.json");
    (chars "sourcePattern", VStr "./**/*.{js,jsx,ts,tsx}");
    (chars "ignorePattern", VStr "node_modules/**");
    (chars "strictMode", VBool false) ].

(** [{ translationFile: '', minimumScore: 0 }] *)
Definition falsy_body : value :=
  VObj [(chars "translationFile", VStr []); (chars "minimumScore", VNum 0)].




(** [lines.join('\n')] *)
Fixpoint join_lines (lines : list jstr) : jstr :=
  match lines with
  | [] => []
  | [line] => line
  | line :: rest => line ++ "010"%char :: join_lines rest
  end.

(** A line of the output of a failed test run, and one of the type check. *)
Definition failure_line (line : jstr) : bool :=
  JS.includes_str "FAIL" line || JS.includes_str "Test suite failed" line.

Definition ts_error_line (line : jstr) : Prop :=
  exists a digits b,
    line = a ++ "error TS" ++ digits ++ ":" ++ b /\
    digits <> [] /\ forallb JS.is_digit digits = true.

(** * Properties *)

(** ** The matcher finds exactly the matches of [sem] *)

Module RegexFacts.
Import Regex.

Lemma sem_consumes r st st' :
  sem r st st' ->
  exists w, rest st = w ++ rest st' /\ pos st' = (pos st + length w)%nat.
Proof.
  induction 1; simpl.
  - exists []. simpl. split; [reflexivity | lia].
  - exists [c]. simpl. split; [assumption | lia].
  - destruct IHsem1 as (w1 & E1 & P1), IHsem2 as (w2 & E2 & P2).
    exists (w1 ++ w2). rewrite E1, E2, <- app_assoc, length_app.
    split; [reflexivity | lia].
  - assumption.
  - assumption.
  - exists []. simpl. split; [reflexivity | lia].
  - destruct IHsem1 as (w1 & E1 & P1), IHsem2 as (w2 & E2 & P2).
    exists (w1 ++ w2). rewrite E1, E2, <- app_assoc, length_app.
    split; [reflexivity | lia].
  - assumption.
  - exists []. simpl. split; [reflexivity | lia].
  - exists []. simpl. split; [reflexivity | lia].
Qed.

Lemma sem_length r st st' :
  sem r st st' ->
  (pos st <= pos st')%nat /\
  (length (rest st') + (pos st' - pos st) = length (rest st))%nat.
Proof.
  intros H. destruct (sem_consumes _ _ _ H) as (w & E & P).
  rewrite E, P, length_app. lia.
Qed.

Section Adequacy.
Context {R : Type}.
Implicit Types (k : state -> option R) (m : (state -> option R) -> state -> option R).

Lemma star_loop_sound r m g k :
  sound_for r m ->
  forall fuel st x, star_loop m g k fuel st = Some x ->
  exists st', sem (Star g r) st st' /\ k st' = Some x.
Proof.
  intros Hm. induction fuel as [|f IH]; intros st x; simpl.
  - intros Hk. exists st. split; [constructor | assumption].
  - set (again := m _).
    assert (Hagain : forall y, again st = Some y ->
              exists st', sem (Star g r) st st' /\ k st' = Some y).
    { intros y Hy. apply Hm in Hy as (st1 & Hs & Hk).
      destruct (pos st <? pos st1)%nat eqn:Hlt; [|discriminate].
      apply Nat.ltb_lt in Hlt. apply IH in Hk as (st2 & Hs2 & Hk2).
      exists st2. split; [eapply sem_star_more; eassumption | assumption]. }
    assert (Hexit : forall y, k st = Some y ->
              exists st', sem (Star g r) st st' /\ k st' = Some y).
    { intros y Hy. exists st. split; [constructor | assumption]. }
    destruct g.
    + destruct (again st) eqn:E; intros Hx.
      * inversion Hx; subst. auto.
      * auto.
    + destruct (k st) eqn:E; intros Hx.
      * inversion Hx; subst. auto.
      * auto.
Qed.

Lemma rmatch_sound r : sound_for r (@rmatch R r).
Proof.
  induction r as [|p|r1 IH1 r2 IH2|r1 IH1 r2 IH2|g r IH|n r IH| |];
    intros k st x; simpl.
  - intros H. exists st. split; [constructor | assumption].
  - destruct (rest st) as [|c l] eqn:E; [discriminate|].
    destruct (p c) eqn:Hp; [|discriminate].
    intros H. exists (advance st l). split; [econstructor; eassumption | assumption].
  - intros H. apply IH1 in H as (st1 & Hs1 & H). apply IH2 in H as (st2 & Hs2 & H).
    exists st2. split; [econstructor; eassumption | assumption].
  - destruct (rmatch r1 k st) eqn:E; intros H.
    + inversion H; subst. apply IH1 in E as (st' & Hs & Hk).
      exists st'. split; [apply sem_alt_l; assumption | assumption].
    + apply IH2 in H as (st' & Hs & Hk).
      exists st'. split; [apply sem_alt_r; assumption | assumption].
  - apply star_loop_sound. exact IH.
  - intros H. apply IH in H as (st' & Hs & Hk).
    exists (capture n st st'). split; [constructor; assumption | assumption].
  - destruct (pos st =? 0)%nat eqn:E; [|discriminate].
    apply Nat.eqb_eq in E. intros H. exists st. split; [constructor; assumption | assumption].
  - destruct (rest st) eqn:E; [|discriminate].
    intros H. exists st. split; [constructor; assumption | assumption].
Qed.

Lemma star_loop_complete r m g k :
  complete_for r m ->
  forall fuel st, (length (rest st) <= fuel)%nat ->
  star_loop m g k fuel st = None ->
  forall st', sem (Star g r) st st' -> k st' = None.
Proof.
  intros Hm. induction fuel as [|f IH]; intros st Hlen; simpl.
  - intros Hk st' Hs. inversion Hs; subst; [assumption|].
    match goal with H : sem r st _ |- _ => apply sem_length in H end. lia.
  - set (again := m _). intros Hloop.
    assert (again st = None /\ k st = None) as [Ha Hk].
    { destruct g; destruct (again st), (k st); try discriminate; auto. }
    intros st' Hs. inversion Hs; subst; [assumption|].
    match goal with
    | Hs1 : sem r st ?st1, Hlt : (pos st < pos ?st1)%nat, Hs2 : sem (Star g r) ?st1 st' |- _ =>
        pose proof (Hm _ _ Ha _ Hs1) as Hk1; simpl in Hk1;
        apply Nat.ltb_lt in Hlt as Hlt'; rewrite Hlt' in Hk1;
        apply sem_length in Hs1;
        apply (IH st1); [lia | assumption | assumption]
    end.
Qed.

Lemma rmatch_complete r : complete_for r (@rmatch R r).
Proof.
  induction r as [|p|r1 IH1 r2 IH2|r1 IH1 r2 IH2|g r IH|n r IH| |];
    intros k st; simpl; intros H st' Hs.
  - inversion Hs; subst. assumption.
  - inversion Hs; subst.
    match goal with E : rest st = _, Hp : p _ = true |- _ => rewrite E, Hp in H end.
    assumption.
  - inversion Hs; subst.
    eapply IH2; [|eassumption]. eapply IH1; eassumption.
  - destruct (rmatch r1 k st) eqn:E; [discriminate|].
    inversion Hs; subst; [eapply IH1 | eapply IH2]; eassumption.
  - eapply star_loop_complete; [exact IH| |eassumption|eassumption]. lia.
  - inversion Hs; subst.
    match goal with Hs1 : sem r st _ |- _ => exact (IH _ _ H _ Hs1) end.
  - inversion Hs; subst.
    match goal with E : pos _ = 0%nat |- _ => rewrite E in H end. assumption.
  - inversion Hs; subst.
    match goal with E : rest _ = [] |- _ => rewrite E in H end. assumption.
Qed.

End Adequacy.

Lemma sem_lang r st st' :
  sem r st st' ->
  exists w, lang r w /\ rest st = w ++ rest st' /\ pos st' = (pos st + length w)%nat.
Proof.
  induction 1; simpl.
  - exists []. simpl. repeat split; [constructor | lia].
  - exists [c]. simpl. repeat split; [constructor; assumption | assumption | lia].
  - destruct IHsem1 as (w1 & L1 & E1 & P1), IHsem2 as (w2 & L2 & E2 & P2).
    exists (w1 ++ w2). rewrite E1, E2, <- app_assoc, length_app.
    repeat split; [constructor; assumption | lia].
  - destruct IHsem as (w & L & E & P). exists w. repeat split; try assumption.
    apply lang_alt_l; assumption.
  - destruct IHsem as (w & L & E & P). exists w. repeat split; try assumption.
    apply lang_alt_r; assumption.
  - exists []. simpl. repeat split; [constructor | lia].
  - destruct IHsem1 as (w1 & L1 & E1 & P1), IHsem2 as (w2 & L2 & E2 & P2).
    exists (w1 ++ w2). rewrite E1, E2, <- app_assoc, length_app.
    repeat split; [constructor; assumption | lia].
  - destruct IHsem as (w & L & E & P). exists w. repeat split; try assumption.
    constructor; assumption.
  - exists []. simpl. repeat split; [constructor | lia].
  - exists []. simpl. repeat split; [constructor | lia].
Qed.

(** The word between two states of a match. *)
Lemma consumed_word st st' w :
  rest st = w ++ rest st' -> pos st' = (pos st + length w)%nat ->
  firstn (pos st' - pos st) (rest st) = w.
Proof.
  intros E P. rewrite E, P.
  replace (pos st + length w - pos st)%nat with (length w + 0)%nat by lia.
  rewrite firstn_app_2. simpl. apply app_nil_r.
Qed.

Lemma sem_caps r st st' : sem r st st' -> no_group r = true -> caps st' = caps st.
Proof.
  induction 1; simpl; intros Hn; try reflexivity;
    try (apply andb_prop in Hn as [Hn1 Hn2]); try discriminate; auto.
  - rewrite IHsem2, IHsem1; auto.
  - rewrite IHsem2, IHsem1; auto.
Qed.

Lemma lang_Lit l w : lang (Lit l) w -> w = l.
Proof.
  revert w. induction l as [|a l IH]; simpl; intros w H.
  - inversion H. reflexivity.
  - inversion H as [| |? ? w1 w2 H1 H2| | | | | | |]; subst.
    inversion H1; subst. apply IH in H2. subst. simpl. f_equal.
    match goal with E : JS.is_char a _ = true |- _ => apply Ascii.eqb_eq in E end.
    congruence.
Qed.

Lemma lang_star_class g p w : lang (Star g (Chr p)) w -> forallb p w = true.
Proof.
  intros H. remember (Star g (Chr p)) as r eqn:Er.
  induction H; try discriminate; inversion Er; subst.
  - reflexivity.
  - match goal with H1 : lang (Chr p) _ |- _ => inversion H1; subst end.
    simpl. rewrite IHlang2 by reflexivity.
    match goal with E : p _ = true |- _ => rewrite E end. reflexivity.
Qed.

Lemma lang_plus_class g p w :
  lang (Plus g (Chr p)) w -> exists c w', w = c :: w' /\ p c = true /\ forallb p w' = true.
Proof.
  intros H. inversion H as [| |? ? w1 w2 H1 H2| | | | | | |]; subst.
  inversion H1; subst. apply lang_star_class in H2. simpl. eauto.
Qed.

Lemma sem_chr_intro p c n l cs :
  p c = true -> sem (Chr p) (at_ n (c :: l) cs) (at_ (S n) l cs).
Proof. intros H. exact (sem_chr p (at_ n (c :: l) cs) c l eq_refl H). Qed.

Lemma sem_Lit_intro w n l cs :
  sem (Lit w) (at_ n (w ++ l) cs) (at_ (n + length w) l cs).
Proof.
  revert n. induction w as [|a w IH]; simpl; intros n.
  - rewrite Nat.add_0_r. constructor.
  - econstructor.
    + apply sem_chr_intro. apply Ascii.eqb_refl.
    + replace (n + S (length w))%nat with (S n + length w)%nat by lia. apply IH.
Qed.

Lemma sem_star_class_intro g p w n l cs :
  forallb p w = true ->
  sem (Star g (Chr p)) (at_ n (w ++ l) cs) (at_ (n + length w) l cs).
Proof.
  revert n. induction w as [|a w IH]; simpl; intros n H.
  - rewrite Nat.add_0_r. constructor.
  - apply andb_prop in H as [Ha Hw].
    eapply sem_star_more.
    + apply sem_chr_intro. exact Ha.
    + simpl. lia.
    + replace (n + S (length w))%nat with (S n + length w)%nat by lia. apply IH, Hw.
Qed.

Lemma sem_plus_class_intro g p c w n l cs :
  p c = true -> forallb p w = true ->
  sem (Plus g (Chr p)) (at_ n (c :: w ++ l) cs) (at_ (n + S (length w)) l cs).
Proof.
  intros Hc Hw. econstructor.
  - apply sem_chr_intro. exact Hc.
  - replace (n + S (length w))%nat with (S n + length w)%nat by lia.
    apply sem_star_class_intro, Hw.
Qed.

(** [match_at], [search] and [test] against [sem]. *)
Lemma match_at_sound r p l m :
  match_at r p l = Some m ->
  exists st', sem r (at_ p l []) st' /\
              m = {| index := p; lastIndex := pos st'; groups := caps st' |}.
Proof.
  unfold match_at. intros H. apply rmatch_sound in H as (st' & Hs & E).
  exists st'. split; [exact Hs | congruence].
Qed.

Lemma match_at_complete r p l :
  match_at r p l = None -> forall st', ~ sem r (at_ p l []) st'.
Proof.
  unfold match_at. intros H st' Hs.
  pose proof (rmatch_complete r _ _ H _ Hs) as E. discriminate.
Qed.

Lemma search_sound r l : forall p m,
  search r p l = Some m ->
  exists i st', (i <= length l)%nat /\ sem r (at_ (p + i) (skipn i l) []) st' /\
                m = {| index := p + i; lastIndex := pos st'; groups := caps st' |}.
Proof.
  induction l as [|c l IH]; intros p m; simpl.
  - destruct (match_at r p []) eqn:E; [|discriminate]. intros H. inversion H; subst.
    apply match_at_sound in E as (st' & Hs & ->).
    exists 0%nat, st'. rewrite Nat.add_0_r. simpl. auto.
  - destruct (match_at r p (c :: l)) eqn:E; intros H.
    + inversion H; subst. apply match_at_sound in E as (st' & Hs & ->).
      exists 0%nat, st'. rewrite Nat.add_0_r. simpl. split; [lia | auto].
    + apply IH in H as (i & st' & Hi & Hs & ->).
      exists (S i), st'. replace (p + S i)%nat with (S p + i)%nat by lia. simpl.
      split; [lia | auto].
Qed.

Lemma search_complete r l : forall p,
  search r p l = None ->
  forall i st', (i <= length l)%nat -> ~ sem r (at_ (p + i) (skipn i l) []) st'.
Proof.
  induction l as [|c l IH]; intros p; simpl.
  - destruct (match_at r p []) eqn:E; [discriminate|]. intros _ i st' Hi.
    assert (i = 0)%nat as -> by lia. rewrite Nat.add_0_r. simpl.
    apply match_at_complete, E.
  - destruct (match_at r p (c :: l)) eqn:E; [discriminate|]. intros H i st' Hi.
    destruct i as [|i].
    + rewrite Nat.add_0_r. simpl. apply match_at_complete, E.
    + replace (p + S i)%nat with (S p + i)%nat by lia. simpl.
      apply (IH (S p) H i st'). lia.
Qed.

Lemma test_true r l :
  test r l = true <->
  exists i st', (i <= length l)%nat /\ sem r (at_ i (skipn i l) []) st'.
Proof.
  unfold test. destruct (search r 0 l) eqn:E; split.
  - intros _. apply search_sound in E as (i & st' & Hi & Hs & _). eauto.
  - reflexivity.
  - discriminate.
  - intros (i & st' & Hi & Hs). exfalso.
    exact (search_complete r l 0 E i st' Hi Hs).
Qed.

(** *** The loop over the matches of a global pattern *)

Lemma exec_found r input from m :
  exec r input from = Some m ->
  (from <= index m)%nat /\ found_at r input m.
Proof.
  unfold exec. destruct (length input <? from)%nat eqn:E; [discriminate|].
  apply Nat.ltb_ge in E. intros H.
  apply search_sound in H as (i & st' & Hi & Hs & ->). simpl.
  rewrite length_skipn in Hi.
  change (@drop ascii) with (@skipn ascii) in Hs.
  rewrite skipn_skipn, (Nat.add_comm i from) in Hs.
  split; [lia|]. split; [simpl; lia|]. exists st'. simpl. auto.
Qed.

Lemma found_at_bounds r input m :
  found_at r input m ->
  (index m <= lastIndex m <= length input)%nat.
Proof.
  intros (Hi & st' & Hs & -> & _). apply sem_length in Hs. simpl in Hs.
  rewrite length_skipn in Hs. lia.
Qed.

Lemma progresses_found r input m :
  progresses r -> found_at r input m -> (index m < lastIndex m)%nat.
Proof.
  intros Hp (Hi & st' & Hs & -> & _).
  apply sem_lang in Hs as (w & L & _ & P). simpl in P.
  apply Hp in L. destruct w; [congruence | simpl in P; lia].
Qed.

Lemma exec_loop_some r input :
  progresses r ->
  forall fuel from, (length input - from < fuel)%nat ->
  exists ms, exec_loop fuel r input from = Some ms.
Proof.
  intros Hp. induction fuel as [|f IH]; intros from Hf; [lia|]. simpl.
  destruct (exec r input from) as [m|] eqn:E; [|eauto].
  apply exec_found in E as [Hfrom Hm].
  pose proof (progresses_found _ _ _ Hp Hm) as Hlt.
  pose proof (found_at_bounds _ _ _ Hm) as Hb.
  assert ((from <? lastIndex m)%nat = true) as -> by (apply Nat.ltb_lt; lia).
  destruct (IH (lastIndex m)) as (ms & ->); [lia|]. simpl. eauto.
Qed.

Lemma matches_total r input :
  progresses r -> exists ms, matches r input = Some ms.
Proof. intros Hp. apply exec_loop_some; [assumption | lia]. Qed.

Lemma exec_loop_found r input : forall fuel from ms m,
  exec_loop fuel r input from = Some ms -> In m ms -> found_at r input m.
Proof.
  induction fuel as [|f IH]; intros from ms m; simpl; [discriminate|].
  destruct (exec r input from) as [m0|] eqn:E.
  - destruct (from <? lastIndex m0)%nat; [|discriminate].
    destruct (exec_loop f r input (lastIndex m0)) as [ms'|] eqn:E'; [|discriminate].
    simpl. intros H Hin. inversion H; subst. destruct Hin as [<-|Hin].
    + apply exec_found in E. tauto.
    + eapply IH; eassumption.
  - intros H. inversion H; subst. intros [].
Qed.

Lemma all_matches_found r input m :
  In m (all_matches r input) -> found_at r input m.
Proof.
  unfold all_matches, matches.
  destruct (exec_loop _ r input 0) as [ms|] eqn:E; [|intros []].
  eapply exec_loop_found; eassumption.
Qed.

Lemma progresses_Cat_Lit c l r : progresses (Cat (Lit (c :: l)) r).
Proof.
  intros w H. inversion H as [| |? ? w1 w2 H1 H2| | | | | | |]; subst.
  apply (lang_Lit (c :: l)) in H1. subst. discriminate.
Qed.

Lemma I18N_REGEX_progresses : progresses I18N_REGEX.
Proof. apply progresses_Cat_Lit. Qed.

Lemma HARDCODED_TEXT_REGEX_progresses : progresses HARDCODED_TEXT_REGEX.
Proof. apply progresses_Cat_Lit. Qed.

(** Both loops of the graders end: [all_matches] is what they visit. *)
Lemma usage_loop_ends code :
  matches I18N_REGEX code = Some (all_matches I18N_REGEX code).
Proof.
  unfold all_matches.
  destruct (matches_total I18N_REGEX code I18N_REGEX_progresses) as (ms & ->).
  reflexivity.
Qed.

Lemma hardcoded_loop_ends code :
  matches HARDCODED_TEXT_REGEX code = Some (all_matches HARDCODED_TEXT_REGEX code).
Proof.
  unfold all_matches.
  destruct (matches_total HARDCODED_TEXT_REGEX code HARDCODED_TEXT_REGEX_progresses)
    as (ms & ->).
  reflexivity.
Qed.

End RegexFacts.

(** ** What a run accumulates *)

Module GraderFacts.
Import Regex RegexFacts.

Lemma fold_onUsage translations file ms : forall s,
  fold_left (onUsage translations file) ms s =
  {| usedKeys := usedKeys s ∪ list_to_set (map usage_key ms);
     found := {| missingKeys := missingKeys (found s) ++ missing_of translations file ms;
                 hardcodedStrings := hardcodedStrings (found s);
                 unusedKeys := unusedKeys (found s);
                 malformedKeys := malformedKeys (found s) ++ malformed_of file ms;
                 summary := summary (found s) |} |}.
Proof.
  induction ms as [|m ms IH]; intros [used [mk hs uk ml sm]]; simpl.
  - rewrite !app_nil_r. f_equal. set_solver.
  - rewrite IH. unfold onUsage, usage_key. simpl.
    f_equal; [set_solver|].
    destruct (negb (truthy _)); destruct (JS.includes "[" _ && JS.includes "]" _);
      simpl; unfold push; rewrite <- ?app_assoc; reflexivity.
Qed.

Lemma fold_onHardcoded file ms : forall s,
  fold_left (onHardcoded file) ms s =
  {| usedKeys := usedKeys s;
     found := {| missingKeys := missingKeys (found s);
                 hardcodedStrings := hardcodedStrings (found s) ++ hardcoded_of file ms;
                 unusedKeys := unusedKeys (found s);
                 malformedKeys := malformedKeys (found s);
                 summary := summary (found s) |} |}.
Proof.
  induction ms as [|m ms IH]; intros [used [mk hs uk ml sm]]; simpl.
  - rewrite app_nil_r. reflexivity.
  - rewrite IH. unfold onHardcoded. simpl.
    destruct (shouldFlagAsHardcoded _); simpl; unfold push;
      rewrite <- ?app_assoc; reflexivity.
Qed.

Lemma scanFile_eq translations env s file :
  scanFile translations env s file =
  {| usedKeys := usedKeys s ∪ list_to_set (map usage_key (usages_in env file));
     found := {| missingKeys :=
                   missingKeys (found s) ++ missing_of translations file (usages_in env file);
                 hardcodedStrings :=
                   hardcodedStrings (found s) ++ hardcoded_of file (candidates_in env file);
                 unusedKeys := unusedKeys (found s);
                 malformedKeys :=
                   malformedKeys (found s) ++ malformed_of file (usages_in env file);
                 summary := summary (found s) |} |}.
Proof.
  unfold scanFile, usages_in, candidates_in.
  destruct (readFileSync env file) as [code|msg].
  - rewrite fold_onHardcoded, fold_onUsage. reflexivity.
  - destruct s as [used [mk hs uk ml sm]]. simpl. rewrite !app_nil_r.
    f_equal. set_solver.
Qed.

Lemma scan_eq translations env files : forall s,
  fold_left (scanFile translations env) files s =
  {| usedKeys := usedKeys s ∪ list_to_set (keys_in env files);
     found := {| missingKeys :=
                   missingKeys (found s) ++
                   flat_map (fun file => missing_of translations file (usages_in env file)) files;
                 hardcodedStrings :=
                   hardcodedStrings (found s) ++
                   flat_map (fun file => hardcoded_of file (candidates_in env file)) files;
                 unusedKeys := unusedKeys (found s);
                 malformedKeys :=
                   malformedKeys (found s) ++
                   flat_map (fun file => malformed_of file (usages_in env file)) files;
                 summary := summary (found s) |} |}.
Proof.
  induction files as [|file files IH]; intros s.
  - destruct s as [used [mk hs uk ml sm]]. simpl. rewrite !app_nil_r.
    f_equal. set_solver.
  - simpl. rewrite IH, scanFile_eq. simpl. rewrite <- !app_assoc.
    f_equal. unfold keys_in. simpl. rewrite list_to_set_app_L. set_solver.
Qed.

Lemma fold_unused (used : gset jstr) keys : forall r,
  fold_left (fun r key => if negb (bool_decide (key ∈ used))
                          then push_unusedKey r key else r) keys r =
  {| missingKeys := missingKeys r; hardcodedStrings := hardcodedStrings r;
     unusedKeys := unusedKeys r ++ List.filter (fun key => negb (bool_decide (key ∈ used))) keys;
     malformedKeys := malformedKeys r; summary := summary r |}.
Proof.
  induction keys as [|key keys IH]; intros [mk hs uk ml sm]; simpl.
  - rewrite app_nil_r. reflexivity.
  - rewrite IH. simpl.
    destruct (negb (bool_decide (key ∈ used))); simpl; unfold push;
      rewrite <- ?app_assoc; reflexivity.
Qed.

End GraderFacts.

(** ** The candidates of the hardcoded-text pass *)

Module HardcodedFacts.
Import Regex RegexFacts GraderFacts.

Lemma sem_Cat_inv r1 r2 st st2 :
  sem (Cat r1 r2) st st2 -> exists st1, sem r1 st st1 /\ sem r2 st1 st2.
Proof. intros H. inversion H; subst. eauto. Qed.

Lemma sem_Group_inv n r st st2 :
  sem (Group n r) st st2 -> exists st1, sem r st st1 /\ st2 = capture n st st1.
Proof. intros H. inversion H; subst. eauto. Qed.

Lemma letter_not_markup c : JS.is_letter c = true -> not_markup c = true.
Proof.
  unfold JS.is_letter, JS.is_upper, JS.is_lower, JS.in_range, not_markup, JS.is_char.
  intros H.
  destruct (Ascii.eqb "<" c) eqn:E1; [apply Ascii.eqb_eq in E1; subst; discriminate|].
  destruct (Ascii.eqb "{" c) eqn:E2; [apply Ascii.eqb_eq in E2; subst; discriminate|].
  reflexivity.
Qed.

Lemma letter_not_space c : JS.is_letter c = true -> JS.is_space c = false.
Proof.
  destruct c as [[] [] [] [] [] [] [] []]; intros H;
    solve [reflexivity | vm_compute in H; discriminate].
Qed.

Lemma not_markup_includes w :
  forallb not_markup w = true ->
  JS.includes "<" w = false /\ JS.includes "{" w = false.
Proof.
  unfold JS.includes, not_markup. induction w as [|c w IH]; simpl; [auto|].
  intros H. apply andb_prop in H as [Hc Hw]. destruct (IH Hw) as [-> ->].
  apply negb_true_iff, orb_false_elim in Hc as [-> ->]. auto.
Qed.

Lemma forallb_trimEnd p w : forallb p w = true -> forallb p (JS.trimEnd w) = true.
Proof.
  induction w as [|c w IH]; simpl; [auto|].
  intros H. apply andb_prop in H as [Hc Hw]. specialize (IH Hw).
  destruct (JS.trimEnd w) as [|d t].
  - destruct (JS.is_space c); simpl; [reflexivity | rewrite Hc; reflexivity].
  - simpl in *. rewrite Hc, IH. reflexivity.
Qed.

Lemma trimEnd_head c w :
  JS.is_space c = false -> exists w', JS.trimEnd (c :: w) = c :: w'.
Proof.
  intros Hc. simpl. destruct (JS.trimEnd w) as [|d t].
  - rewrite Hc. eauto.
  - eauto.
Qed.

Lemma shape_of_word c w :
  JS.is_letter c = true -> forallb not_markup w = true ->
  candidate_shape (c :: w) /\ candidate_shape (JS.trim (c :: w)).
Proof.
  intros Hc Hw.
  assert (forallb not_markup (c :: w) = true) as Hall.
  { simpl. rewrite (letter_not_markup _ Hc), Hw. reflexivity. }
  split.
  - split; [eauto | apply not_markup_includes, Hall].
  - unfold JS.trim. simpl JS.trimStart. rewrite (letter_not_space _ Hc).
    destruct (trimEnd_head c w (letter_not_space _ Hc)) as (w' & E).
    split; [rewrite E; eauto|].
    apply not_markup_includes, forallb_trimEnd, Hall.
Qed.

(** The first group of a match of the hardcoded-text pattern. *)
Lemma hardcoded_group code m :
  found_at HARDCODED_TEXT_REGEX code m ->
  exists c w, group 1 (groups m) = c :: w /\ JS.is_letter c = true /\
              w <> [] /\ forallb not_markup w = true.
Proof.
  intros (_ & st' & Hs & _ & ->).
  unfold HARDCODED_TEXT_REGEX, Seq in Hs. simpl fold_right in Hs.
  apply sem_Cat_inv in Hs as (s1 & _ & Hs).
  apply sem_Cat_inv in Hs as (s2 & _ & Hs).
  apply sem_Cat_inv in Hs as (s3 & Hg & Hs).
  apply sem_Group_inv in Hg as (s4 & Hx & ->).
  apply sem_caps in Hs; [|reflexivity]. rewrite Hs. simpl.
  apply sem_lang in Hx as (w & L & E & P).
  rewrite (consumed_word _ _ _ E P).
  inversion L as [| |? ? w1 w2 L1 L2| | | | | | |]; subst.
  inversion L1; subst.
  apply lang_plus_class in L2 as (d & w' & -> & Hd & Hw').
  eexists _, _. split; [reflexivity|].
  repeat split; [assumption | discriminate |].
  change (not_markup d && forallb not_markup w' = true).
  apply andb_true_intro. split; [exact Hd | exact Hw'].
Qed.

End HardcodedFacts.

(** ** The result of a run in closed form *)

Module RunFacts.
Import Regex RegexFacts GraderFacts HardcodedFacts.

Lemma grade_eq config env :
  gradeLanguageImplementation config env =
  match loadTranslations config env with
  | inr message =>
      Returned {| success := false; score := 0;
                  report := Failure ("Failed to load translation file: " ++ message) |}
  | inl translations =>
      match glob_sync_throws env (sourcePattern config) (ignorePattern config) with
      | Some message => Thrown message
      | None =>
          match translations with
          | VNull => Thrown "Cannot convert undefined or null to object"
          | _ =>
              Returned (completed config translations env
                          (glob_sync env (sourcePattern config) (ignorePattern config)))
          end
      end
  end.
Proof.
  unfold gradeLanguageImplementation.
  destruct (loadTranslations config env) as [translations|message]; [|reflexivity].
  destruct (glob_sync_throws env _ _); [reflexivity|].
  destruct translations; try reflexivity;
    rewrite scan_eq; cbn [usedKeys found]; rewrite fold_unused;
    unfold completed, scanned_report, summary_of, set_summary, emptyReport;
    cbn [missingKeys hardcodedStrings unusedKeys malformedKeys summary app];
    rewrite (left_id_L ∅ (∪)); reflexivity.
Qed.

(** A run that returns findings has loaded a translation document. *)
Lemma grade_findings config env res rep :
  gradeLanguageImplementation config env = Returned res ->
  report res = Findings rep ->
  exists translations,
    loadTranslations config env = inl translations /\
    res = completed config translations env
            (glob_sync env (sourcePattern config) (ignorePattern config)).
Proof.
  rewrite grade_eq.
  destruct (loadTranslations config env) as [translations|message].
  - destruct (glob_sync_throws env _ _); [discriminate|].
    destruct translations; intros H; inversion H; subst; eauto.
  - intros H; inversion H; subst. discriminate.
Qed.

Lemma in_hardcoded_of file ms f :
  In f (hardcoded_of file ms) ->
  exists m, In m ms /\ hf_file f = file /\
            hf_text f = JS.trim (group 1 (groups m)) /\
            shouldFlagAsHardcoded (hf_text f) = true.
Proof.
  unfold hardcoded_of. intros H. apply in_flat_map in H as (m & Hm & H).
  destruct (shouldFlagAsHardcoded _) eqn:E; [|destruct H].
  destruct H as [<-|[]]. simpl. eauto.
Qed.

Lemma reported_text config env res rep f :
  gradeLanguageImplementation config env = Returned res ->
  report res = Findings rep ->
  In f (hardcodedStrings rep) ->
  exists code m, readFileSync env (hf_file f) = inl code /\
                 In m (all_matches HARDCODED_TEXT_REGEX code) /\
                 hf_text f = JS.trim (group 1 (groups m)) /\
                 shouldFlagAsHardcoded (hf_text f) = true.
Proof.
  intros Hg Hr Hf. destruct (grade_findings _ _ _ _ Hg Hr) as (tr & _ & ->).
  simpl in Hr. inversion Hr; subst rep. simpl in Hf.
  apply in_flat_map in Hf as (file & _ & Hf).
  apply in_hardcoded_of in Hf as (m & Hm & <- & Ht & Hflag).
  unfold candidates_in in Hm.
  destruct (readFileSync env (hf_file f)) as [code|]; [|destruct Hm].
  exists code, m. auto.
Qed.

End RunFacts.

(** ** The classifier of hardcoded text *)

Module ClassifierFacts.
Import Regex RegexFacts HardcodedFacts.

Lemma bool_eq_iff (a b : bool) : (a = true <-> b = true) -> a = b.
Proof.
  destruct a, b; intros [H1 H2]; try reflexivity.
  - symmetry. apply H1. reflexivity.
  - apply H2. reflexivity.
Qed.

Lemma sem_Bol_inv st st' : sem Bol st st' -> st' = st /\ pos st = 0%nat.
Proof. intros H. inversion H; subst. auto. Qed.

Lemma sem_Eol_inv st st' : sem Eol st st' -> st' = st /\ rest st = [].
Proof. intros H. inversion H; subst. auto. Qed.

(** A pattern [^X] matches at the start only. *)
Lemma test_Bol X l :
  test (Cat Bol X) l = true <-> exists st', sem X (at_ 0 l []) st'.
Proof.
  rewrite test_true. split.
  - intros (i & st' & Hi & Hs). apply sem_Cat_inv in Hs as (s1 & Hb & Hs).
    apply sem_Bol_inv in Hb as [-> Hp]. simpl in Hp. subst i. simpl in Hs. eauto.
  - intros (st' & Hs). exists 0%nat, st'. split; [lia|]. simpl.
    econstructor; [constructor; reflexivity | exact Hs].
Qed.

(** A pattern [^X$] matches the whole text. *)
Lemma test_whole X l :
  test (Seq [Bol; X; Eol]) l = true <-> exists st', sem X (at_ 0 l []) st' /\ rest st' = [].
Proof.
  unfold Seq. simpl fold_right. rewrite test_Bol. split.
  - intros (st' & Hs). apply sem_Cat_inv in Hs as (s1 & Hx & Hs).
    apply sem_Cat_inv in Hs as (s2 & He & Hs).
    apply sem_Eol_inv in He as [-> He]. eauto.
  - intros (st' & Hs & He). exists st'.
    econstructor; [exact Hs|]. econstructor; [constructor; exact He | constructor].
Qed.

Lemma whole_word X l st' :
  sem X (at_ 0 l []) st' -> rest st' = [] -> lang X l.
Proof.
  intros Hs He. apply sem_lang in Hs as (w & L & E & _). simpl in E.
  rewrite He, app_nil_r in E. subst. exact L.
Qed.

Lemma all_nonempty_cons p l :
  JS.all_nonempty p l = true <-> exists c w, l = c :: w /\ p c = true /\ forallb p w = true.
Proof.
  destruct l as [|c w]; simpl; split.
  - discriminate.
  - intros (? & ? & ? & _). discriminate.
  - intros H. apply andb_prop in H as [? ?]. eauto.
  - intros (? & ? & E & H1 & H2). inversion E; subst. rewrite H1, H2. reflexivity.
Qed.

Lemma test_whole_plus p l :
  test (Seq [Bol; Plus true (Chr p); Eol]) l = JS.all_nonempty p l.
Proof.
  apply bool_eq_iff. rewrite test_whole, all_nonempty_cons. split.
  - intros (st' & Hs & He). apply (whole_word _ _ _ Hs), lang_plus_class in He. exact He.
  - intros (c & w & -> & Hc & Hw). exists (at_ (0 + S (length w)) [] []).
    split; [|reflexivity].
    rewrite <- (app_nil_r w) at 1. apply sem_plus_class_intro; assumption.
Qed.

Lemma test_whole_Lit s l :
  test (Seq [Bol; Lit s; Eol]) l = true <-> l = s.
Proof.
  rewrite test_whole. split.
  - intros (st' & Hs & He). apply (whole_word _ _ _ Hs), lang_Lit in He. exact He.
  - intros ->. exists (at_ (0 + length s) [] []). split; [|reflexivity].
    pose proof (sem_Lit_intro s 0 [] []) as H. rewrite app_nil_r in H. exact H.
Qed.

Lemma str_chars s : JS.str (chars s) = s.
Proof. apply string_of_list_ascii_of_string. Qed.

Lemma chars_str l : chars (JS.str l) = l.
Proof. apply list_ascii_of_string_of_list_ascii. Qed.

Lemma is_exactly_eq s l : is_exactly s l = true <-> l = chars s.
Proof.
  unfold is_exactly. rewrite String.eqb_eq. split.
  - intros <-. symmetry. apply chars_str.
  - intros ->. apply str_chars.
Qed.

Lemma test_template l :
  test (Seq [Bol; Chr (fun c => JS.is_char "{" c || JS.is_char "}" c || JS.is_char "$" c)]) l
  = template_start l.
Proof.
  apply bool_eq_iff. unfold Seq. simpl fold_right. rewrite test_Bol. split.
  - intros (st' & Hs). apply sem_Cat_inv in Hs as (s1 & Hc & _).
    inversion Hc; subst. simpl in *. subst. assumption.
  - destruct l as [|c w]; simpl; [discriminate|]. intros H.
    exists (at_ 1 w []). econstructor; [apply sem_chr_intro; exact H | constructor].
Qed.

Lemma test_hex l :
  test (Seq [Bol; Lit "#"; Plus true (Chr JS.is_hex); Eol]) l = hex_colour l.
Proof.
  apply bool_eq_iff. unfold Seq. simpl fold_right. rewrite test_Bol. split.
  - intros (st' & Hs). apply sem_Cat_inv in Hs as (s1 & Hl & Hs).
    apply sem_Cat_inv in Hs as (s2 & Hp & Hs).
    apply sem_Cat_inv in Hs as (s3 & He & _). apply sem_Eol_inv in He as [-> He].
    apply sem_lang in Hl as (w1 & L1 & E1 & _). apply (lang_Lit "#") in L1. subst w1.
    apply sem_lang in Hp as (w2 & L2 & E2 & _).
    apply lang_plus_class in L2 as (c & w & -> & Hc & Hw).
    simpl in E1. rewrite E1, E2, He, app_nil_r. simpl. rewrite Hc, Hw. reflexivity.
  - destruct l as [|h t]; simpl; [discriminate|]. intros H.
    apply andb_prop in H as [Hh Ht]. apply Ascii.eqb_eq in Hh. subst h.
    apply all_nonempty_cons in Ht as (c & w & -> & Hc & Hw).
    exists (at_ (1 + S (length w)) [] []).
    econstructor; [exact (sem_Lit_intro "#" 0 (c :: w) [])|].
    econstructor.
    + rewrite <- (app_nil_r w) at 1. apply sem_plus_class_intro; assumption.
    + econstructor; [constructor; reflexivity | constructor].
Qed.

Lemma test_blank l : test BLANK_REGEX l = all_whitespace l.
Proof.
  apply bool_eq_iff. unfold BLANK_REGEX. rewrite test_whole. split.
  - intros (st' & Hs & He). apply (whole_word _ _ _ Hs), lang_star_class in He. exact He.
  - intros H. exists (at_ (0 + length l) [] []). split; [|reflexivity].
    rewrite <- (app_nil_r l) at 1. apply sem_star_class_intro. exact H.
Qed.

Lemma lang_Chr_inv p w : lang (Chr p) w -> exists c, w = [c] /\ p c = true.
Proof. intros H. inversion H; subst. eauto. Qed.

Lemma lang_Cat_inv r1 r2 w :
  lang (Cat r1 r2) w -> exists w1 w2, w = w1 ++ w2 /\ lang r1 w1 /\ lang r2 w2.
Proof. intros H. inversion H; subst. eauto. Qed.

Lemma lang_Opt_inv r w : lang (Opt r) w -> lang r w \/ w = [].
Proof.
  unfold Opt. intros H. inversion H; subst; [auto|].
  match goal with H1 : lang Eps _ |- _ => inversion H1 end. auto.
Qed.

Lemma test_short_lowercase l :
  test (Seq [Bol; Chr JS.is_lower; Opt (Cat (Chr JS.is_lower) (Opt (Chr JS.is_lower))); Eol]) l
  = short_lowercase l.
Proof.
  apply bool_eq_iff. unfold Seq. simpl fold_right. rewrite test_Bol. split.
  - intros (st' & Hs). apply sem_Cat_inv in Hs as (s1 & H1 & Hs).
    apply sem_Cat_inv in Hs as (s2 & H2 & Hs).
    apply sem_Cat_inv in Hs as (s3 & He & _). apply sem_Eol_inv in He as [-> He].
    apply sem_lang in H1 as (w1 & L1 & E1 & _). apply sem_lang in H2 as (w2 & L2 & E2 & _).
    simpl in E1. rewrite E1, E2, He, app_nil_r. clear E1 E2 He.
    apply lang_Chr_inv in L1 as (a & -> & Ha).
    unfold short_lowercase.
    apply lang_Opt_inv in L2 as [L2| ->]; [|simpl; rewrite Ha; reflexivity].
    apply lang_Cat_inv in L2 as (v1 & v2 & -> & L2 & L3).
    apply lang_Chr_inv in L2 as (b & -> & Hb).
    apply lang_Opt_inv in L3 as [L3| ->]; [|simpl; rewrite Ha, Hb; reflexivity].
    apply lang_Chr_inv in L3 as (c & -> & Hc). simpl. rewrite Ha, Hb, Hc. reflexivity.
  - unfold short_lowercase. intros H.
    apply andb_prop in H as [H Hl]. apply andb_prop in H as [H1 H3].
    apply Nat.leb_le in H1, H3.
    destruct l as [|a [|b [|c [|d l]]]]; simpl in H1, H3; try lia; simpl in Hl.
    + apply andb_prop in Hl as [Ha _]. exists (at_ 1 [] []).
      econstructor; [apply sem_chr_intro, Ha|].
      econstructor; [apply sem_alt_r; constructor|].
      econstructor; [constructor; reflexivity | constructor].
    + apply andb_prop in Hl as [Ha Hl]. apply andb_prop in Hl as [Hb _].
      exists (at_ 2 [] []).
      econstructor; [apply sem_chr_intro, Ha|].
      econstructor.
      * apply sem_alt_l. econstructor; [apply sem_chr_intro, Hb|].
        apply sem_alt_r. constructor.
      * econstructor; [constructor; reflexivity | constructor].
    + apply andb_prop in Hl as [Ha Hl]. apply andb_prop in Hl as [Hb Hl].
      apply andb_prop in Hl as [Hc _]. exists (at_ 3 [] []).
      econstructor; [apply sem_chr_intro, Ha|].
      econstructor.
      * apply sem_alt_l. econstructor; [apply sem_chr_intro, Hb|].
        apply sem_alt_l. apply sem_chr_intro, Hc.
      * econstructor; [constructor; reflexivity | constructor].
Qed.

Lemma test_exactly s l : test (Seq [Bol; Lit (chars s); Eol]) l = is_exactly s l.
Proof. apply bool_eq_iff. rewrite test_whole_Lit, is_exactly_eq. reflexivity. Qed.

Lemma exclusions_in_words text :
  existsb (fun pattern => test pattern text) excludePatterns = excluded text.
Proof.
  unfold excludePatterns, excluded. cbn [existsb].
  rewrite test_template, !test_whole_plus, test_short_lowercase, test_hex, !test_exactly.
  rewrite orb_false_r, !orb_assoc. reflexivity.
Qed.

(** [shouldFlagAsHardcoded] in words: the length is that of the argument. *)
Lemma shouldFlagAsHardcoded_eq text :
  shouldFlagAsHardcoded text
  = (3 <? length text)%nat && negb (excluded text) && negb (all_whitespace text).
Proof.
  unfold shouldFlagAsHardcoded. rewrite exclusions_in_words, test_blank. reflexivity.
Qed.

Lemma trimEnd_idem l : JS.trimEnd (JS.trimEnd l) = JS.trimEnd l.
Proof.
  induction l as [|c l IH]; simpl; [reflexivity|].
  destruct (JS.trimEnd l) as [|d t] eqn:E.
  - destruct (JS.is_space c) eqn:Hc; simpl; [reflexivity|]. rewrite Hc. reflexivity.
  - change (JS.trimEnd (c :: d :: t)) with
      (match JS.trimEnd (d :: t) with
       | [] => if JS.is_space c then [] else [c]
       | x :: y => c :: x :: y
       end).
    rewrite IH. reflexivity.
Qed.

Lemma trimStart_head l :
  JS.trimStart l = [] \/ exists c w, JS.trimStart l = c :: w /\ JS.is_space c = false.
Proof.
  induction l as [|c l IH]; simpl; [auto|].
  destruct (JS.is_space c) eqn:Hc; [exact IH|]. right. eauto.
Qed.

Lemma trim_idem l : JS.trim (JS.trim l) = JS.trim l.
Proof.
  unfold JS.trim. destruct (trimStart_head l) as [->|(c & w & -> & Hc)]; [reflexivity|].
  destruct (trimEnd_head c w Hc) as (w' & E). rewrite E.
  simpl JS.trimStart. rewrite Hc, <- E. apply trimEnd_idem.
Qed.

End ClassifierFacts.

(** ** Indices written in decimal, paths split and joined *)

Module StringFacts.
Import ClassifierFacts.

Ltac by_char c H :=
  destruct c as [[] [] [] [] [] [] [] []];
  solve [reflexivity | vm_compute in H; discriminate].

Lemma str_eqb a b : String.eqb (JS.str a) (JS.str b) = true <-> a = b.
Proof.
  rewrite String.eqb_eq. split; [|congruence].
  intros H. rewrite <- (chars_str a), <- (chars_str b), H. reflexivity.
Qed.

Lemma str_eqb_refl a : String.eqb (JS.str a) (JS.str a) = true.
Proof. apply str_eqb. reflexivity. Qed.

Lemma digit_not_space c : JS.is_digit c = true -> JS.is_space c = false.
Proof. intros H. by_char c H. Qed.
Lemma digit_not_dot c : JS.is_digit c = true -> JS.is_char "." c = false.
Proof. intros H. by_char c H. Qed.
Lemma digit_not_minus c : JS.is_digit c = true -> JS.is_char "-" c = false.
Proof. intros H. by_char c H. Qed.
Lemma digit_not_plus c : JS.is_digit c = true -> JS.is_char "+" c = false.
Proof. intros H. by_char c H. Qed.
Lemma digit_not_x c : JS.is_digit c = true -> JS.is_char "x" c || JS.is_char "X" c = false.
Proof. intros H. by_char c H. Qed.
Lemma digit_not_I c : JS.is_digit c = true -> Ascii.eqb c "I" = false.
Proof. intros H. by_char c H. Qed.

Lemma uint_chars_digits d : forallb JS.is_digit (uint_chars d) = true.
Proof. induction d; simpl; auto. Qed.

Lemma digits_uint d : forall a seen,
  seen = true \/ d <> Decimal.Nil ->
  JS.digits_prefix JS.is_digit JS.digit_value 10 (uint_chars d) seen (Z.of_nat a)
  = Some (Z.of_nat (Nat.of_uint_acc d a)).
Proof.
  induction d; intros a seen Hs;
    try (cbn [uint_chars chars NilEmpty.string_of_uint list_ascii_of_string
              JS.digits_prefix Nat.of_uint_acc];
         match goal with
         | |- context [JS.is_digit ?c] => change (JS.is_digit c) with true
         end;
         cbv iota;
         match goal with
         | |- context [JS.digit_value ?c] =>
             let v := eval vm_compute in (JS.digit_value c) in
             change (JS.digit_value c) with v
         end;
         rewrite Nat.tail_mul_spec;
         match goal with
         | |- JS.digits_prefix _ _ _ _ _ ?z = Some (Z.of_nat (Nat.of_uint_acc _ ?n)) =>
             replace z with (Z.of_nat n) by lia
         end;
         apply (IHd _ true); left; reflexivity).
  simpl. destruct Hs as [->|H]; [reflexivity | congruence].
Qed.

Lemma to_uint_nonnil n : Nat.to_uint n <> Decimal.Nil.
Proof.
  rewrite <- (DecimalNat.Unsigned.of_to n) at 1. rewrite DecimalNat.Unsigned.to_of.
  unfold Decimal.unorm. destruct (Decimal.nzhead _); discriminate.
Qed.

Lemma toString_eq n : JS.toString n = uint_chars (Nat.to_uint n).
Proof.
  unfold JS.toString, NilZero.string_of_uint, uint_chars.
  pose proof (to_uint_nonnil n). destruct (Nat.to_uint n); congruence.
Qed.

Lemma toString_digits n : forallb JS.is_digit (JS.toString n) = true.
Proof. rewrite toString_eq. apply uint_chars_digits. Qed.

Lemma toString_nonempty n : JS.toString n <> [].
Proof.
  rewrite toString_eq. pose proof (to_uint_nonnil n).
  destruct (Nat.to_uint n); [congruence | discriminate ..].
Qed.

Lemma toString_value n :
  JS.digits_prefix JS.is_digit JS.digit_value 10 (JS.toString n) false 0 = Some (Z.of_nat n).
Proof.
  rewrite toString_eq. change 0%Z with (Z.of_nat 0).
  rewrite digits_uint by (right; apply to_uint_nonnil).
  change (Nat.of_uint_acc (Nat.to_uint n) 0) with (Nat.of_uint (Nat.to_uint n)).
  rewrite DecimalNat.Unsigned.of_to. reflexivity.
Qed.

Lemma digits_trimEnd l : forallb JS.is_digit l = true -> JS.trimEnd l = l.
Proof.
  induction l as [|c l IH]; simpl; [reflexivity|]. intros H.
  apply andb_prop in H as [Hc Hl]. rewrite (IH Hl).
  destruct l; [rewrite (digit_not_space _ Hc)|]; reflexivity.
Qed.

Lemma digits_trimStart l : forallb JS.is_digit l = true -> JS.trimStart l = l.
Proof.
  destruct l as [|c l]; simpl; [reflexivity|]. intros H.
  apply andb_prop in H as [Hc _]. rewrite (digit_not_space _ Hc). reflexivity.
Qed.

Lemma skip_all p l : forallb p l = true -> JS.skip p l = [].
Proof.
  induction l as [|c l IH]; simpl; [reflexivity|]. intros H.
  apply andb_prop in H as [-> Hl]. auto.
Qed.

Lemma isNaN_digits l : l <> [] -> forallb JS.is_digit l = true -> JS.isNaN l = false.
Proof.
  intros Hne Hd. unfold JS.isNaN, JS.trim.
  rewrite (digits_trimStart _ Hd), (digits_trimEnd _ Hd).
  destruct l as [|c w]; [congruence|]. apply negb_false_iff.
  unfold JS.numeric_literal. apply orb_true_iff. right.
  pose proof Hd as Hd'. simpl in Hd'. apply andb_prop in Hd' as [Hc Hw].
  rewrite (digit_not_plus _ Hc), (digit_not_minus _ Hc). simpl orb. cbv iota.
  unfold JS.unsigned_decimal.
  assert (String.eqb (JS.str (c :: w)) "Infinity" = false) as ->.
  { simpl. rewrite (digit_not_I _ Hc). reflexivity. }
  rewrite (digit_not_dot _ Hc), Hc, (skip_all _ _ Hd). reflexivity.
Qed.

Lemma parseInt_digits l :
  forallb JS.is_digit l = true ->
  JS.parseInt l = JS.digits_prefix JS.is_digit JS.digit_value 10 l false 0.
Proof.
  intros Hd. unfold JS.parseInt. rewrite (digits_trimStart _ Hd).
  destruct l as [|c w]; [reflexivity|].
  pose proof Hd as Hd'. simpl in Hd'. apply andb_prop in Hd' as [Hc Hw].
  rewrite (digit_not_minus _ Hc), (digit_not_plus _ Hc).
  assert (forall o : option Z, option_map (Z.mul 1) o = o) as Hmul.
  { intros [z|]; simpl; [f_equal; lia | reflexivity]. }
  destruct w as [|x h]; [apply Hmul|].
  simpl in Hw. apply andb_prop in Hw as [Hx _].
  rewrite (digit_not_x _ Hx), andb_false_r. apply Hmul.
Qed.

Lemma isNaN_toString n : JS.isNaN (JS.toString n) = false.
Proof. apply isNaN_digits; [apply toString_nonempty | apply toString_digits]. Qed.

Lemma parseInt_toString n : JS.parseInt (JS.toString n) = Some (Z.of_nat n).
Proof. rewrite parseInt_digits by apply toString_digits. apply toString_value. Qed.

Lemma digits_dot_free l : forallb JS.is_digit l = true -> JS.includes "." l = false.
Proof.
  unfold JS.includes. induction l as [|c l IH]; simpl; [reflexivity|]. intros H.
  apply andb_prop in H as [Hc Hl]. rewrite (digit_not_dot _ Hc), (IH Hl). reflexivity.
Qed.

Lemma nth_Z_nat {A} (l : list A) : forall i, JS.nth_Z l (Z.of_nat i) = nth_error l i.
Proof.
  induction l as [|x l IH]; intros [|i]; try reflexivity.
  cbn [JS.nth_Z nth_error].
  destruct (Z.of_nat (S i) =? 0)%Z eqn:E0; [apply Z.eqb_eq in E0; lia|].
  destruct (Z.of_nat (S i) <? 0)%Z eqn:E1; [apply Z.ltb_lt in E1; lia|].
  replace (Z.of_nat (S i) - 1)%Z with (Z.of_nat i) by lia. apply IH.
Qed.

Lemma split_dot_free s : dot_free s -> JS.split "." s = [s].
Proof.
  unfold dot_free, JS.includes. induction s as [|c s IH]; simpl; [reflexivity|].
  intros H. apply orb_false_elim in H as [Hc Hs]. rewrite Hc, (IH Hs). reflexivity.
Qed.

Lemma split_app s r : dot_free s -> JS.split "." (s ++ "." ++ r) = s :: JS.split "." r.
Proof.
  unfold dot_free, JS.includes. induction s as [|c s IH]; simpl.
  - intros _. reflexivity.
  - intros H. apply orb_false_elim in H as [Hc Hs]. rewrite Hc.
    simpl in IH. rewrite (IH Hs). reflexivity.
Qed.

Lemma split_join segs :
  segs <> [] -> Forall dot_free segs -> JS.split "." (join segs) = segs.
Proof.
  induction segs as [|s segs IH]; [congruence|]. intros _ H.
  inversion H as [|? ? Hs Hrest]; subst.
  destruct segs as [|s' segs].
  - simpl. apply split_dot_free, Hs.
  - change (join (s :: s' :: segs)) with (s ++ "." ++ join (s' :: segs)).
    rewrite (split_app _ _ Hs), IH; [reflexivity | discriminate | assumption].
Qed.

Lemma join_cons s segs : segs <> [] -> join (s :: segs) = s ++ "." ++ join segs.
Proof. destruct segs; [congruence | reflexivity]. Qed.

Lemma split_nonempty sep l : JS.split sep l <> [].
Proof.
  destruct l as [|c l]; simpl; [discriminate|].
  destruct (JS.is_char sep c); [discriminate|]. destruct (JS.split sep l); discriminate.
Qed.

Lemma join_split l : join (JS.split "." l) = l.
Proof.
  induction l as [|c l IH]; [reflexivity|]. cbn [JS.split].
  destruct (JS.is_char "." c) eqn:E.
  - apply Ascii.eqb_eq in E. subst c.
    destruct (JS.split "." l) as [|h t] eqn:Es; [exfalso; exact (split_nonempty _ _ Es)|].
    rewrite join_cons by discriminate. rewrite IH. reflexivity.
  - destruct (JS.split "." l) as [|h t] eqn:Es; [exfalso; exact (split_nonempty _ _ Es)|].
    destruct t as [|h' t].
    + simpl in *. congruence.
    + rewrite join_cons by discriminate. rewrite (join_cons h) in IH by discriminate.
      simpl. rewrite <- IH. reflexivity.
Qed.

(** Canonical indices are the numbers written by [toString]. *)
Lemma toString_head n :
  exists c r, JS.toString n = c :: r /\ (JS.is_char "0" c = false \/ r = []).
Proof.
  rewrite toString_eq.
  assert (Nat.to_uint n = Decimal.unorm (Nat.to_uint n)) as E.
  { rewrite <- (DecimalNat.Unsigned.of_to n) at 1. apply DecimalNat.Unsigned.to_of. }
  revert E. generalize (Nat.to_uint n). intros d E. rewrite E. unfold Decimal.unorm.
  pose proof (DecimalFacts.nzhead_nonzero d) as Hnz.
  destruct (Decimal.nzhead d) eqn:Eh; try (exfalso; eapply Hnz; reflexivity);
    cbn [uint_chars NilEmpty.string_of_uint chars list_ascii_of_string];
    eexists _, _; (split; [reflexivity|]); auto.
Qed.

Lemma canonical_index_toString n : JS.canonical_index (JS.toString n) = Some (Z.of_nat n).
Proof.
  destruct (toString_head n) as (c & r & E & H).
  pose proof (toString_digits n) as Hd. pose proof (toString_value n) as Hv.
  rewrite E in Hd, Hv. unfold JS.canonical_index. rewrite E, Hd, Hv.
  destruct H as [->| ->]; [reflexivity|]. rewrite orb_true_r. reflexivity.
Qed.

Ltac digit_case :=
  intros rest; split;
  [ reflexivity
  | split; [discriminate
           | intros Hz; first [reflexivity | vm_compute in Hz; discriminate]]].

Lemma digit_cases c :
  JS.is_digit c = true ->
  exists d, forall rest, uint_chars (d rest) = c :: uint_chars rest /\ d rest <> Decimal.Nil
            /\ (JS.is_char "0" c = false -> Decimal.unorm (d rest) = d rest).
Proof.
  intros H.
  destruct c as [[] [] [] [] [] [] [] []]; try (vm_compute in H; discriminate);
    first [ exists Decimal.D0; solve [digit_case] | exists Decimal.D1; solve [digit_case]
          | exists Decimal.D2; solve [digit_case] | exists Decimal.D3; solve [digit_case]
          | exists Decimal.D4; solve [digit_case] | exists Decimal.D5; solve [digit_case]
          | exists Decimal.D6; solve [digit_case] | exists Decimal.D7; solve [digit_case]
          | exists Decimal.D8; solve [digit_case] | exists Decimal.D9; solve [digit_case] ].
Qed.

Lemma uint_chars_nil d : uint_chars d = [] -> d = Decimal.Nil.
Proof. destruct d; [reflexivity | discriminate ..]. Qed.

Lemma digits_to_uint s :
  forallb JS.is_digit s = true ->
  exists d, uint_chars d = s /\ (s <> [] -> d <> Decimal.Nil) /\
            (forall c r, s = c :: r -> JS.is_char "0" c = false -> Decimal.unorm d = d).
Proof.
  induction s as [|c s IH]; intros H.
  - exists Decimal.Nil. repeat split; [congruence | discriminate].
  - simpl in H. apply andb_prop in H as [Hc Hs].
    destruct (IH Hs) as (d & Ed & _). destruct (digit_cases c Hc) as (k & Hk).
    destruct (Hk d) as (E1 & E2 & E3). exists (k d). repeat split.
    + rewrite E1, Ed. reflexivity.
    + intros _. exact E2.
    + intros c' r' E Hz. inversion E; subst. apply E3, Hz.
Qed.

Lemma canonical_index_inv s i :
  JS.canonical_index s = Some i ->
  s = JS.toString (Z.to_nat i) /\ (0 <= i)%Z /\
  s <> [] /\ forallb JS.is_digit s = true /\
  JS.digits_prefix JS.is_digit JS.digit_value 10 s false 0 = Some i.
Proof.
  unfold JS.canonical_index. destruct s as [|c r]; [discriminate|].
  destruct (forallb JS.is_digit (c :: r)) eqn:Hd; [|discriminate].
  destruct (negb (JS.is_char "0" c) || match r with [] => true | _ => false end) eqn:Hh;
    [|discriminate].
  simpl andb. cbv iota. intros Hv.
  destruct (digits_to_uint _ Hd) as (d & Ed & Hnil & Hnorm).
  assert (d <> Decimal.Nil) as Hd' by (apply Hnil; discriminate).
  pose proof (digits_uint d 0 false (or_intror Hd')) as Hv'.
  rewrite Ed in Hv'. change (Z.of_nat 0) with 0%Z in Hv'. rewrite Hv in Hv'.
  inversion Hv'; subst i. rewrite Nat2Z.id.
  change (Nat.of_uint_acc d 0) with (Nat.of_uint d).
  repeat split; try assumption; try lia; try discriminate.
  rewrite toString_eq, DecimalNat.Unsigned.to_of.
  assert (Decimal.unorm d = d) as ->; [|symmetry; exact Ed].
  apply orb_prop in Hh as [Hh|Hh].
  - apply (Hnorm c r eq_refl). apply negb_true_iff, Hh.
  - destruct r; [|discriminate].
    destruct d as [|d'|d'|d'|d'|d'|d'|d'|d'|d'|d']; try discriminate;
      cbn [uint_chars NilEmpty.string_of_uint chars list_ascii_of_string] in Ed;
      injection Ed as _ Ed; apply uint_chars_nil in Ed; subst d'; reflexivity.
Qed.

End StringFacts.

(** ** Extracted keys resolve *)

Module ResolverFacts.
Import ClassifierFacts StringFacts.

Lemma extractAllKeys_VObj entries prefix :
  extractAllKeys (VObj entries) prefix
  = flat_map (fun kv => entry_keys prefix (fst kv) (snd kv)) entries.
Proof. reflexivity. Qed.

Lemma extractAllKeys_VArr items prefix :
  extractAllKeys (VArr items) prefix
  = flat_mapi (fun i v => entry_keys prefix (JS.toString i) v) 0 items.
Proof. reflexivity. Qed.

Lemma in_flat_mapi {A B} (f : nat -> A -> list B) l : forall start y,
  In y (flat_mapi f start l) ->
  exists i x, nth_error l i = Some x /\ In y (f (start + i)%nat x).
Proof.
  induction l as [|a l IH]; intros start y; simpl; [intros []|].
  intros H. apply in_app_or in H as [H|H].
  - exists 0%nat, a. rewrite Nat.add_0_r. auto.
  - apply IH in H as (i & x & Hi & Hy). exists (S i), x.
    replace (start + S i)%nat with (S start + i)%nat by lia. auto.
Qed.

Lemma flat_mapi_in {A B} (f : nat -> A -> list B) l : forall start i x y,
  nth_error l i = Some x -> In y (f (start + i)%nat x) -> In y (flat_mapi f start l).
Proof.
  induction l as [|a l IH]; intros start [|i] x y; simpl; try discriminate.
  - intros E. inversion E; subst. rewrite Nat.add_0_r. intros H.
    apply in_or_app. auto.
  - intros E H. apply in_or_app. right. apply (IH (S start) i x); [assumption|].
    replace (S start + i)%nat with (start + S i)%nat by lia. assumption.
Qed.

Lemma own_property_in entries k v :
  distinct (map fst entries) = true -> In (k, v) entries ->
  own_property entries k = Some v.
Proof.
  induction entries as [|[k' v'] entries IH]; simpl; [intros _ []|].
  intros H Hin. apply andb_prop in H as [Hk Hd]. destruct Hin as [E|Hin].
  - inversion E; subst. rewrite str_eqb_refl. reflexivity.
  - destruct (String.eqb (JS.str k') (JS.str k)) eqn:E; [|auto].
    apply str_eqb in E. subst k'. apply negb_true_iff in Hk.
    assert (existsb (fun k' => String.eqb (JS.str k) (JS.str k')) (map fst entries) = true)
      as Hex; [|congruence].
    apply existsb_exists. exists k. split; [|apply str_eqb_refl].
    apply in_map_iff. exists (k, v). auto.
Qed.

Lemma key_ok_spec k : key_ok k = true -> k <> [] /\ dot_free k.
Proof.
  unfold key_ok, dot_free. destruct k; [discriminate|]. intros H.
  apply negb_true_iff in H. split; [discriminate | assumption].
Qed.

Lemma fullKey_nonempty prefix key : key <> [] -> fullKey prefix key <> [].
Proof. destruct prefix; simpl; [auto | discriminate]. Qed.

Lemma fullKey_of_nonempty prefix r : prefix <> [] -> fullKey prefix r = prefix ++ "." ++ r.
Proof. destruct prefix; [congruence | reflexivity]. Qed.

Lemma fullKey_nested prefix key r :
  key <> [] -> fullKey (fullKey prefix key) r = fullKey prefix (key ++ "." ++ r).
Proof.
  intros Hk. rewrite (fullKey_of_nonempty (fullKey prefix key)) by (apply fullKey_nonempty, Hk).
  destruct prefix as [|c p]; [reflexivity|].
  unfold fullKey. rewrite <- !app_assoc. reflexivity.
Qed.

Lemma indexKey_leaf prefix key i :
  key <> [] ->
  indexKey (fullKey prefix key) i = fullKey prefix (key ++ "." ++ JS.toString i).
Proof.
  intros Hk. rewrite <- fullKey_nested by exact Hk.
  rewrite (fullKey_of_nonempty (fullKey prefix key)) by (apply fullKey_nonempty, Hk).
  reflexivity.
Qed.

Lemma indexKey_nested prefix key i r :
  key <> [] ->
  fullKey (indexKey (fullKey prefix key) i) r
  = fullKey prefix (key ++ "." ++ JS.toString i ++ "." ++ r).
Proof.
  intros Hk. rewrite <- fullKey_nested by exact Hk.
  rewrite (fullKey_of_nonempty (fullKey prefix key)) by (apply fullKey_nonempty, Hk).
  rewrite fullKey_of_nonempty.
  - unfold indexKey. rewrite <- !app_assoc. reflexivity.
  - unfold indexKey. destruct (fullKey prefix key); discriminate.
Qed.

Lemma toString_dot_free n : dot_free (JS.toString n).
Proof. apply digits_dot_free, toString_digits. Qed.

Lemma address_resolves segs : forall v leaf,
  address segs v = Some leaf -> fold_left resolve_step segs (Some v) = Some leaf.
Proof.
  induction segs as [|seg rest IH]; intros v leaf; cbn [address fold_left]; [auto|].
  destruct v as [| b | q | s | items | entries]; try discriminate.
  - destruct (JS.canonical_index seg) as [i|] eqn:E; [|discriminate].
    destruct (JS.nth_Z items i) as [v'|] eqn:En; [|discriminate].
    apply canonical_index_inv in E as (_ & _ & Hne & Hd & Hv).
    unfold resolve_step. rewrite (isNaN_digits _ Hne Hd), (parseInt_digits _ Hd), Hv, En.
    apply IH.
  - cbn [resolve_step]. destruct (own_property entries seg) as [v'|]; [|discriminate].
    apply IH.
Qed.

Lemma address_index items i item segs :
  nth_error items i = Some item ->
  address (JS.toString i :: segs) (VArr items) = address segs item.
Proof.
  intros H. cbn [address]. rewrite canonical_index_toString, nth_Z_nat, H. reflexivity.
Qed.

Lemma address_key entries k v segs :
  distinct (map fst entries) = true -> In (k, v) entries ->
  address (k :: segs) (VObj entries) = address segs v.
Proof.
  intros Hd Hin. cbn [address]. rewrite (own_property_in _ _ _ Hd Hin). reflexivity.
Qed.

Lemma own_property_some entries k v :
  own_property entries k = Some v -> In (k, v) entries.
Proof.
  induction entries as [|[k' v'] entries IH]; simpl; [discriminate|].
  destruct (String.eqb (JS.str k') (JS.str k)) eqn:E.
  - apply str_eqb in E. intros H. inversion H; subst. auto.
  - auto.
Qed.

Lemma address_scalar segs v leaf :
  is_container v = false -> address segs v = Some leaf -> segs = [] /\ leaf = v.
Proof.
  destruct segs as [|seg rest]; simpl.
  - intros _ H. inversion H. auto.
  - destruct v; simpl; discriminate.
Qed.

Lemma address_container segs v leaf :
  is_container v = true -> is_container leaf = false ->
  address segs v = Some leaf -> segs <> [].
Proof. intros Hv Hl H ->. simpl in H. inversion H; subst. congruence. Qed.

Lemma entry_leads v prefix key K :
  key <> [] -> dot_free key -> well_keyed v = true ->
  keys_lead v -> (forall items, v = VArr items -> Forall keys_lead items) ->
  In K (entry_keys prefix key v) ->
  exists segs leaf,
    Forall dot_free segs /\ K = fullKey prefix (join (key :: segs)) /\
    address segs v = Some leaf /\ is_container leaf = false.
Proof.
  intros Hk Hd Hw Hv Hitems Hin.
  assert (Hscalar : is_container v = false -> In K [fullKey prefix key] ->
            exists segs leaf,
              Forall dot_free segs /\ K = fullKey prefix (join (key :: segs)) /\
              address segs v = Some leaf /\ is_container leaf = false).
  { intros Hc [<-|[]]. exists [], v. simpl. auto. }
  destruct v as [| b | q | s | items | entries]; try (apply Hscalar; [reflexivity | exact Hin]).
  - (* an array *)
    simpl in Hin. apply in_flat_mapi in Hin as (i & item & Hi & Hin). simpl in Hin.
    assert (Hleaf : is_container item = false ->
              In K [indexKey (fullKey prefix key) i] ->
              exists segs leaf,
                Forall dot_free segs /\ K = fullKey prefix (join (key :: segs)) /\
                address segs (VArr items) = Some leaf /\
                is_container leaf = false).
    { intros Hc [<-|[]]. exists [JS.toString i], item. repeat split.
      - constructor; [apply toString_dot_free | constructor].
      - apply indexKey_leaf, Hk.
      - rewrite (address_index _ _ _ _ Hi). reflexivity.
      - exact Hc. }
    assert (Hnested : is_container item = true ->
              In K (extractAllKeys item (indexKey (fullKey prefix key) i)) ->
              exists segs leaf,
                Forall dot_free segs /\ K = fullKey prefix (join (key :: segs)) /\
                address segs (VArr items) = Some leaf /\
                is_container leaf = false).
    { intros Hc HK.
      pose proof (Hitems items eq_refl) as Hall. rewrite List.Forall_forall in Hall.
      assert (In item items) as Hitem by (eapply nth_error_In; eassumption).
      assert (well_keyed item = true) as Hwi.
      { simpl in Hw. rewrite forallb_forall in Hw. auto. }
      destruct (Hall item Hitem Hc Hwi _ _ HK) as (segs & leaf & Hne & Hdf & -> & Hr & Hl).
      exists (JS.toString i :: segs), leaf. repeat split.
      - constructor; [apply toString_dot_free | assumption].
      - rewrite (indexKey_nested _ _ _ _ Hk).
        rewrite (join_cons key) by discriminate. rewrite (join_cons _ segs) by exact Hne.
        reflexivity.
      - rewrite (address_index _ _ _ _ Hi). exact Hr.
      - exact Hl. }
    destruct item; solve [apply Hleaf; [reflexivity | exact Hin]
                         | apply Hnested; [reflexivity | exact Hin]].
  - (* an object *)
    simpl entry_keys in Hin.
    destruct (Hv eq_refl Hw _ _ Hin) as (segs & leaf & Hne & Hdf & -> & Hr & Hl).
    exists segs, leaf. repeat split; try assumption.
    rewrite fullKey_nested by exact Hk. rewrite (join_cons _ _ Hne). reflexivity.
Qed.

Lemma keys_lead_all v :
  keys_lead v /\ (forall items, v = VArr items -> Forall keys_lead items).
Proof.
  induction v as [| b | q | s | items IH | entries IH] using value_ind;
    try (split; [intros Hc; discriminate | intros ? E; discriminate]).
  - (* an array *)
    assert (Forall keys_lead items) as Hall.
    { eapply List.Forall_impl; [|exact IH]. intros ? [H _]. exact H. }
    split; [|intros ? E; inversion E; subst; exact Hall].
    intros _ Hw prefix K Hin. rewrite extractAllKeys_VArr in Hin.
    apply in_flat_mapi in Hin as (i & item & Hi & Hin). simpl in Hin.
    assert (In item items) as Hitem by (eapply nth_error_In; eassumption).
    rewrite List.Forall_forall in IH. destruct (IH _ Hitem) as [Hq Hsub].
    assert (well_keyed item = true) as Hwi.
    { simpl in Hw. rewrite forallb_forall in Hw. auto. }
    destruct (entry_leads item prefix (JS.toString i) K
                (toString_nonempty i) (toString_dot_free i) Hwi Hq Hsub Hin)
      as (segs & leaf & Hdf & -> & Hr & Hl).
    exists (JS.toString i :: segs), leaf. repeat split; try assumption.
    + discriminate.
    + constructor; [apply toString_dot_free | assumption].
    + rewrite (address_index _ _ _ _ Hi). exact Hr.
  - (* an object *)
    split; [|intros ? E; discriminate].
    intros _ Hw prefix K Hin. rewrite extractAllKeys_VObj in Hin.
    apply in_flat_map in Hin as ([k v] & Hkv & Hin). simpl in Hin.
    rewrite List.Forall_forall in IH. destruct (IH _ Hkv) as [Hq Hsub]. simpl in Hq, Hsub.
    simpl in Hw. apply andb_prop in Hw as [Hdist Hall].
    rewrite forallb_forall in Hall. specialize (Hall _ Hkv). simpl in Hall.
    apply andb_prop in Hall as [Hk Hwv]. apply key_ok_spec in Hk as [Hk Hd].
    destruct (entry_leads v prefix k K Hk Hd Hwv Hq Hsub Hin)
      as (segs & leaf & Hdf & -> & Hr & Hl).
    exists (k :: segs), leaf. repeat split; try assumption.
    + discriminate.
    + constructor; assumption.
    + rewrite (address_key _ _ _ _ Hdist Hkv). exact Hr.
Qed.

(** Every extracted key of a well-keyed mapping or sequence addresses a
    scalar, and resolves to it. *)
Lemma extracted_addressed D K :
  is_container D = true -> well_keyed D = true ->
  In K (extractAllKeys D "") ->
  exists leaf, address (JS.split "." K) D = Some leaf /\ is_container leaf = false.
Proof.
  intros Hc Hw Hin.
  destruct (proj1 (keys_lead_all D) Hc Hw _ _ Hin) as (segs & leaf & Hne & Hdf & -> & Hr & Hl).
  exists leaf. split; [|exact Hl].
  simpl fullKey. rewrite split_join by assumption. exact Hr.
Qed.

Lemma address_resolveKey D K leaf :
  address (JS.split "." K) D = Some leaf -> resolveKey D K = Some leaf.
Proof. apply address_resolves. Qed.

Lemma entry_addressed v prefix key segs leaf :
  key <> [] -> well_keyed v = true ->
  addressed v -> (forall items, v = VArr items -> Forall addressed items) ->
  address segs v = Some leaf -> is_container leaf = false ->
  In (fullKey prefix (join (key :: segs))) (entry_keys prefix key v).
Proof.
  intros Hk Hw Hv Hitems Ha Hl.
  assert (Hscalar : is_container v = false ->
            In (fullKey prefix (join (key :: segs))) [fullKey prefix key]).
  { intros Hc. destruct (address_scalar _ _ _ Hc Ha) as [-> _]. left. reflexivity. }
  destruct v as [| b | q | s | items | entries]; try (apply Hscalar; reflexivity).
  - (* an array *)
    destruct segs as [|seg rest]; [simpl in Ha; inversion Ha; subst; discriminate|].
    cbn [address] in Ha.
    destruct (JS.canonical_index seg) as [i|] eqn:E; [|discriminate].
    destruct (JS.nth_Z items i) as [item|] eqn:En; [|discriminate].
    apply canonical_index_inv in E as (-> & Hi & _).
    rewrite <- (Z2Nat.id i Hi), nth_Z_nat in En.
    set (n := Z.to_nat i) in *.
    assert (In item items) as Hitem by (eapply nth_error_In; eassumption).
    assert (well_keyed item = true) as Hwi.
    { simpl in Hw. rewrite forallb_forall in Hw. auto. }
    cbn [entry_keys]. apply (flat_mapi_in _ items 0 n item); [exact En|]. cbn [Nat.add].
    destruct (is_container item) eqn:Hc.
    + pose proof (Hitems items eq_refl) as Hall. rewrite List.Forall_forall in Hall.
      pose proof (address_container _ _ _ Hc Hl Ha) as Hne.
      pose proof (Hall item Hitem Hc Hwi (indexKey (fullKey prefix key) n) rest leaf Ha Hl) as Hin.
      rewrite (indexKey_nested _ _ _ _ Hk) in Hin.
      rewrite (join_cons key) by discriminate. rewrite (join_cons _ rest) by exact Hne.
      destruct item; try discriminate; exact Hin.
    + destruct (address_scalar _ _ _ Hc Ha) as [-> _].
      rewrite (join_cons key) by discriminate. cbn [join].
      rewrite <- (indexKey_leaf _ _ _ Hk).
      destruct item; try discriminate; left; reflexivity.
  - (* an object *)
    pose proof (address_container segs (VObj entries) leaf eq_refl Hl Ha) as Hne.
    cbn [entry_keys]. rewrite (join_cons _ _ Hne), <- (fullKey_nested _ _ _ Hk).
    exact (Hv eq_refl Hw (fullKey prefix key) segs leaf Ha Hl).
Qed.

Lemma addressed_all v :
  addressed v /\ (forall items, v = VArr items -> Forall addressed items).
Proof.
  induction v as [| b | q | s | items IH | entries IH] using value_ind;
    try (split; [intros Hc; discriminate | intros ? E; discriminate]).
  - (* an array *)
    assert (Forall addressed items) as Hall.
    { eapply List.Forall_impl; [|exact IH]. intros ? [H _]. exact H. }
    split; [|intros ? E; inversion E; subst; exact Hall].
    intros _ Hw prefix segs leaf Ha Hl.
    destruct segs as [|seg rest]; [simpl in Ha; inversion Ha; subst; discriminate|].
    cbn [address] in Ha.
    destruct (JS.canonical_index seg) as [i|] eqn:E; [|discriminate].
    destruct (JS.nth_Z items i) as [item|] eqn:En; [|discriminate].
    apply canonical_index_inv in E as (-> & Hi & _).
    rewrite <- (Z2Nat.id i Hi), nth_Z_nat in En.
    assert (In item items) as Hitem by (eapply nth_error_In; eassumption).
    assert (well_keyed item = true) as Hwi.
    { simpl in Hw. rewrite forallb_forall in Hw. auto. }
    rewrite List.Forall_forall in IH. destruct (IH _ Hitem) as [Hq Hsub].
    rewrite extractAllKeys_VArr.
    apply (flat_mapi_in _ items 0 (Z.to_nat i) item); [exact En|]. cbn [Nat.add].
    apply (entry_addressed item prefix _ rest leaf); try assumption. apply toString_nonempty.
  - (* an object *)
    split; [|intros ? E; discriminate].
    intros _ Hw prefix segs leaf Ha Hl.
    destruct segs as [|seg rest]; [simpl in Ha; inversion Ha; subst; discriminate|].
    cbn [address] in Ha.
    destruct (own_property entries seg) as [v|] eqn:E; [|discriminate].
    apply own_property_some in E.
    rewrite List.Forall_forall in IH. destruct (IH _ E) as [Hq Hsub]. simpl in Hq, Hsub.
    simpl in Hw. apply andb_prop in Hw as [Hdist Hall].
    rewrite forallb_forall in Hall. specialize (Hall _ E). simpl in Hall.
    apply andb_prop in Hall as [Hk Hwv]. apply key_ok_spec in Hk as [Hk Hd].
    rewrite extractAllKeys_VObj. apply in_flat_map. exists (seg, v). split; [exact E|].
    simpl. apply (entry_addressed v prefix seg rest leaf); assumption.
Qed.

Lemma addressed_extracted D K leaf :
  is_container D = true -> well_keyed D = true ->
  address (JS.split "." K) D = Some leaf -> is_container leaf = false ->
  In K (extractAllKeys D "").
Proof.
  intros Hc Hw Ha Hl.
  pose proof (proj1 (addressed_all D) Hc Hw "" _ _ Ha Hl) as H.
  simpl fullKey in H. rewrite join_split in H. exact H.
Qed.

End ResolverFacts.

(** ** The score *)

Module ScoreFacts.
Local Open Scope Q_scope.

Lemma calculateScore_eq report config :
  calculateScore report config
  == Qmax 0 (1 - penalty_sum (weights_of config) report / 10).
Proof.
  unfold calculateScore, penalty_sum, weights_of, Object_values.
  cbn [fold_left k_missingKeys k_hardcodedStrings k_malformedKeys k_unusedKeys].
  apply Q.max_compat; [reflexivity|]. field.
Qed.

Lemma or_default_spec configured d :
  not_zero configured -> or_default configured d = spec_weight configured d.
Proof.
  unfold or_default, spec_weight, not_zero. destruct configured as [q|]; [|reflexivity].
  intros H. simpl. destruct (Qeq_bool q 0) eqn:E; [|reflexivity].
  apply Qeq_bool_iff in E. exfalso. exact (H q eq_refl E).
Qed.

(** Where no weight is configured as 0, the score is the one specified. *)
Lemma calculateScore_spec report config :
  not_zero (missingKeyWeight config) -> not_zero (hardcodedWeight config) ->
  not_zero (malformedWeight config) -> not_zero (unusedKeyWeight config) ->
  calculateScore report config == spec_score report config.
Proof.
  intros H1 H2 H3 H4. rewrite calculateScore_eq. unfold spec_score, weights_of, spec_weights.
  rewrite !or_default_spec by assumption. reflexivity.
Qed.

(** The score only reads the lengths of the four lists. *)
Lemma calculateScore_lengths r r' config :
  length (missingKeys r) = length (missingKeys r') ->
  length (hardcodedStrings r) = length (hardcodedStrings r') ->
  length (malformedKeys r) = length (malformedKeys r') ->
  length (unusedKeys r) = length (unusedKeys r') ->
  calculateScore r config = calculateScore r' config.
Proof.
  intros H1 H2 H3 H4. unfold calculateScore, count. rewrite H1, H2, H3, H4. reflexivity.
Qed.

End ScoreFacts.

(** ** Line numbers *)

Module LineFacts.

Lemma split_length sep l :
  length (JS.split sep l) = S (length (List.filter (JS.is_char sep) l)).
Proof.
  induction l as [|c l IH]; simpl; [reflexivity|].
  destruct (JS.is_char sep c); simpl.
  - rewrite IH. reflexivity.
  - destruct (JS.split sep l) as [|h t]; simpl in *; [discriminate | exact IH].
Qed.

Lemma getLineNumber_eq content index :
  FileScanner.getLineNumber content index = S (count_newlines (firstn index content)).
Proof. apply split_length. Qed.

End LineFacts.

(** ** The order of the files *)

Module OrderFacts.
Import GraderFacts RunFacts.

Lemma keys_in_perm env files files' :
  Permutation files files' ->
  (list_to_set (keys_in env files) : gset jstr) = list_to_set (keys_in env files').
Proof.
  intros H. apply list_to_set_perm_L. unfold keys_in.
  apply Permutation_flat_map, H.
Qed.

Lemma completed_perm config translations env files files' :
  Permutation files files' ->
  same_up_to_order (Returned (completed config translations env files))
                   (Returned (completed config translations env files')).
Proof.
  intros H.
  set (r := scanned_report translations env files).
  set (r' := scanned_report translations env files').
  assert (Permutation (missingKeys r) (missingKeys r')) as Hm
    by (apply Permutation_flat_map, H).
  assert (Permutation (hardcodedStrings r) (hardcodedStrings r')) as Hh
    by (apply Permutation_flat_map, H).
  assert (Permutation (malformedKeys r) (malformedKeys r')) as Hb
    by (apply Permutation_flat_map, H).
  assert (unusedKeys r = unusedKeys r') as Hu.
  { unfold r, r', scanned_report. cbn [unusedKeys].
    rewrite (keys_in_perm env files files' H). reflexivity. }
  assert (calculateScore r config = calculateScore r' config) as Hs.
  { apply ScoreFacts.calculateScore_lengths;
      try (apply Permutation_length; assumption). rewrite Hu. reflexivity. }
  unfold same_up_to_order, completed. fold r r'. cbn [success score report].
  rewrite Hs. repeat split.
  - unfold set_summary, summary_of. cbn [summary]. f_equal.
    rewrite (Permutation_length H), (keys_in_perm env files files' H),
      (Permutation_length Hm), (Permutation_length Hh), (Permutation_length Hb), Hu.
    reflexivity.
  - exact Hm.
  - exact Hh.
  - cbn [set_summary unusedKeys]. rewrite Hu. reflexivity.
  - exact Hb.
Qed.

End OrderFacts.

(** ** The arithmetic of the machine *)

Module DoubleFacts.
Import Double.
Local Open Scope Q_scope.

Lemma two_pos k : 0 < 2 ^ k.
Proof. apply Qpower_0_lt. reflexivity. Qed.

Lemma two_le k k' : (k <= k')%Z -> 2 ^ k <= 2 ^ k'.
Proof. intros H. apply Qpower_le_compat_l; [exact H | discriminate]. Qed.

Lemma two_lt k k' : (k < k')%Z -> 2 ^ k < 2 ^ k'.
Proof. intros H. apply Qpower_lt_compat_l; [exact H | reflexivity]. Qed.

Lemma two_plus k k' : 2 ^ (k + k') == 2 ^ k * 2 ^ k'.
Proof. apply Qpower_plus. discriminate. Qed.

Lemma two_Z k : (0 <= k)%Z -> inject_Z (2 ^ k) == 2 ^ k.
Proof. intros H. rewrite Zpower_Qpower by exact H. reflexivity. Qed.

Lemma Q_as_div q : q == inject_Z (Qnum q) / inject_Z (Z.pos (Qden q)).
Proof. destruct q as [n d]. simpl. apply Qmake_Qdiv. Qed.

Lemma ilog2_spec q : 0 < q -> 2 ^ ilog2 q <= q /\ q < 2 ^ (ilog2 q + 1).
Proof.
  intros Hq. unfold ilog2.
  set (n := Qnum q). set (d := Z.pos (Qden q)).
  assert (0 < n)%Z as Hn by (destruct q as [[] ?]; unfold Qlt in Hq; simpl in *; lia).
  assert (0 < d)%Z as Hd by reflexivity.
  pose proof (Z.log2_spec n Hn) as [Hn1 Hn2].
  pose proof (Z.log2_spec d Hd) as [Hd1 Hd2].
  pose proof (Z.log2_nonneg n) as Ha. pose proof (Z.log2_nonneg d) as Hb.
  set (a := Z.log2 n) in *. set (b := Z.log2 d) in *.
  assert (q * inject_Z d == inject_Z n) as Eq.
  { rewrite (Q_as_div q) at 1. fold n d. field. unfold Qeq. simpl. lia. }
  assert (0 < inject_Z d) as Hd' by (unfold Qlt; simpl; lia).
  assert (2 ^ a <= inject_Z n) as Qn1.
  { rewrite <- two_Z by exact Ha. rewrite <- Zle_Qle. exact Hn1. }
  assert (inject_Z n < 2 ^ (a + 1)) as Qn2.
  { rewrite <- two_Z by lia. rewrite <- Zlt_Qlt. replace (a + 1)%Z with (Z.succ a) by lia. exact Hn2. }
  assert (2 ^ b <= inject_Z d) as Qd1.
  { rewrite <- two_Z by exact Hb. rewrite <- Zle_Qle. exact Hd1. }
  assert (inject_Z d < 2 ^ (b + 1)) as Qd2.
  { rewrite <- two_Z by lia. rewrite <- Zlt_Qlt. replace (b + 1)%Z with (Z.succ b) by lia. exact Hd2. }
  destruct (Qle_bool (2 ^ (a - b)) q) eqn:E.
  - apply Qle_bool_iff in E. split; [exact E|].
    (* q * d = n < 2^(a+1) = 2^(a-b+1) * 2^b <= 2^(a-b+1) * d *)
    apply Qnot_le_lt. intros H.
    assert (2 ^ (a - b + 1) * 2 ^ b <= q * inject_Z d) as H'.
    { apply Qle_trans with (2 ^ (a - b + 1) * inject_Z d).
      - apply Qmult_le_l; [apply two_pos | exact Qd1].
      - apply Qmult_le_compat_r; [exact H | apply Qlt_le_weak, Hd']. }
    rewrite <- two_plus, Eq in H'. replace (a - b + 1 + b)%Z with (a + 1)%Z in H' by lia.
    apply (Qlt_not_le _ _ Qn2 H').
  - assert (q < 2 ^ (a - b)) as E'.
    { apply Qnot_le_lt. intros H. apply Qle_bool_iff in H. congruence. }
    replace (a - b - 1 + 1)%Z with (a - b)%Z by lia. split; [|exact E'].
    apply Qnot_lt_le. intros H.
    assert (q * inject_Z d < 2 ^ (a - b - 1) * 2 ^ (b + 1)) as H'.
    { apply Qlt_trans with (2 ^ (a - b - 1) * inject_Z d).
      - apply Qmult_lt_compat_r; [exact Hd' | exact H].
      - apply Qmult_lt_l; [apply two_pos | exact Qd2]. }
    rewrite <- two_plus, Eq in H'. replace (a - b - 1 + (b + 1))%Z with a in H' by lia.
    apply (Qlt_not_le _ _ H' Qn1).
Qed.

Lemma ilog2_unique q k : 2 ^ k <= q -> q < 2 ^ (k + 1) -> ilog2 q = k.
Proof.
  intros H1 H2.
  assert (0 < q) as Hq by (apply Qlt_le_trans with (2 ^ k); [apply two_pos | exact H1]).
  destruct (ilog2_spec q Hq) as [S1 S2].
  assert (ilog2 q < k + 1)%Z.
  { apply Z.lt_nge. intros H. apply (Qlt_not_le _ _ H2).
    apply Qle_trans with (2 ^ ilog2 q); [apply two_le, H | exact S1]. }
  assert (k < ilog2 q + 1)%Z.
  { apply Z.lt_nge. intros H'. apply (Qlt_not_le _ _ S2).
    apply Qle_trans with (2 ^ k); [apply two_le, H' | exact H1]. }
  lia.
Qed.

Lemma ilog2_le q q' : 0 < q -> q <= q' -> (ilog2 q <= ilog2 q')%Z.
Proof.
  intros Hq H.
  assert (0 < q') as Hq' by (apply Qlt_le_trans with q; assumption).
  destruct (ilog2_spec q Hq) as [S1 _]. destruct (ilog2_spec q' Hq') as [_ S2].
  apply Z.lt_succ_r, Z.lt_nge. intros H'. apply (Qlt_not_le _ _ S2).
  apply Qle_trans with q; [|exact H].
  apply Qle_trans with (2 ^ ilog2 q); [apply two_le; lia | exact S1].
Qed.

Lemma cexp_le q q' : 0 < q -> q <= q' -> (cexp q <= cexp q')%Z.
Proof. intros Hq H. unfold cexp. pose proof (ilog2_le q q' Hq H). lia. Qed.

Lemma rne_floor x : (Qfloor x <= rne x <= Qfloor x + 1)%Z.
Proof. unfold rne. destruct (_ ?= _); [destruct (Z.even _)|..]; lia. Qed.

Lemma rne_Z z : rne (inject_Z z) = z.
Proof.
  unfold rne. rewrite Qfloor_Z.
  assert (inject_Z z - inject_Z z == 0) as E by ring.
  rewrite E. reflexivity.
Qed.

Lemma rne_le x y : x <= y -> (rne x <= rne y)%Z.
Proof.
  intros H. pose proof (Qfloor_resp_le x y H) as Hf.
  pose proof (rne_floor x) as Hx. pose proof (rne_floor y) as Hy.
  destruct (Z.eq_dec (Qfloor x) (Qfloor y)) as [E|E]; [|lia].
  unfold rne. rewrite E.
  assert (x - inject_Z (Qfloor y) <= y - inject_Z (Qfloor y)) as H' by lra.
  destruct (Qcompare_spec (x - inject_Z (Qfloor y)) (1 # 2)) as [Cx|Cx|Cx];
    destruct (Qcompare_spec (y - inject_Z (Qfloor y)) (1 # 2)) as [Cy|Cy|Cy];
    try destruct (Z.even (Qfloor y)); try lia; exfalso; lra.
Qed.

Lemma rne_comp x y : x == y -> rne x = rne y.
Proof.
  intros H. apply Z.le_antisymm; apply rne_le; rewrite H; apply Qle_refl.
Qed.

Lemma rne_nonneg x : 0 <= x -> (0 <= rne x)%Z.
Proof. intros H. rewrite <- (rne_Z 0). apply rne_le. exact H. Qed.

Lemma nearest_nonneg a : 0 <= a -> 0 <= nearest a.
Proof.
  intros H. unfold nearest. apply Qmult_le_0_compat; [|apply Qlt_le_weak, two_pos].
  change 0 with (inject_Z 0). rewrite <- Zle_Qle. apply rne_nonneg.
  apply Qle_shift_div_l; [apply two_pos|]. lra.
Qed.

(** Rounding keeps the order. *)
Lemma nearest_le a b : 0 < a -> a <= b -> nearest a <= nearest b.
Proof.
  intros Ha H. unfold nearest.
  assert (0 < b) as Hb by (apply Qlt_le_trans with a; assumption).
  pose proof (cexp_le a b Ha H) as He.
  destruct (Z.eq_dec (cexp a) (cexp b)) as [E|E].
  - rewrite E. apply Qmult_le_compat_r; [|apply Qlt_le_weak, two_pos].
    rewrite <- Zle_Qle. apply rne_le.
    apply Qmult_le_compat_r; [exact H|]. apply Qlt_le_weak, Qinv_lt_0_compat, two_pos.
  - assert (cexp a < cexp b)%Z as Hlt by lia.
    destruct (ilog2_spec a Ha) as [_ Sa]. destruct (ilog2_spec b Hb) as [Sb _].
    assert (cexp b = ilog2 b - 52)%Z as Eb by (unfold cexp in *; lia).
    assert (ilog2 a + 1 <= cexp a + 53)%Z as Ea by (unfold cexp; lia).
    apply Qle_trans with (2 ^ 53 * 2 ^ cexp a).
    + apply Qmult_le_compat_r; [|apply Qlt_le_weak, two_pos].
      rewrite <- (two_Z 53) by lia. rewrite <- Zle_Qle.
      rewrite <- (rne_Z (2 ^ 53)). apply rne_le. rewrite two_Z by lia.
      apply Qle_shift_div_r; [apply two_pos|]. rewrite <- two_plus.
      apply Qlt_le_weak, Qlt_le_trans with (2 ^ (ilog2 a + 1)); [exact Sa|].
      apply two_le. lia.
    + apply Qle_trans with (2 ^ 52 * 2 ^ cexp b).
      * rewrite <- !two_plus. apply two_le. lia.
      * apply Qmult_le_compat_r; [|apply Qlt_le_weak, two_pos].
        rewrite <- (two_Z 52) by lia. rewrite <- Zle_Qle.
        rewrite <- (rne_Z (2 ^ 52)). apply rne_le. rewrite two_Z by lia.
        apply Qle_shift_div_l; [apply two_pos|]. rewrite <- two_plus.
        apply Qle_trans with (2 ^ ilog2 b); [apply two_le; lia | exact Sb].
Qed.

Lemma round_pos_eq q :
  0 < q ->
  round q = if overflows (nearest q) then Infinity false else Finite (Qred (nearest q)).
Proof. intros H. unfold round. destruct (Qcompare_spec q 0); try reflexivity; lra. Qed.

Lemma round_neg_eq q :
  q < 0 ->
  round q = if overflows (nearest (- q)) then Infinity true
            else Finite (Qred (- nearest (- q))).
Proof. intros H. unfold round. destruct (Qcompare_spec q 0); try reflexivity; lra. Qed.

Lemma round_zero_eq q : q == 0 -> round q = Finite 0.
Proof. intros H. unfold round. destruct (Qcompare_spec q 0); try reflexivity; lra. Qed.

Lemma leb_Finite a b : leb (Finite a) (Finite b) = true <-> a <= b.
Proof. apply Qle_bool_iff. Qed.

Lemma not_overflow a : overflows a = false -> a < 2 ^ 1024.
Proof.
  unfold overflows. intros H. apply Qnot_le_lt. intros H'. apply Qle_bool_iff in H'. congruence.
Qed.

(** Rounding keeps the order of the numbers. *)
Lemma round_le x y : x <= y -> leb (round x) (round y) = true.
Proof.
  intros H.
  destruct (Qcompare_spec x 0) as [Hx|Hx|Hx]; destruct (Qcompare_spec y 0) as [Hy|Hy|Hy];
    try (exfalso; lra).
  - rewrite (round_zero_eq x Hx), (round_zero_eq y Hy). reflexivity.
  - rewrite (round_zero_eq x Hx), (round_pos_eq y Hy).
    destruct (overflows (nearest y)); [reflexivity|].
    apply leb_Finite. rewrite Qred_correct. apply nearest_nonneg. lra.
  - rewrite (round_neg_eq x Hx), (round_zero_eq y Hy).
    destruct (overflows (nearest (- x))); [reflexivity|].
    apply leb_Finite. rewrite Qred_correct.
    assert (0 <= nearest (- x)) by (apply nearest_nonneg; lra). lra.
  - assert (nearest (- y) <= nearest (- x)) as Hn by (apply nearest_le; lra).
    rewrite (round_neg_eq x Hx), (round_neg_eq y Hy).
    destruct (overflows (nearest (- x))) eqn:Ex.
    + destruct (overflows (nearest (- y))); reflexivity.
    + apply not_overflow in Ex.
      destruct (overflows (nearest (- y))) eqn:Ey.
      * apply Qle_bool_iff in Ey. exfalso. lra.
      * apply leb_Finite. rewrite !Qred_correct. lra.
  - rewrite (round_neg_eq x Hx), (round_pos_eq y Hy).
    destruct (overflows (nearest (- x))); destruct (overflows (nearest y)); try reflexivity.
    apply leb_Finite. rewrite !Qred_correct.
    assert (0 <= nearest (- x)) by (apply nearest_nonneg; lra).
    assert (0 <= nearest y) by (apply nearest_nonneg; lra). lra.
  - assert (nearest x <= nearest y) as Hn by (apply nearest_le; lra).
    rewrite (round_pos_eq x Hx), (round_pos_eq y Hy).
    destruct (overflows (nearest y)) eqn:Ey.
    + destruct (overflows (nearest x)); reflexivity.
    + apply not_overflow in Ey.
      destruct (overflows (nearest x)) eqn:Ex.
      * apply Qle_bool_iff in Ex. exfalso. lra.
      * apply leb_Finite. rewrite !Qred_correct. lra.
Qed.

Lemma round_nonneg q : 0 <= q -> nonneg (round q).
Proof. intros H. apply (round_le 0 q H). Qed.

Lemma leb_refl x : x <> NaN -> leb x x = true.
Proof. destruct x as [|[]|a]; try reflexivity; [congruence|]. intros _. apply leb_Finite, Qle_refl. Qed.

Lemma leb_trans x y z : leb x y = true -> leb y z = true -> leb x z = true.
Proof.
  destruct x as [|[]|a], y as [|[]|b], z as [|[]|c]; simpl; try discriminate; try reflexivity.
  rewrite !Qle_bool_iff. apply Qle_trans.
Qed.

Lemma add_nonneg x y : nonneg x -> nonneg y -> nonneg (add x y).
Proof.
  unfold nonneg. destruct x as [|[]|a], y as [|[]|b]; simpl; try discriminate; try reflexivity.
  rewrite !Qle_bool_iff. intros Ha Hb. apply round_nonneg. lra.
Qed.

Lemma nonneg_cases x : nonneg x -> x = Infinity false \/ exists q, x = Finite q /\ 0 <= q.
Proof.
  unfold nonneg. destruct x as [|[]|q]; simpl; try discriminate; [left; reflexivity|].
  rewrite Qle_bool_iff. right. eauto.
Qed.

Lemma nonneg_le x x' : nonneg x -> leb x x' = true -> nonneg x'.
Proof. intros. eapply leb_trans; eassumption. Qed.

Lemma leb_top x : nonneg x -> leb x (Infinity false) = true.
Proof. unfold nonneg. destruct x as [|[]|]; simpl; try discriminate; reflexivity. Qed.

Lemma top_le x : leb (Infinity false) x = true -> x = Infinity false.
Proof. destruct x as [|[]|]; simpl; try discriminate; reflexivity. Qed.

Lemma add_top_l y : nonneg y -> add (Infinity false) y = Infinity false.
Proof. unfold nonneg. destruct y as [|[]|]; simpl; try discriminate; reflexivity. Qed.

Lemma add_top_r x : nonneg x -> add x (Infinity false) = Infinity false.
Proof. unfold nonneg. destruct x as [|[]|]; simpl; try discriminate; reflexivity. Qed.

Lemma add_le x x' y y' :
  nonneg x -> nonneg y -> leb x x' = true -> leb y y' = true ->
  leb (add x y) (add x' y') = true.
Proof.
  intros Hx Hy Hxx Hyy.
  pose proof (nonneg_le _ _ Hx Hxx) as Hx'. pose proof (nonneg_le _ _ Hy Hyy) as Hy'.
  pose proof (add_nonneg x y Hx Hy) as Hs.
  destruct (nonneg_cases x' Hx') as [->|(a' & -> & Ha')];
    [rewrite add_top_l by exact Hy'; apply leb_top, Hs|].
  destruct (nonneg_cases y' Hy') as [->|(b' & -> & Hb')];
    [rewrite add_top_r by exact Hx'; apply leb_top, Hs|].
  destruct (nonneg_cases x Hx) as [->|(a & -> & Ha)]; [apply top_le in Hxx; discriminate|].
  destruct (nonneg_cases y Hy) as [->|(b & -> & Hb)]; [apply top_le in Hyy; discriminate|].
  apply leb_Finite in Hxx, Hyy. apply round_le. lra.
Qed.

Lemma mul_count_nonneg n q : 0 <= q -> nonneg (mul (Finite (inject_Z (Z.of_nat n))) (Finite q)).
Proof.
  intros H. apply round_nonneg. apply Qmult_le_0_compat; [|exact H].
  change 0 with (inject_Z 0). rewrite <- Zle_Qle. lia.
Qed.

Lemma mul_count_le n n' q :
  (n <= n')%nat -> 0 <= q ->
  leb (mul (Finite (inject_Z (Z.of_nat n))) (Finite q))
      (mul (Finite (inject_Z (Z.of_nat n'))) (Finite q)) = true.
Proof.
  intros Hn H. apply round_le. apply Qmult_le_compat_r; [|exact H].
  rewrite <- Zle_Qle. lia.
Qed.

Lemma div_ten_nonneg x : nonneg x -> nonneg (div x (Finite 10)).
Proof.
  unfold nonneg. destruct x as [|[]|a]; simpl; try discriminate; try reflexivity.
  rewrite Qle_bool_iff. intros H. apply round_nonneg.
  apply Qle_shift_div_l; [reflexivity | lra].
Qed.

Lemma div_ten_le x x' :
  nonneg x -> leb x x' = true -> leb (div x (Finite 10)) (div x' (Finite 10)) = true.
Proof.
  unfold nonneg. destruct x as [|[]|a], x' as [|[]|a']; simpl; try discriminate; try reflexivity.
  - rewrite Qle_bool_iff. intros H _. pose proof (round_nonneg (a / 10)) as H'.
    unfold nonneg in H'.
    assert (0 <= a / 10) as Ha by (apply Qle_shift_div_l; [reflexivity | lra]).
    specialize (H' Ha). destruct (round (a / 10)) as [|[]|]; try reflexivity; discriminate.
  - rewrite !Qle_bool_iff. intros _ H. apply round_le.
    apply Qmult_le_compat_r; [exact H | discriminate].
Qed.

Lemma one_minus_le x x' :
  nonneg x -> leb x x' = true ->
  leb (sub (Finite 1) x') (sub (Finite 1) x) = true.
Proof.
  intros Hx Hxx. pose proof (nonneg_le _ _ Hx Hxx) as Hx'.
  destruct (nonneg_cases x Hx) as [->|(a & -> & Ha)].
  - apply top_le in Hxx. subst x'. reflexivity.
  - destruct (nonneg_cases x' Hx') as [->|(a' & -> & Ha')].
    + unfold sub. simpl. destruct (round (1 + - a)) as [|[]|] eqn:E; try reflexivity.
      pose proof (round_le (1 + - a) 1 ltac:(lra)) as H. rewrite E in H. discriminate.
    + apply leb_Finite in Hxx. apply round_le. lra.
Qed.

(** [1 - x] is at most 1, and not [NaN], when [x] is not negative. *)
Lemma one_minus_below x : nonneg x -> leb (sub (Finite 1) x) (Finite 1) = true.
Proof.
  intros Hx. destruct (nonneg_cases x Hx) as [->|(a & -> & Ha)]; [reflexivity|].
  apply (round_le (1 + - a) 1). lra.
Qed.

Lemma max_zero_le y y' :
  leb y y' = true -> leb (max (Finite 0) y) (max (Finite 0) y') = true.
Proof.
  destruct y as [|[]|b], y' as [|[]|b']; simpl; try discriminate; try reflexivity.
  - intros _. destruct (Qle_bool 0 b') eqn:E; simpl; [exact E | reflexivity].
  - intros _. destruct (Qle_bool 0 b); reflexivity.
  - intros H. apply Qle_bool_iff in H.
    destruct (Qle_bool 0 b) eqn:E, (Qle_bool 0 b') eqn:E'; apply leb_Finite;
      try apply Qle_bool_iff in E; try apply Qle_bool_iff in E'; try lra.
    apply not_true_iff_false in E'. exfalso. apply E', Qle_bool_iff. lra.
Qed.

Lemma max_zero_bounds y :
  leb y (Finite 1) = true ->
  exists q, max (Finite 0) y = Finite q /\ 0 <= q <= 1.
Proof.
  destruct y as [|[]|b]; simpl; try discriminate.
  - intros _. exists 0. split; [reflexivity | lra].
  - intros H. apply Qle_bool_iff in H. destruct (Qle_bool 0 b) eqn:E.
    + apply Qle_bool_iff in E. exists b. split; [reflexivity | lra].
    + exists 0. split; [reflexivity | lra].
Qed.

End DoubleFacts.

Module DoubleScoreFacts.
Import Double DoubleFacts DoubleScore.
Local Open Scope Q_scope.

Lemma double_score_eq report config :
  calculateScore report config
  = max (Finite 0) (sub (Finite 1) (div (totalPenalty report config) (Finite 10))).
Proof. reflexivity. Qed.

(** A weight is a finite number that is not negative. *)
Lemma or_default_ok configured d :
  weight_okb configured = true -> (exists q, d = Finite q /\ 0 <= q) ->
  exists q, or_default configured d = Finite q /\ 0 <= q.
Proof.
  intros H Hd. destruct configured as [[|s|q]|]; simpl in *; try assumption; [discriminate|].
  destruct (Qeq_bool q 0); [assumption|]. apply Qle_bool_iff in H. eauto.
Qed.

Lemma double_weights_ok config :
  weights_okb config = true ->
  exists w1 w2 w3 w4,
    weights_of config
    = {| k_missingKeys := Finite w1; k_hardcodedStrings := Finite w2;
         k_malformedKeys := Finite w3; k_unusedKeys := Finite w4 |} /\
    0 <= w1 /\ 0 <= w2 /\ 0 <= w3 /\ 0 <= w4.
Proof.
  unfold weights_okb. intros H.
  apply andb_prop in H as [H H4]. apply andb_prop in H as [H H3].
  apply andb_prop in H as [H1 H2].
  destruct (or_default_ok _ (literal (4 # 10)) H1) as (w1 & E1 & P1);
    [eexists; split; [vm_compute; reflexivity | discriminate]|].
  destruct (or_default_ok _ (literal (3 # 10)) H2) as (w2 & E2 & P2);
    [eexists; split; [vm_compute; reflexivity | discriminate]|].
  destruct (or_default_ok _ (literal (2 # 10)) H3) as (w3 & E3 & P3);
    [eexists; split; [vm_compute; reflexivity | discriminate]|].
  destruct (or_default_ok _ (literal (1 # 10)) H4) as (w4 & E4 & P4);
    [eexists; split; [vm_compute; reflexivity | discriminate]|].
  exists w1, w2, w3, w4. unfold weights_of. rewrite E1, E2, E3, E4. auto.
Qed.

Lemma totalPenalty_nonneg report config :
  weights_okb config = true -> nonneg (totalPenalty report config).
Proof.
  intros H. destruct (double_weights_ok config H) as (w1 & w2 & w3 & w4 & E & P1 & P2 & P3 & P4).
  unfold totalPenalty. rewrite E. cbn [k_missingKeys k_hardcodedStrings k_malformedKeys k_unusedKeys].
  unfold count.
  repeat apply add_nonneg; try (apply mul_count_nonneg; assumption).
  apply leb_Finite. lra.
Qed.

Lemma totalPenalty_le r r' config :
  weights_okb config = true -> no_fewer r r' ->
  leb (totalPenalty r config) (totalPenalty r' config) = true.
Proof.
  intros H (L1 & L2 & L3 & L4).
  destruct (double_weights_ok config H) as (w1 & w2 & w3 & w4 & E & P1 & P2 & P3 & P4).
  unfold totalPenalty. rewrite E. cbn [k_missingKeys k_hardcodedStrings k_malformedKeys k_unusedKeys].
  unfold count.
  assert (nonneg (Finite 0)) as H0 by (apply leb_Finite; lra).
  repeat (apply add_le;
          [repeat apply add_nonneg; try (apply mul_count_nonneg; assumption); exact H0
          |apply mul_count_nonneg; assumption | | apply mul_count_le; assumption]).
  apply leb_Finite. lra.
Qed.

Lemma double_score_bounds report config :
  weights_okb config = true ->
  exists q, calculateScore report config = Finite q /\ 0 <= q <= 1.
Proof.
  intros H. rewrite double_score_eq.
  apply max_zero_bounds, one_minus_below, div_ten_nonneg, totalPenalty_nonneg, H.
Qed.

Lemma double_score_antitone r r' config :
  weights_okb config = true -> no_fewer r r' ->
  leb (calculateScore r' config) (calculateScore r config) = true.
Proof.
  intros H Hr. rewrite !double_score_eq.
  apply max_zero_le, one_minus_le; [apply div_ten_nonneg, totalPenalty_nonneg, H|].
  apply div_ten_le; [apply totalPenalty_nonneg, H | apply totalPenalty_le; assumption].
Qed.

Lemma round_canonical q a : round q = Finite a -> Qred a = a.
Proof.
  unfold round. destruct (q ?= 0); [|destruct (overflows _)..]; intros H; inversion H;
    try reflexivity; apply Qred_complete, Qred_correct.
Qed.

Lemma add_rounds x y a : add x y = Finite a -> exists q, round q = Finite a.
Proof.
  destruct x as [|s|b], y as [|s'|c]; simpl; try discriminate; eauto.
  destruct (Bool.eqb s s'); discriminate.
Qed.

(** No number lies between [below_ten] and 10. *)
Lemma round_below_ten q a : round q = Finite a -> a < 10 -> a <= below_ten.
Proof.
  intros E Ha.
  destruct (Qlt_le_dec q 10) as [Hq|Hq].
  - destruct (Qlt_le_dec below_ten q) as [Hb|Hb].
    + assert (0 < q) as Hpos by (eapply Qlt_trans; [|exact Hb]; reflexivity).
      assert (ilog2 q = 3%Z) as El.
      { apply ilog2_unique.
        - apply Qlt_le_weak. eapply Qle_lt_trans; [|exact Hb]. discriminate.
        - eapply Qlt_trans; [exact Hq | reflexivity]. }
      assert (cexp q = (-49)%Z) as Ec by (unfold cexp; rewrite El; reflexivity).
      rewrite (round_pos_eq q Hpos) in E. unfold nearest in E. rewrite Ec in E.
      set (x := q / 2 ^ (-49)) in E.
      assert (inject_Z (5629499534213119) < x) as Hx1.
      { unfold x. apply Qlt_shift_div_l; [reflexivity|].
        eapply Qle_lt_trans; [|exact Hb]. discriminate. }
      assert (x < inject_Z 5629499534213120) as Hx2.
      { unfold x. apply Qlt_shift_div_r; [reflexivity|].
        eapply Qlt_le_trans; [exact Hq|]. discriminate. }
      assert (Qfloor x = 5629499534213119%Z) as Ef.
      { pose proof (Qfloor_le x) as F1. pose proof (Qlt_floor x) as F2.
        assert (inject_Z 5629499534213119 < inject_Z (Qfloor x + 1)) as G1
          by (eapply Qlt_trans; eassumption).
        assert (inject_Z (Qfloor x) < inject_Z 5629499534213120) as G2
          by (eapply Qle_lt_trans; eassumption).
        rewrite <- Zlt_Qlt in G1, G2. lia. }
      pose proof (rne_floor x) as Hr. rewrite Ef in Hr.
      assert (rne x = 5629499534213119 \/ rne x = 5629499534213120)%Z as [Er|Er] by lia;
        rewrite Er in E.
      * assert (a = Qred (inject_Z 5629499534213119 * 2 ^ (-49))) as ->
          by (destruct (overflows _); [discriminate | inversion E; reflexivity]).
        discriminate.
      * assert (a = Qred (inject_Z 5629499534213120 * 2 ^ (-49))) as ->
          by (destruct (overflows _); [discriminate | inversion E; reflexivity]).
        exfalso. revert Ha. vm_compute. discriminate.
    + pose proof (round_le q below_ten Hb) as H. rewrite E in H.
      assert (round below_ten = Finite (Qred below_ten)) as E' by (vm_compute; reflexivity).
      rewrite E' in H. apply leb_Finite in H. rewrite Qred_correct in H. exact H.
  - pose proof (round_le 10 q Hq) as H. rewrite E in H.
    assert (round 10 = Finite 10) as E' by (vm_compute; reflexivity).
    rewrite E' in H. apply leb_Finite in H. exfalso. apply (Qlt_not_le _ _ Ha H).
Qed.

Lemma mul_zero w :
  mul (Finite (inject_Z (Z.of_nat 0))) w = match w with Finite _ => Finite 0 | _ => NaN end.
Proof.
  destruct w as [|s|q]; reflexivity.
Qed.

Lemma clean_penalty configured d q :
  d = Finite q ->
  mul (Finite (inject_Z (Z.of_nat 0))) (or_default configured d)
  = if weight_finite configured then Finite 0 else NaN.
Proof.
  intros ->. rewrite mul_zero. destruct configured as [[|s|c]|]; try reflexivity.
  simpl. destruct (Qeq_bool c 0); reflexivity.
Qed.

Lemma clean_totalPenalty report config :
  missingKeys report = [] -> hardcodedStrings report = [] ->
  malformedKeys report = [] -> unusedKeys report = [] ->
  totalPenalty report config = if weights_finite config then Finite 0 else NaN.
Proof.
  intros H1 H2 H3 H4. unfold totalPenalty, weights_of, count, weights_finite.
  cbn [k_missingKeys k_hardcodedStrings k_malformedKeys k_unusedKeys].
  rewrite H1, H2, H3, H4. cbn [length].
  rewrite (clean_penalty (missingKeyWeight config) (literal (4 # 10)) _ ltac:(vm_compute; reflexivity)),
    (clean_penalty (hardcodedWeight config) (literal (3 # 10)) _ ltac:(vm_compute; reflexivity)),
    (clean_penalty (malformedWeight config) (literal (2 # 10)) _ ltac:(vm_compute; reflexivity)),
    (clean_penalty (unusedKeyWeight config) (literal (1 # 10)) _ ltac:(vm_compute; reflexivity)).
  destruct (weight_finite (missingKeyWeight config)), (weight_finite (hardcodedWeight config)),
    (weight_finite (malformedWeight config)), (weight_finite (unusedKeyWeight config));
    reflexivity.
Qed.

(** From a total penalty of 10 on the score is 0. *)
Lemma score_zero p :
  leb (Finite 10) p = true ->
  max (Finite 0) (sub (Finite 1) (div p (Finite 10))) = Finite 0.
Proof.
  destruct p as [|[]|a]; simpl; try discriminate; [reflexivity|].
  intros H. apply Qle_bool_iff in H.
  pose proof (round_le 1 (a / 10)) as Hx.
  assert (round 1 = Finite 1) as E1 by (vm_compute; reflexivity). rewrite E1 in Hx.
  specialize (Hx ltac:(apply Qle_shift_div_l; [reflexivity | lra])).
  unfold sub. destruct (round (a / 10)) as [|[]|b]; simpl in *; try discriminate; [reflexivity|].
  apply Qle_bool_iff in Hx.
  pose proof (round_le (1 + - b) 0 ltac:(lra)) as Hy.
  assert (round 0 = Finite 0) as E0 by reflexivity. rewrite E0 in Hy.
  destruct (round (1 + - b)) as [|[]|e] eqn:Ee; simpl in *; try discriminate; [reflexivity|].
  apply Qle_bool_iff in Hy.
  destruct (Qle_bool 0 e) eqn:E; [|reflexivity].
  apply Qle_bool_iff in E. f_equal.
  rewrite <- (round_canonical _ _ Ee). apply (Qred_complete e 0). lra.
Qed.

(** Below a total penalty of 10 the score is above 0. *)
Lemma score_positive p :
  (forall a, p = Finite a -> exists q, round q = Finite a) ->
  ltb p (Finite 10) = true ->
  ltb (Finite 0) (max (Finite 0) (sub (Finite 1) (div p (Finite 10)))) = true.
Proof.
  intros Hp. destruct p as [|[]|a]; cbn [ltb]; try discriminate; [reflexivity|].
  intros H. apply negb_true_iff in H.
  assert (a < 10) as Ha.
  { apply Qnot_le_lt. intros H'. apply Qle_bool_iff in H'. congruence. }
  destruct (Hp a eq_refl) as (q & Eq).
  pose proof (round_below_ten q a Eq Ha) as Hb.
  pose proof (round_le (a / 10) (below_ten / 10)
                ltac:(apply Qmult_le_compat_r; [exact Hb | discriminate])) as Hx.
  remember (2 ^ (-52)) as d eqn:Ed0.
  assert (0 < d) as Hd by (subst d; reflexivity).
  assert (round d = Finite d) as Ed by (subst d; vm_compute; reflexivity).
  assert (round (below_ten / 10) = Finite (1 - d)) as Ec by (subst d; vm_compute; reflexivity).
  clear Ed0. rewrite Ec in Hx. clear Ec Hb Eq Hp H.
  unfold sub, div. change (Qeq_bool 10 0) with false. cbn iota.
  destruct (round (a / 10)) as [|[]|b]; cbn [leb neg add] in *; try discriminate;
    [reflexivity|].
  apply Qle_bool_iff in Hx.
  pose proof (round_le d (1 + - b) ltac:(lra)) as Hy. rewrite Ed in Hy.
  destruct (round (1 + - b)) as [|[]|e]; cbn [leb max ltb] in *; try discriminate;
    [reflexivity|].
  apply Qle_bool_iff in Hy.
  assert (Qle_bool 0 e = true) as -> by (apply Qle_bool_iff; lra).
  cbn [ltb]. apply negb_true_iff. apply not_true_iff_false. intros H'.
  apply Qle_bool_iff in H'. lra.
Qed.

Lemma push_length {A} (l : list A) x : length (push l x) = S (length l).
Proof. unfold push. rewrite length_app. simpl. lia. Qed.

(** On the sums of the scores, at the ends of the range and between two
    numbers, the operations of [Double] give what the machine gives. *)
Remark rounding_agrees_with_the_machine :
  forallb (fun k => Double.eqb (binary64 (PrimFloat.div (machine k) (machine 10)))
                               (literal (k # 10)))
          [1; 2; 3; 4; 8]%Z = true /\
  forallb (fun c => match c with
                    | (m, h, b, u) =>
                        Double.eqb (binary64 (machine_score m h b u)) (double_score m h b u)
                    end)
          [(0, 0, 0, 0); (1, 0, 0, 0); (3, 2, 1, 0); (18, 8, 1, 2); (25, 0, 0, 0);
           (7, 5, 3, 1); (1, 1, 1, 1); (12, 9, 4, 17); (100, 100, 100, 100)]%Z = true /\
  binary64 (PrimFloat.sub (machine 1) (PrimFloat.div (PrimFloat.opp (machine 1)) (machine 10)))
  = sub (Finite 1) (div (Finite (-1)) (Finite 10)) /\
  binary64 (PrimFloat.add (FloatOps.Z.ldexp (machine (2 ^ 53 - 1)) 971)
                          (FloatOps.Z.ldexp (machine 1) 970))
  = add (Finite ((2 ^ 53 - 1) * 2 ^ 971)) (Finite (2 ^ 970)) /\
  binary64 (PrimFloat.add (FloatOps.Z.ldexp (machine (2 ^ 53 - 1)) 971)
                          (FloatOps.Z.ldexp (machine 1) 969))
  = add (Finite ((2 ^ 53 - 1) * 2 ^ 971)) (Finite (2 ^ 969)) /\
  binary64 (PrimFloat.div (FloatOps.Z.ldexp (machine 3) (-1074)) (machine 2))
  = div (Finite (3 * 2 ^ (-1074))) (Finite 2) /\
  binary64 (PrimFloat.div (FloatOps.Z.ldexp (machine 1) (-1074)) (machine 2))
  = div (Finite (2 ^ (-1074))) (Finite 2) /\
  binary64 (PrimFloat.mul (machine 0) PrimFloat.infinity) = mul (Finite 0) (Infinity false) /\
  binary64 (PrimFloat.mul (FloatOps.Z.ldexp (machine 1) 1000) (FloatOps.Z.ldexp (machine 1) 1000))
  = mul (Finite (2 ^ 1000)) (Finite (2 ^ 1000)).
Proof. repeat split; vm_compute; reflexivity. Qed.

(** On the machine the scores of the examples of C3 and C4 are the numbers
    of the exact arithmetic: 0.96, that is the number nearest to it, and 0.5,
    which does not reach the default minimum. *)
Remark example_scores_on_the_machine :
  calculateScore one_missing_key (double_config zero_missing_weight) = literal (96 # 100) /\
  calculateScore one_missing_key (double_config zero_minimum_score) = Finite (1 # 2) /\
  success (calculateScore one_missing_key (double_config zero_minimum_score))
          (double_config zero_minimum_score) = false /\
  double_config default_config = no_numbers.
Proof. repeat split; vm_compute; reflexivity. Qed.

End DoubleScoreFacts.

(** * The claims *)

Import Regex RegexFacts GraderFacts HardcodedFacts RunFacts ClassifierFacts
  StringFacts ResolverFacts ScoreFacts LineFacts OrderFacts.

(** *** C1 *)

(** C1 (the code departs from the claim).  A usage of a key is reported as
    missing when [resolveKey] gives a falsy value, not only when it gives
    [undefined]: here [resolveKey] resolves [a] to the empty string, which is
    defined, and the run still appends [{file, key: 'a'}] to [missingKeys]. *)
Theorem empty_translation_reported_missing :
  resolveKey empty_leaf_document "a" = Some (VStr []) /\
  option_map missingKeys
    (findings (gradeLanguageImplementation default_config
                 (host empty_leaf_document one_usage_of_a)))
  = Some [{| uf_file := "App.js"; uf_key := "a" |}].
Proof. split; vm_compute; reflexivity. Qed.

(** What the run does: a usage is reported exactly when the resolved value
    is falsy. *)
Lemma missing_iff_falsy config env res rep translations f :
  gradeLanguageImplementation config env = Returned res ->
  report res = Findings rep ->
  loadTranslations config env = inl translations ->
  (In f (missingKeys rep) <->
   exists file m,
     In file (glob_sync env (sourcePattern config) (ignorePattern config)) /\
     In m (usages_in env file) /\
     f = {| uf_file := file; uf_key := usage_key m |} /\
     truthy (resolveKey translations (usage_key m)) = false).
Proof.
  intros Hg Hr Hl. destruct (grade_findings _ _ _ _ Hg Hr) as (tr & Hl' & ->).
  rewrite Hl in Hl'. inversion Hl'; subst tr. simpl in Hr. inversion Hr; subst rep.
  cbn [set_summary missingKeys scanned_report]. rewrite in_flat_map. split.
  - intros (file & Hfile & H). unfold missing_of in H.
    apply in_flat_map in H as (m & Hm & H). exists file, m.
    destruct (truthy _) eqn:E; simpl in H; [destruct H|].
    destruct H as [<-|[]]. auto.
  - intros (file & m & Hfile & Hm & -> & E). exists file. split; [exact Hfile|].
    unfold missing_of. apply in_flat_map. exists m. split; [exact Hm|].
    rewrite E. simpl. auto.
Qed.

(** *** C2 *)

(** C2, as stated, fails in both directions: the path [a] is not extracted
    from [{a:{b:'x'}}] and resolves (to the inner mapping); the key [a.b] is
    extracted from [{'a.b':'x'}] and does not resolve. *)
Lemma roundtrip_counterexample :
  (~ In (chars "a") (extractAllKeys nested_document "") /\
   resolveKey nested_document "a" = Some (VObj [(chars "b", VStr "x")])) /\
  (In (chars "a.b") (extractAllKeys dotted_key_document "") /\
   resolveKey dotted_key_document "a.b" = None).
Proof.
  split; split.
  - vm_compute. intros [H|[]]. discriminate.
  - reflexivity.
  - vm_compute. left. reflexivity.
  - reflexivity.
Qed.

(** C2 (amended).  In a document (a mapping or a sequence) whose mapping
    keys are distinct, not empty and free of dots: every key of
    [extractAllKeys] resolves, [resolveKey] gives a defined value, a scalar
    leaf; the extracted keys are exactly the paths that address a scalar leaf
    through keys of mappings and canonical decimal indices of sequences; and
    what such a path addresses is what [resolveKey] returns for it.  (A path
    that is not extracted may still resolve: to an interior mapping or
    sequence, through an index that is not canonical, or into a string.) *)
Theorem extracted_keys_resolve D K :
  is_container D = true -> well_keyed D = true ->
  (In K (extractAllKeys D "") ->
   exists leaf, resolveKey D K = Some leaf /\ is_container leaf = false) /\
  (In K (extractAllKeys D "") <->
   exists leaf, address (JS.split "." K) D = Some leaf /\ is_container leaf = false) /\
  (forall leaf, address (JS.split "." K) D = Some leaf -> resolveKey D K = Some leaf).
Proof.
  intros Hc Hw. split; [|split].
  - intros Hin. destruct (extracted_addressed D K Hc Hw Hin) as (leaf & Ha & Hl).
    exists leaf. split; [apply address_resolveKey, Ha | exact Hl].
  - split.
    + apply extracted_addressed; assumption.
    + intros (leaf & Ha & Hl). exact (addressed_extracted D K leaf Hc Hw Ha Hl).
  - intros leaf. apply address_resolveKey.
Qed.

Lemma extracted_keys_resolve_witness :
  is_container screen_document = true /\ well_keyed screen_document = true /\
  In (chars "screen.buttons.0.label") (extractAllKeys screen_document "") /\
  exists leaf, resolveKey screen_document "screen.buttons.0.label" = Some leaf /\
               is_container leaf = false.
Proof.
  assert (In (chars "screen.buttons.0.label") (extractAllKeys screen_document "")) as H
    by (vm_compute; right; left; reflexivity).
  split; [reflexivity|]. split; [reflexivity|]. split; [exact H|].
  exact (proj1 (extracted_keys_resolve screen_document "screen.buttons.0.label"
                  eq_refl eq_refl) H).
Defined.

(** *** C3 *)

(** C3 (the code departs from the claim).  A weight configured as 0 is
    replaced by its default: with [missingKeyWeight: 0] and one missing key
    the score is 1 - 0.4/10 = 0.96, where the claimed formula gives 1. *)
Theorem zero_weight_replaced_by_default :
  (calculateScore one_missing_key zero_missing_weight == 96 # 100)%Q /\
  (spec_score one_missing_key zero_missing_weight == 1)%Q.
Proof. split; vm_compute; reflexivity. Qed.

(** *** C4 *)

(** C4 (the code departs from the claim).  A [minimumScore] configured as 0
    is replaced by 0.8: the run below has one missing key of weight 5, its
    score is 0.5, which is not below the configured 0, and [success] is
    false. *)
Theorem zero_minimum_replaced_by_default :
  let out := gradeLanguageImplementation zero_minimum_score
               (host (VObj []) one_usage_of_a) in
  option_map success (returned out) = Some false /\
  option_map (fun r => Qeq_bool (score r) (1 # 2)) (returned out) = Some true /\
  option_map (fun r => Qle_bool 0 (score r)) (returned out) = Some true.
Proof. repeat split; vm_compute; reflexivity. Qed.

(** What the run does: the threshold is the configured one unless it is
    absent or 0. *)
Lemma success_threshold config env res rep :
  gradeLanguageImplementation config env = Returned res ->
  report res = Findings rep ->
  success res = Qle_bool (or_default (minimumScore config) (8 # 10)) (score res).
Proof.
  intros Hg Hr. destruct (grade_findings _ _ _ _ Hg Hr) as (tr & _ & ->). reflexivity.
Qed.

(** *** C5 *)




(** *** C6 *)

(** C6, as stated, fails on a text with white space around it: [" ab "] has
    the trimmed length 2 and is flagged, since its own length is 4. *)
Lemma untrimmed_text_flagged :
  shouldFlagAsHardcoded " ab " = true /\ claimed_flag " ab " = false /\
  length (JS.trim " ab ") = 2%nat.
Proof. repeat split; vm_compute; reflexivity. Qed.

(** C6 (amended).  [shouldFlagAsHardcoded(text)] is true if and only if the
    length of [text] as it is passed (not trimmed again) is greater than 3,
    [text] is not all white space and matches none of the exclusions; on a
    trimmed text, which is what both callers pass, this is the trimmed
    length.  The four examples hold. *)
Theorem shouldFlagAsHardcoded_characterised text :
  shouldFlagAsHardcoded text
  = (3 <? length text)%nat && negb (all_whitespace text) && negb (excluded text) /\
  shouldFlagAsHardcoded (JS.trim text) = claimed_flag (JS.trim text) /\
  shouldFlagAsHardcoded "Hi" = false /\ shouldFlagAsHardcoded "#fff" = false /\
  shouldFlagAsHardcoded "PRICE" = false /\ shouldFlagAsHardcoded "Hello World" = true.
Proof.
  assert (forall t, shouldFlagAsHardcoded t
            = (3 <? length t)%nat && negb (all_whitespace t) && negb (excluded t)) as E.
  { intros t. rewrite shouldFlagAsHardcoded_eq.
    rewrite <- !andb_assoc. f_equal. apply andb_comm. }
  split; [apply E|]. split.
  - unfold claimed_flag. rewrite trim_idem. apply E.
  - repeat split; vm_compute; reflexivity.
Qed.

(** *** C7 *)

Lemma starts_with_app p l : JS.starts_with p (p ++ l) = true.
Proof.
  induction p as [|a p IH]; simpl; [reflexivity|].
  unfold JS.is_char at 1. rewrite Ascii.eqb_refl. exact IH.
Qed.

Lemma includes_str_app needle pre post :
  JS.includes_str needle (pre ++ needle ++ post) = true.
Proof.
  induction pre as [|c pre IH].
  - simpl app. destruct (needle ++ post) eqn:E; simpl;
      rewrite <- ?E, starts_with_app; reflexivity.
  - simpl. rewrite IH. apply orb_true_r.
Qed.

(** C7.  When the translation file is absent, or its content does not
    parse, the run returns [{success: false, score: 0, report: {error}}]: the
    report is the error string alone, it holds the phrase "Translation file
    not found" when the file is absent, and the result does not depend on the
    source files (no later stage runs). *)
Theorem load_failure_short_circuits config env :
  existsSync env (translationFile config) = false \/
  (exists data message,
     existsSync env (translationFile config) = true /\
     readFileSync env (translationFile config) = inl data /\
     JSON_parse env data = inr message) ->
  exists error,
    gradeLanguageImplementation config env
    = Returned {| success := false; score := 0; report := Failure error |} /\
    (existsSync env (translationFile config) = false ->
     JS.includes_str "Translation file not found" error = true) /\
    (forall env', same_translation_file config env env' ->
       gradeLanguageImplementation config env'
       = Returned {| success := false; score := 0; report := Failure error |}).
Proof.
  intros H.
  assert (exists message, loadTranslations config env = inr message /\
            (existsSync env (translationFile config) = false ->
             message = "Translation file not found: " ++ translationFile config))
    as (message & Hload & Habsent).
  { unfold loadTranslations. destruct H as [H|(data & message & He & Hr & Hp)].
    - rewrite H. eauto.
    - rewrite He, Hr, Hp. exists message. split; [reflexivity|]. congruence. }
  exists ("Failed to load translation file: " ++ message). repeat split.
  - rewrite grade_eq, Hload. reflexivity.
  - intros Ha. rewrite (Habsent Ha).
    apply (includes_str_app "Translation file not found"
             "Failed to load translation file: " (": " ++ translationFile config)).
  - intros env' (He & Hr & Hp). rewrite grade_eq.
    assert (loadTranslations config env' = inr message) as ->; [|reflexivity].
    unfold loadTranslations in *. rewrite He, Hr.
    destruct (existsSync env (translationFile config)); [|exact Hload].
    destruct (readFileSync env (translationFile config)); [|exact Hload].
    rewrite Hp. exact Hload.
Qed.

Lemma load_failure_short_circuits_witness :
  (existsSync (host_without_translations one_usage_of_a) (translationFile default_config) = false \/
   (exists data message,
      existsSync (host_without_translations one_usage_of_a) (translationFile default_config) = true /\
      readFileSync (host_without_translations one_usage_of_a) (translationFile default_config)
      = inl data /\
      JSON_parse (host_without_translations one_usage_of_a) data = inr message)) /\
  exists error,
    gradeLanguageImplementation default_config (host_without_translations one_usage_of_a)
    = Returned {| success := false; score := 0; report := Failure error |} /\
    (existsSync (host_without_translations one_usage_of_a) (translationFile default_config) = false ->
     JS.includes_str "Translation file not found" error = true) /\
    (forall env', same_translation_file default_config (host_without_translations one_usage_of_a) env' ->
       gradeLanguageImplementation default_config env'
       = Returned {| success := false; score := 0; report := Failure error |}).
Proof.
  split; [left; reflexivity|].
  apply (load_failure_short_circuits default_config (host_without_translations one_usage_of_a)).
  left. reflexivity.
Defined.

(** *** C8 *)

(** C8, as stated, fails in two ways.  For the weight -1, one more missing
    key raises the score from 1 to 1.1, above 1.  For the weight [Infinity],
    which is not negative, the score of a report without findings is
    [0 * Infinity], which is [NaN] and in no interval. *)
Lemma negative_weight_raises_score :
  Double.ltb (Double.calculateScore emptyReport negative_missing_weight)
             (Double.calculateScore
                (push_missingKey emptyReport {| uf_file := "App.js"; uf_key := "a" |})
                negative_missing_weight) = true /\
  Double.ltb (Double.Finite 1)
             (Double.calculateScore
                (push_missingKey emptyReport {| uf_file := "App.js"; uf_key := "a" |})
                negative_missing_weight) = true /\
  Double.calculateScore emptyReport infinite_missing_weight = Double.NaN.
Proof. repeat split; vm_compute; reflexivity. Qed.

(** C8 (amended).  For every report and every configuration in which every
    configured weight is a finite number that is not negative, one more
    finding of any of the four kinds never increases the score, and the score
    is a number of [0, 1]. *)
Theorem score_monotone_and_bounded report config :
  DoubleScore.weights_okb config = true ->
  (exists q, Double.calculateScore report config = Double.Finite q /\ (0 <= q <= 1)%Q) /\
  (forall f, Double.leb (Double.calculateScore (push_missingKey report f) config)
                        (Double.calculateScore report config) = true) /\
  (forall f, Double.leb (Double.calculateScore (push_hardcodedString report f) config)
                        (Double.calculateScore report config) = true) /\
  (forall f, Double.leb (Double.calculateScore (push_malformedKey report f) config)
                        (Double.calculateScore report config) = true) /\
  (forall key, Double.leb (Double.calculateScore (push_unusedKey report key) config)
                          (Double.calculateScore report config) = true).
Proof.
  intros H. split; [apply DoubleScoreFacts.double_score_bounds, H|].
  repeat split; intros f; apply DoubleScoreFacts.double_score_antitone; try exact H;
    unfold DoubleScore.no_fewer;
    cbn [push_missingKey push_hardcodedString push_malformedKey push_unusedKey
         missingKeys hardcodedStrings malformedKeys unusedKeys];
    rewrite ?DoubleScoreFacts.push_length; lia.
Qed.

Lemma score_monotone_and_bounded_witness :
  DoubleScore.weights_okb no_numbers = true /\
  (exists q, Double.calculateScore one_missing_key no_numbers = Double.Finite q /\
             (0 <= q <= 1)%Q) /\
  (forall f, Double.leb (Double.calculateScore (push_missingKey one_missing_key f) no_numbers)
                        (Double.calculateScore one_missing_key no_numbers) = true) /\
  (forall f, Double.leb (Double.calculateScore (push_hardcodedString one_missing_key f) no_numbers)
                        (Double.calculateScore one_missing_key no_numbers) = true) /\
  (forall f, Double.leb (Double.calculateScore (push_malformedKey one_missing_key f) no_numbers)
                        (Double.calculateScore one_missing_key no_numbers) = true) /\
  (forall key, Double.leb (Double.calculateScore (push_unusedKey one_missing_key key) no_numbers)
                          (Double.calculateScore one_missing_key no_numbers) = true).
Proof.
  split; [reflexivity|].
  exact (score_monotone_and_bounded one_missing_key no_numbers eq_refl).
Defined.

(** *** C9 *)

(** C9.  Grading a list of source files and grading a permutation of it
    give the same score, the same success flag, the same summary, and lists
    of findings that are permutations of each other; a run that fails or
    throws does so for both orders. *)
Theorem file_order_irrelevant config env files files' :
  Permutation files files' ->
  same_up_to_order (gradeLanguageImplementation config (with_files env files))
                   (gradeLanguageImplementation config (with_files env files')).
Proof.
  intros H. rewrite !grade_eq.
  change (loadTranslations config (with_files env files'))
    with (loadTranslations config (with_files env files)).
  destruct (loadTranslations config (with_files env files)) as [translations|message].
  - destruct translations; try reflexivity;
      apply (completed_perm config _ (with_files env files) files files' H).
  - simpl. auto.
Qed.

Lemma file_order_irrelevant_witness :
  Permutation [chars "A.js"; chars "B.js"] [chars "B.js"; chars "A.js"] /\
  same_up_to_order
    (gradeLanguageImplementation default_config
       (with_files (host (VObj [(chars "a", VStr "A")]) two_sources) [chars "A.js"; chars "B.js"]))
    (gradeLanguageImplementation default_config
       (with_files (host (VObj [(chars "a", VStr "A")]) two_sources) [chars "B.js"; chars "A.js"])).
Proof.
  split; [apply perm_swap|].
  apply (file_order_irrelevant default_config
           (host (VObj [(chars "a", VStr "A")]) two_sources)).
  apply perm_swap.
Defined.

(** *** C10 *)

(** C10.  Every candidate the hardcoded-text pass captures, and its trimmed
    text, begins with an ASCII letter and holds no [<] and no [{]; so a text
    whose first character that is not white space is no letter, or which
    holds a [{], is never reported, and the spans of [>123 items<] and of
    [>Hello {name}<] give no candidate at all. *)
Theorem hardcoded_candidates_begin_with_letter code m :
  In m (all_matches HARDCODED_TEXT_REGEX code) ->
  candidate_shape (group 1 (groups m)) /\
  candidate_shape (JS.trim (group 1 (groups m))) /\
  (forall t, reported t -> candidate_shape t) /\
  (forall t, starts_without_letter t \/ JS.includes "{" t = true -> ~ reported t) /\
  all_matches HARDCODED_TEXT_REGEX ">123 items<" = [] /\
  all_matches HARDCODED_TEXT_REGEX ">Hello {name}<" = [].
Proof.
  assert (forall code m, In m (all_matches HARDCODED_TEXT_REGEX code) ->
            candidate_shape (group 1 (groups m)) /\
            candidate_shape (JS.trim (group 1 (groups m)))) as Hshape.
  { clear. intros code m Hm. apply all_matches_found, hardcoded_group in Hm
      as (c & w & -> & Hc & _ & Hw). apply shape_of_word; assumption. }
  assert (forall t, reported t -> candidate_shape t) as Hrep.
  { intros t (config & env & res & rep & f & Hg & Hr & Hf & <-).
    destruct (reported_text _ _ _ _ _ Hg Hr Hf) as (code' & m' & _ & Hm' & -> & _).
    apply Hshape in Hm'. tauto. }
  intros Hm. destruct (Hshape code m Hm) as [H1 H2].
  split; [exact H1|]. split; [exact H2|]. split; [exact Hrep|]. split.
  - intros t Hbad Ht. apply Hrep in Ht as ((c & w & -> & Hc) & _ & Hbrace).
    destruct Hbad as [Hbad|Hbad]; [|congruence].
    specialize (Hbad c w). simpl in Hbad. rewrite (letter_not_space _ Hc) in Hbad.
    rewrite (Hbad eq_refl) in Hc. discriminate.
  - split; vm_compute; reflexivity.
Qed.

Lemma hardcoded_candidates_begin_with_letter_witness :
  In {| index := 5; lastIndex := 22; groups := [(1%nat, chars "Hello World")] |}
     (all_matches HARDCODED_TEXT_REGEX "<Text>  Hello World  </Text>") /\
  candidate_shape (chars "Hello World") /\
  candidate_shape (JS.trim (chars "Hello World")).
Proof.
  assert (In {| index := 5; lastIndex := 22; groups := [(1%nat, chars "Hello World")] |}
            (all_matches HARDCODED_TEXT_REGEX "<Text>  Hello World  </Text>")) as H
    by (vm_compute; left; reflexivity).
  split; [exact H|].
  pose proof (hardcoded_candidates_begin_with_letter _ _ H) as (H1 & H2 & _).
  exact (conj H1 H2).
Defined.

(** * Further properties of the code *)

Module RunMoreFacts.

Lemma run_findings config env res rep :
  gradeLanguageImplementation config env = Returned res ->
  report res = Findings rep ->
  exists translations,
    loadTranslations config env = inl translations /\
    let files := glob_sync env (sourcePattern config) (ignorePattern config) in
    let r := scanned_report translations env files in
    score res = calculateScore r config /\
    rep = set_summary r (summary_of translations env files r (score res)) /\
    success res = Qle_bool (or_default (minimumScore config) (8 # 10)) (score res).
Proof.
  intros Hg Hr. destruct (grade_findings _ _ _ _ Hg Hr) as (tr & Hl & ->).
  exists tr. split; [exact Hl|]. unfold completed in *. cbn [report score success] in *.
  inversion Hr; subst rep. repeat split; reflexivity.
Qed.

Lemma in_keys_in env files key :
  In key (keys_in env files) <-> used_in env files key.
Proof.
  unfold keys_in, used_in. rewrite in_flat_map. split.
  - intros (file & Hf & H). apply in_map_iff in H as (m & E & Hm). eauto.
  - intros (file & m & Hf & Hm & E). exists file. split; [exact Hf|].
    apply in_map_iff. eauto.
Qed.

Lemma size_list_to_set_le (l : list jstr) :
  (size (list_to_set l : gset jstr) <= length l)%nat.
Proof.
  induction l as [|x l IH].
  - vm_compute. lia.
  - cbn [list_to_set foldr]. pose proof (size_union_alt ({[x]} : gset jstr) (list_to_set l)) as E.
    rewrite E, size_singleton.
    assert (size (list_to_set l ∖ {[x]} : gset jstr) <= size (list_to_set l : gset jstr))%nat.
    { apply subseteq_size. set_solver. }
    simpl length. lia.
Qed.

Lemma filter_length_le {A} (p : A -> bool) l :
  (length (List.filter p l) <= length l)%nat.
Proof.
  induction l as [|x l IH]; simpl; [lia|]. destruct (p x); simpl; lia.
Qed.

Lemma flat_map_length_le {A B} (f : A -> list B) (g : A -> nat) l :
  (forall x, length (f x) <= g x)%nat ->
  (length (flat_map f l) <= list_sum (map g l))%nat.
Proof.
  intros H. induction l as [|x l IH]; simpl; [lia|].
  rewrite length_app. specialize (H x). lia.
Qed.

Lemma flat_map_length_le1 {A B} (f : A -> list B) l :
  (forall x, length (f x) <= 1)%nat -> (length (flat_map f l) <= length l)%nat.
Proof.
  intros H. induction l as [|x l IH]; [simpl; lia|].
  cbn [flat_map]. rewrite length_app. specialize (H x). simpl length. lia.
Qed.

Lemma missing_of_length translations file ms :
  (length (missing_of translations file ms) <= length ms)%nat.
Proof.
  apply flat_map_length_le1. intros m. destruct (negb _); simpl; lia.
Qed.

Lemma malformed_of_length file ms :
  (length (malformed_of file ms) <= length ms)%nat.
Proof.
  apply flat_map_length_le1. intros m.
  destruct (JS.includes "[" (usage_key m) && JS.includes "]" (usage_key m)); simpl; lia.
Qed.

Lemma keys_in_length env files :
  length (keys_in env files) = list_sum (map (fun file => length (usages_in env file)) files).
Proof.
  unfold keys_in. induction files as [|f files IH]; simpl; [reflexivity|].
  rewrite length_app, length_map, IH. reflexivity.
Qed.






End RunMoreFacts.

Import RunMoreFacts.

(** X1.  A usage is listed in [malformedKeys] exactly when its key holds
    both a [[] and a []]; the entry names the file and the key and carries the
    fixed issue text.  Whether the key resolves plays no part. *)
Theorem malformed_keys_characterised config env res rep f :
  gradeLanguageImplementation config env = Returned res ->
  report res = Findings rep ->
  (In f (malformedKeys rep) <->
   exists file m,
     In file (glob_sync env (sourcePattern config) (ignorePattern config)) /\
     In m (usages_in env file) /\
     JS.includes "[" (usage_key m) = true /\ JS.includes "]" (usage_key m) = true /\
     f = {| mf_file := file; mf_key := usage_key m;
            mf_issue := "Use dot notation instead of bracket notation" |}).
Proof.
  intros Hg Hr. destruct (run_findings _ _ _ _ Hg Hr) as (tr & _ & _ & -> & _).
  cbn [set_summary malformedKeys scanned_report]. rewrite in_flat_map. split.
  - intros (file & Hfile & H). unfold malformed_of in H.
    apply in_flat_map in H as (m & Hm & H). exists file, m.
    destruct (JS.includes "[" (usage_key m)) eqn:E1;
      destruct (JS.includes "]" (usage_key m)) eqn:E2; simpl in H; try destruct H as [<-|[]];
      try contradiction. auto.
  - intros (file & m & Hfile & Hm & E1 & E2 & ->). exists file. split; [exact Hfile|].
    unfold malformed_of. apply in_flat_map. exists m. split; [exact Hm|].
    rewrite E1, E2. simpl. auto.
Qed.

Lemma malformed_keys_characterised_witness :
  exists file m,
    In file (glob_sync (host small_document two_sources)
               (sourcePattern default_config) (ignorePattern default_config)) /\
    In m (usages_in (host small_document two_sources) file) /\
    JS.includes "[" (usage_key m) = true /\ JS.includes "]" (usage_key m) = true /\
    {| mf_file := "B.js"; mf_key := "list[0]";
       mf_issue := "Use dot notation instead of bracket notation" |}
    = {| mf_file := file; mf_key := usage_key m;
         mf_issue := "Use dot notation instead of bracket notation" |}.
Proof.
  assert (gradeLanguageImplementation default_config (host small_document two_sources)
          = Returned (completed default_config small_document (host small_document two_sources)
                        [chars "A.js"; chars "B.js"])) as Hg
    by (rewrite grade_eq; reflexivity).
  refine (proj1 (malformed_keys_characterised _ _ _ _ _ Hg eq_refl) _).
  vm_compute. left. reflexivity.
Defined.

(** X2.  The unused keys of a run are the keys of [extractAllKeys] that no
    scanned file uses, in the order [extractAllKeys] lists them. *)
Theorem unused_keys_characterised config env res rep translations :
  gradeLanguageImplementation config env = Returned res ->
  report res = Findings rep ->
  loadTranslations config env = inl translations ->
  (forall key,
     In key (unusedKeys rep) <->
     In key (extractAllKeys translations "") /\
     ~ used_in env (glob_sync env (sourcePattern config) (ignorePattern config)) key) /\
  sublist (unusedKeys rep) (extractAllKeys translations "").
Proof.
  intros Hg Hr Hl. destruct (run_findings _ _ _ _ Hg Hr) as (tr & Hl' & _ & -> & _).
  rewrite Hl in Hl'. inversion Hl'; subst tr.
  cbn [set_summary unusedKeys scanned_report]. split.
  - intros key. rewrite filter_In, negb_true_iff, bool_decide_eq_false,
      elem_of_list_to_set, <- in_keys_in, list_elem_of_In. tauto.
  - induction (extractAllKeys translations "") as [|k ks IH]; simpl.
    + constructor.
    + destruct (negb _); [apply sublist_skip | apply sublist_cons]; exact IH.
Qed.

Lemma unused_keys_characterised_witness :
  (forall key,
     In key [chars "b.c"] <->
     In key (extractAllKeys small_document "") /\
     ~ used_in (host small_document two_sources) [chars "A.js"; chars "B.js"] key) /\
  sublist [chars "b.c"] (extractAllKeys small_document "").
Proof.
  assert (gradeLanguageImplementation default_config (host small_document two_sources)
          = Returned (completed default_config small_document (host small_document two_sources)
                        [chars "A.js"; chars "B.js"])) as Hg
    by (rewrite grade_eq; reflexivity).
  exact (unused_keys_characterised _ _ _ _ small_document Hg eq_refl eq_refl).
Defined.

(** X3.  The summary of a run agrees with its lists: every count is the
    length of its list, [score] is the score of the result, [filesScanned]
    counts the files of [glob.sync] (read or not); there are no more unused
    keys than keys, and no more distinct used keys, missing keys or malformed
    keys than usages. *)
Theorem summary_agrees_with_lists config env res rep :
  gradeLanguageImplementation config env = Returned res ->
  report res = Findings rep ->
  exists s,
    summary rep = Some s /\
    filesScanned s = length (glob_sync env (sourcePattern config) (ignorePattern config)) /\
    missingKeysCount s = length (missingKeys rep) /\
    hardcodedStringsCount s = length (hardcodedStrings rep) /\
    unusedKeysCount s = length (unusedKeys rep) /\
    malformedKeysCount s = length (malformedKeys rep) /\
    summaryScore s = score res /\
    (unusedKeysCount s <= totalKeys s)%nat /\
    let usages := length (keys_in env (glob_sync env (sourcePattern config) (ignorePattern config))) in
    (usedKeysSize s <= usages)%nat /\ (missingKeysCount s <= usages)%nat /\
    (malformedKeysCount s <= usages)%nat.
Proof.
  intros Hg Hr. destruct (run_findings _ _ _ _ Hg Hr) as (tr & _ & _ & -> & _).
  eexists. split; [reflexivity|].
  cbn [set_summary summary_of scanned_report filesScanned missingKeysCount
       hardcodedStringsCount unusedKeysCount malformedKeysCount summaryScore totalKeys
       usedKeysSize missingKeys hardcodedStrings unusedKeys malformedKeys].
  repeat (split; [reflexivity|]).
  split; [apply filter_length_le|]. split; [apply size_list_to_set_le|].
  rewrite keys_in_length. split.
  - apply flat_map_length_le. intros file. apply missing_of_length.
  - apply flat_map_length_le. intros file. apply malformed_of_length.
Qed.

Lemma summary_agrees_with_lists_witness :
  exists s,
    Some s = Some {| filesScanned := 2; totalKeys := 2; usedKeysSize := 2;
                     missingKeysCount := 1; hardcodedStringsCount := 1;
                     unusedKeysCount := 1; malformedKeysCount := 1;
                     summaryScore := summaryScore s |} /\
    (unusedKeysCount s <= totalKeys s)%nat.
Proof.
  assert (gradeLanguageImplementation default_config (host small_document two_sources)
          = Returned (completed default_config small_document (host small_document two_sources)
                        [chars "A.js"; chars "B.js"])) as Hg
    by (rewrite grade_eq; reflexivity).
  destruct (summary_agrees_with_lists _ _ _ _ Hg eq_refl)
    as (s & Hs & _ & _ & _ & _ & _ & _ & Hle & _).
  exists s. split; [|exact Hle].
  vm_compute in Hs. inversion Hs. reflexivity.
Defined.


(** X5.  A run throws in two cases only, both after the translation file
    has loaded: when [glob.sync] throws, as it does for an empty source
    pattern, and then with the message of [glob.sync]; and otherwise when the
    translation file holds the JSON value [null], for which
    [Object.entries(null)] raises a TypeError after the scan.  Every other
    document, also a scalar one, is graded. *)
Theorem run_throws_for_glob_or_null config env message :
  gradeLanguageImplementation config env = Thrown message <->
  exists translations,
    loadTranslations config env = inl translations /\
    match glob_sync_throws env (sourcePattern config) (ignorePattern config) with
    | Some thrown => message = thrown
    | None =>
        translations = VNull /\ message = "Cannot convert undefined or null to object"
    end.
Proof.
  rewrite grade_eq. split.
  - destruct (loadTranslations config env) as [translations|e]; [|discriminate].
    intros H. exists translations. split; [reflexivity|].
    destruct (glob_sync_throws env _ _); [inversion H; reflexivity|].
    destruct translations; inversion H. split; reflexivity.
  - intros (translations & -> & H).
    destruct (glob_sync_throws env _ _); [subst; reflexivity|].
    destruct H as [-> ->]. reflexivity.
Qed.

Module UsageFacts.

Lemma sem_word r st st' :
  sem r st st' ->
  exists w, lang r w /\ rest st = w ++ rest st' /\ pos st' = (pos st + length w)%nat /\
            firstn (pos st' - pos st) (rest st) = w.
Proof.
  intros H. destruct (sem_lang _ _ _ H) as (w & L & E & P).
  exists w. repeat split; try assumption. apply consumed_word; assumption.
Qed.

(** The parts of a match of the usage pattern. *)
Lemma usage_match_parts code m :
  found_at I18N_REGEX code m ->
  exists q key q',
    is_quote q = true /\ is_quote q' = true /\ key <> [] /\
    forallb not_quote key = true /\ usage_key m = key /\
    matched_text code m = "i18n.t(" ++ [q] ++ key ++ [q'] ++ ")".
Proof.
  intros (_ & st' & Hs & Hl & Hg). unfold usage_key, matched_text. rewrite Hg, Hl.
  pose proof (sem_word _ _ _ Hs) as (wall & _ & Hall & _ & Hall'). simpl in Hall, Hall'.
  rewrite Hall'. clear Hall' Hl Hg.
  unfold I18N_REGEX, Seq in Hs. cbn [fold_right] in Hs.
  apply sem_Cat_inv in Hs as (s1 & H1 & Hs).
  apply sem_Cat_inv in Hs as (s2 & H2 & Hs).
  apply sem_Cat_inv in Hs as (s3 & H3 & Hs).
  apply sem_Cat_inv in Hs as (s4 & H4 & Hs).
  apply sem_Cat_inv in Hs as (s5 & H5 & Hs).
  inversion Hs; subst.
  apply sem_Group_inv in H3 as (s3' & H3 & ->).
  assert (caps st' = (1%nat, firstn (pos s3' - pos s2) (rest s2)) :: caps s3') as Hc.
  { apply sem_caps in H5; [|reflexivity].
    apply sem_caps in H4; [|reflexivity]. rewrite H5, H4. reflexivity. }
  rewrite Hc. cbn [group Nat.eqb].
  apply sem_word in H1 as (w1 & L1 & E1 & P1 & _).
  apply sem_word in H2 as (w2 & L2 & E2 & P2 & _).
  apply sem_word in H3 as (w3 & L3 & E3 & P3 & F3).
  apply sem_word in H4 as (w4 & L4 & E4 & P4 & _).
  apply sem_word in H5 as (w5 & L5 & E5 & P5 & _).
  unfold at_ in *. cbn [rest pos capture] in *.
  apply (lang_Lit "i18n.t(") in L1. apply (lang_Lit ")") in L5.
  apply lang_Chr_inv in L2 as (q & -> & Hq). apply lang_Chr_inv in L4 as (q' & -> & Hq').
  apply lang_plus_class in L3 as (c & w & -> & Hc1 & Hw).
  exists q, (c :: w), q'. rewrite F3.
  repeat split; try assumption; try discriminate.
  - simpl. unfold not_quote. rewrite Hc1. exact Hw.
  - subst w1 w5.
    assert (wall ++ rest st'
            = ("i18n.t(" ++ [q] ++ (c :: w) ++ [q'] ++ ")") ++ rest st') as E.
    { rewrite <- Hall, E1, E2, E3, E4, E5, <- !app_assoc. reflexivity. }
    apply app_inv_tail in E. exact E.
Qed.

Lemma all_usages_found env file m :
  In m (usages_in env file) ->
  exists code, readFileSync env file = inl code /\ found_at I18N_REGEX code m.
Proof.
  unfold usages_in. destruct (readFileSync env file) as [code|]; [|intros []].
  intros H. exists code. split; [reflexivity | apply all_matches_found, H].
Qed.

End UsageFacts.

Import UsageFacts.

(** X6.  Every usage the scan finds has the text [i18n.t(], a quote, the
    key, a quote, [)], where the key is not empty and holds none of the three
    quote characters; the two quotes need not be the same character. *)
Theorem usage_keys_are_quoted_literals code m :
  In m (all_matches I18N_REGEX code) ->
  exists q q',
    is_quote q = true /\ is_quote q' = true /\
    usage_key m <> [] /\ forallb not_quote (usage_key m) = true /\
    matched_text code m = "i18n.t(" ++ [q] ++ usage_key m ++ [q'] ++ ")".
Proof.
  intros H. apply all_matches_found, usage_match_parts in H
    as (q & key & q' & Hq & Hq' & Hk & Hn & -> & E).
  exists q, q'. auto.
Qed.

Lemma usage_keys_are_quoted_literals_witness :
  exists q q',
    is_quote q = true /\ is_quote q' = true /\
    chars "a.b" <> [] /\ forallb not_quote (chars "a.b") = true /\
    chars "i18n.t('a.b`)" = "i18n.t(" ++ [q] ++ chars "a.b" ++ [q'] ++ ")".
Proof.
  assert (In {| index := 2; lastIndex := 15; groups := [(1%nat, chars "a.b")] |}
            (all_matches I18N_REGEX "x=i18n.t('a.b`);")) as H
    by (vm_compute; left; reflexivity).
  exact (usage_keys_are_quoted_literals _ _ H).
Defined.

Module PathFacts.

Lemma split_sep sep a b :
  JS.split sep (a ++ sep :: b) = JS.split sep a ++ JS.split sep b.
Proof.
  induction a as [|c a IH]; simpl.
  - unfold JS.is_char. rewrite Ascii.eqb_refl. reflexivity.
  - destruct (JS.is_char sep c); [rewrite IH; reflexivity|].
    rewrite IH. destruct (JS.split sep a) as [|h t] eqn:E.
    + exfalso. exact (split_nonempty sep a E).
    + reflexivity.
Qed.

Lemma resolve_undefined parts : fold_left resolve_step parts None = None.
Proof. induction parts as [|p parts IH]; simpl; [reflexivity | exact IH]. Qed.

Lemma flat_mapi_ext_in {A B} (f g : nat -> A -> list B) l : forall start,
  (forall i x, nth_error l i = Some x -> f (start + i)%nat x = g (start + i)%nat x) ->
  flat_mapi f start l = flat_mapi g start l.
Proof.
  induction l as [|x l IH]; intros start H; [reflexivity|].
  cbn [flat_mapi]. f_equal.
  - specialize (H 0%nat x eq_refl). rewrite Nat.add_0_r in H. exact H.
  - apply IH. intros i y Hy. specialize (H (S i) y Hy).
    rewrite Nat.add_succ_r in H. exact H.
Qed.

Lemma flat_mapi_map {A B C} (h : B -> C) (f : nat -> A -> list B) l : forall start,
  flat_mapi (fun i x => map h (f i x)) start l = map h (flat_mapi f start l).
Proof.
  induction l as [|x l IH]; intros start; [reflexivity|].
  cbn [flat_mapi]. rewrite map_app, IH. reflexivity.
Qed.

Lemma flat_map_map {A B C} (h : B -> C) (f : A -> list B) l :
  flat_map (fun x => map h (f x)) l = map h (flat_map f l).
Proof.
  induction l as [|x l IH]; [reflexivity|]. cbn [flat_map]. rewrite map_app, IH. reflexivity.
Qed.

Lemma flat_map_ext_in' {A B} (f g : A -> list B) l :
  (forall x, In x l -> f x = g x) -> flat_map f l = flat_map g l.
Proof.
  induction l as [|x l IH]; intros H; [reflexivity|].
  cbn [flat_map]. rewrite (H x (or_introl eq_refl)), IH; [reflexivity|].
  intros y Hy. apply H. right. exact Hy.
Qed.

Lemma resolveKey_dot obj k k' :
  resolveKey obj (k ++ "." ++ k') = resolve_below (resolveKey obj k) k'.
Proof.
  unfold resolveKey, resolve_below.
  change (k ++ "." ++ k') with (k ++ "."%char :: k').
  rewrite split_sep, fold_left_app.
  destruct (fold_left resolve_step (JS.split "." k) (Some obj)); [reflexivity|].
  apply resolve_undefined.
Qed.

Lemma below_below prefix key k : below (below prefix key) k = below prefix (below key k).
Proof. unfold below. rewrite <- !app_assoc. reflexivity. Qed.

Lemma below_nonempty prefix key : below prefix key <> [].
Proof. unfold below. destruct prefix; discriminate. Qed.

Lemma entry_keys_prefix v key :
  key <> [] -> keys_nonempty v = true ->
  prefix_ok v -> (forall items, v = VArr items -> Forall prefix_ok items) ->
  forall prefix, prefix <> [] ->
  entry_keys prefix key v = map (below prefix) (entry_keys "" key v).
Proof.
  intros Hk Hne IH IHitems prefix Hp.
  assert (fullKey prefix key = below prefix key) as Efull
    by (apply fullKey_of_nonempty, Hp).
  assert (fullKey "" key = key) as Ekey by reflexivity.
  destruct v as [| | | |items|entries]; try (simpl; rewrite Efull; reflexivity).
  - (* an array *)
    specialize (IHitems items eq_refl).
    cbn [entry_keys]. rewrite Ekey, Efull, <- flat_mapi_map.
    cbn [keys_nonempty] in Hne. rewrite forallb_forall in Hne.
    rewrite List.Forall_forall in IHitems.
    apply flat_mapi_ext_in. intros i item Hi. cbn [Nat.add].
    apply nth_error_In in Hi.
    assert (indexKey (below prefix key) i = below prefix (indexKey key i)) as Ei
      by apply below_below.
    assert (indexKey key i <> []) as Hi1.
    { unfold indexKey. destruct key; [contradiction | discriminate]. }
    assert (indexKey (below prefix key) i <> []) as Hi2
      by (rewrite Ei; apply below_nonempty).
    pose proof (IHitems item Hi (Hne item Hi)) as Hitem.
    destruct item; try (simpl; rewrite Ei; reflexivity);
      rewrite (Hitem _ Hi2), (Hitem _ Hi1), map_map, Ei; apply map_ext;
      intros k; apply below_below.
  - (* an object *)
    cbn [entry_keys]. rewrite Ekey, Efull.
    rewrite (IH Hne _ (below_nonempty prefix key)), (IH Hne _ Hk), map_map.
    apply map_ext. intros k. apply below_below.
Qed.

Lemma prefix_ok_all v :
  prefix_ok v /\ (forall items, v = VArr items -> Forall prefix_ok items).
Proof.
  induction v as [| | |s|items IH|entries IH] using value_ind;
    (split; [|try (intros items' E; discriminate E)]);
    try (intros _ prefix Hp; reflexivity).
  - (* a string: its indices *)
    intros _ prefix Hp.
    cbn [extractAllKeys]. rewrite <- flat_mapi_map. apply flat_mapi_ext_in.
    intros i c _. cbn [map]. rewrite fullKey_of_nonempty by exact Hp. reflexivity.
  - (* an array *)
    intros Hne prefix Hp.
    rewrite !extractAllKeys_VArr, <- flat_mapi_map.
    cbn [keys_nonempty] in Hne. rewrite forallb_forall in Hne.
    rewrite List.Forall_forall in IH.
    apply flat_mapi_ext_in. intros i item Hi. cbn [Nat.add].
    apply nth_error_In in Hi.
    apply entry_keys_prefix;
      [apply toString_nonempty | apply Hne, Hi | apply IH, Hi | apply IH, Hi | exact Hp].
  - intros items' E. inversion E; subst items'.
    eapply List.Forall_impl; [|exact IH]. intros item H. apply H.
  - (* an object *)
    intros Hne prefix Hp.
    rewrite !extractAllKeys_VObj, <- flat_map_map.
    cbn [keys_nonempty] in Hne. rewrite forallb_forall in Hne.
    rewrite List.Forall_forall in IH.
    apply flat_map_ext_in'. intros [key v'] Hin. cbn [fst snd].
    specialize (Hne _ Hin). cbn [fst snd] in Hne.
    destruct key as [|c key]; [discriminate|].
    apply entry_keys_prefix;
      [discriminate | exact Hne | apply (IH _ Hin) | apply (IH _ Hin) | exact Hp].
Qed.

End PathFacts.

Import PathFacts.

(** X7.  Resolving composes: the key [k.k'] resolves to what [k'] resolves
    to in the value [k] resolves to, and to [undefined] when [k] does. *)
Theorem resolveKey_composes obj k k' :
  resolveKey obj (k ++ "." ++ k') = resolve_below (resolveKey obj k) k'.
Proof. apply resolveKey_dot. Qed.

(** X8.  An item of an array resolves by its decimal index, and an index
    past the end gives [undefined]. *)
Theorem resolveKey_indexes_arrays items i k :
  resolveKey (VArr items) (JS.toString i) = nth_error items i /\
  resolveKey (VArr items) (JS.toString i ++ "." ++ k) = resolve_below (nth_error items i) k /\
  ((length items <= i)%nat -> resolveKey (VArr items) (JS.toString i) = None).
Proof.
  assert (resolveKey (VArr items) (JS.toString i) = nth_error items i) as E.
  { unfold resolveKey. rewrite (split_dot_free _ (toString_dot_free i)).
    cbn [fold_left resolve_step]. rewrite isNaN_toString, parseInt_toString.
    apply nth_Z_nat. }
  split; [exact E|]. split.
  - rewrite resolveKey_dot, E. reflexivity.
  - intros H. rewrite E. apply nth_error_None. exact H.
Qed.

(** X9.  When no key of the document is empty, the keys extracted below a
    prefix are the keys extracted at the top, each behind the prefix and a dot,
    in the same order. *)
Theorem extraction_commutes_with_prefix v prefix :
  keys_nonempty v = true -> prefix <> [] ->
  extractAllKeys v prefix = map (below prefix) (extractAllKeys v "").
Proof. intros Hne Hp. apply (proj1 (prefix_ok_all v)); assumption. Qed.

Lemma extraction_commutes_with_prefix_witness :
  extractAllKeys screen_document "app"
  = map (below "app") (extractAllKeys screen_document "").
Proof.
  apply (extraction_commutes_with_prefix screen_document "app"); [reflexivity | discriminate].
Defined.

Module DistinctFacts.

Lemma well_keyed_nonempty v : well_keyed v = true -> keys_nonempty v = true.
Proof.
  induction v as [| | |s|items IH|entries IH] using value_ind; try reflexivity.
  - cbn [well_keyed keys_nonempty]. rewrite !forallb_forall.
    rewrite List.Forall_forall in IH. intros H x Hx. apply IH; [exact Hx | apply H, Hx].
  - cbn [well_keyed keys_nonempty]. intros H. apply andb_prop in H as [_ H].
    rewrite forallb_forall in *. rewrite List.Forall_forall in IH.
    intros [k v] Hin. specialize (H _ Hin). cbn [fst snd] in *.
    apply andb_prop in H as [Hk Hv]. destruct k; [discriminate|].
    apply (IH _ Hin), Hv.
Qed.

Lemma headed_unique k k' K :
  dot_free k -> dot_free k' -> headed k K -> headed k' K -> k = k'.
Proof.
  unfold headed, below. intros Hk Hk' [->|(r & ->)] [E|(r' & E)].
  - congruence.
  - exfalso. rewrite E in Hk. unfold dot_free, JS.includes in Hk.
    rewrite existsb_app in Hk. simpl in Hk. rewrite orb_true_r in Hk. discriminate.
  - exfalso. rewrite <- E in Hk'. unfold dot_free, JS.includes in Hk'.
    rewrite existsb_app in Hk'. simpl in Hk'. rewrite orb_true_r in Hk'. discriminate.
  - pose proof (split_app k r Hk) as S1. pose proof (split_app k' r' Hk') as S2.
    rewrite E, S2 in S1. congruence.
Qed.

Lemma fullKey_inj prefix r r' : fullKey prefix r = fullKey prefix r' -> r = r'.
Proof.
  unfold fullKey. destruct prefix; [auto|]. intros H. apply app_inv_head in H.
  apply app_inv_head in H. exact H.
Qed.

Lemma tagged_unique prefix k k' K :
  dot_free k -> dot_free k' -> tagged prefix k K -> tagged prefix k' K -> k = k'.
Proof.
  intros Hk Hk' (r & -> & H) (r' & E & H'). apply fullKey_inj in E. subst r'.
  exact (headed_unique k k' r Hk Hk' H H').
Qed.

Lemma NoDup_flat_map_tagged {A B T} (f : A -> list B) (tag : A -> T)
    (mark : T -> B -> Prop) l :
  (forall x x' y, In x l -> In x' l -> mark (tag x) y -> mark (tag x') y -> tag x = tag x') ->
  (forall x, In x l -> List.NoDup (f x)) ->
  (forall x y, In x l -> In y (f x) -> mark (tag x) y) ->
  List.NoDup (map tag l) -> List.NoDup (flat_map f l).
Proof.
  intros Hu Hn Hm Hd. induction l as [|x l IH]; [constructor|].
  cbn [flat_map]. cbn [map] in Hd. apply List.NoDup_cons_iff in Hd as [Hx Hd].
  apply List.NoDup_app; [apply Hn; left; reflexivity| |].
  - apply IH.
    + intros a b y Ha Hb. apply Hu; right; assumption.
    + intros a Ha. apply Hn. right. exact Ha.
    + intros a y Ha. apply Hm. right. exact Ha.
    + exact Hd.
  - intros y Hy Hy'.
    apply in_flat_map in Hy' as (x' & Hx' & Hy').
    apply Hx. apply in_map_iff. exists x'. split; [|exact Hx'].
    apply (Hu x' x y); [right; exact Hx' | left; reflexivity | |].
    + apply Hm; [right; exact Hx' | exact Hy'].
    + apply Hm; [left; reflexivity | exact Hy].
Qed.

Lemma flat_mapi_combine {A B} (f : nat -> A -> list B) l : forall start,
  flat_mapi f start l
  = flat_map (fun ix => f (fst ix) (snd ix)) (combine (seq start (length l)) l).
Proof.
  induction l as [|x l IH]; intros start; [reflexivity|].
  cbn [flat_mapi length seq combine flat_map fst snd]. rewrite IH. reflexivity.
Qed.

Lemma map_fst_combine {A B} (a : list A) (b : list B) :
  length a = length b -> map fst (combine a b) = a.
Proof.
  revert b. induction a as [|x a IH]; intros [|y b] H; try discriminate; [reflexivity|].
  simpl. rewrite IH; [reflexivity | simpl in H; lia].
Qed.

Lemma in_combine_seq {A} (l : list A) start i x :
  In (i, x) (combine (seq start (length l)) l) -> In x l.
Proof. apply in_combine_r. Qed.

Lemma NoDup_flat_mapi_tagged {A B} (f : nat -> A -> list B) (mark : nat -> B -> Prop)
    l start :
  (forall i i' y, mark i y -> mark i' y -> i = i') ->
  (forall i x, In x l -> List.NoDup (f i x)) ->
  (forall i x y, In x l -> In y (f i x) -> mark i y) ->
  List.NoDup (flat_mapi f start l).
Proof.
  intros Hu Hn Hm. rewrite flat_mapi_combine.
  apply (NoDup_flat_map_tagged _ fst mark).
  - intros [i x] [i' x'] y _ _. cbn [fst]. apply Hu.
  - intros [i x] Hin. cbn [fst snd]. apply Hn. exact (in_combine_r _ _ _ _ Hin).
  - intros [i x] y Hin. cbn [fst snd]. apply Hm. exact (in_combine_r _ _ _ _ Hin).
  - rewrite map_fst_combine by apply length_seq. apply List.seq_NoDup.
Qed.

Lemma toString_inj i j : JS.toString i = JS.toString j -> i = j.
Proof.
  intros H. pose proof (parseInt_toString i) as Hi. rewrite H, parseInt_toString in Hi.
  inversion Hi. lia.
Qed.

Lemma distinct_NoDup keys : distinct keys = true -> List.NoDup keys.
Proof.
  induction keys as [|k ks IH]; [constructor|]. cbn [distinct]. intros H.
  apply andb_prop in H as [Hk Hks]. constructor; [|apply IH, Hks].
  intros Hin. apply negb_true_iff in Hk.
  assert (existsb (fun k' => String.eqb (JS.str k) (JS.str k')) ks = true) as E.
  { apply existsb_exists. exists k. split; [exact Hin | apply str_eqb_refl]. }
  congruence.
Qed.

Lemma NoDup_map_inj {A B} (h : A -> B) l :
  (forall x y, h x = h y -> x = y) -> List.NoDup l -> List.NoDup (map h l).
Proof.
  intros Hinj H. induction H as [|x l Hx _ IH]; [constructor|].
  cbn [map]. constructor; [|exact IH].
  intros Hin. apply in_map_iff in Hin as (y & E & Hy). apply Hinj in E. subst y. auto.
Qed.

Lemma below_inj prefix r r' : below prefix r = below prefix r' -> r = r'.
Proof. unfold below. intros H. apply app_inv_head in H. apply app_inv_head in H. exact H. Qed.

(** The keys of one entry, at the top: all begin with the key of the entry. *)
Lemma entry_keys_headed v key K :
  key <> [] -> keys_nonempty v = true ->
  In K (entry_keys "" key v) -> headed key K.
Proof.
  intros Hk Hne Hin.
  assert (forall i, indexKey key i = below key (JS.toString i)) as Ei by reflexivity.
  assert (forall i, indexKey key i <> []) as Hi
    by (intros i; rewrite Ei; apply below_nonempty).
  destruct v as [| | | |items|entries];
    try (destruct Hin as [<-|[]]; left; reflexivity).
  - cbn [entry_keys] in Hin. change (fullKey "" key) with key in Hin.
    apply in_flat_mapi in Hin as (i & item & Hitem & Hin). cbn [Nat.add] in Hin.
    cbn [keys_nonempty] in Hne. rewrite forallb_forall in Hne.
    apply nth_error_In in Hitem. specialize (Hne _ Hitem).
    right.
    destruct item; try (destruct Hin as [<-|[]]; exists (JS.toString i); apply Ei);
      rewrite (proj1 (prefix_ok_all _) Hne _ (Hi i)) in Hin;
      apply in_map_iff in Hin as (r & <- & _);
      exists (below (JS.toString i) r); rewrite Ei; apply below_below.
  - cbn [entry_keys] in Hin. change (fullKey "" key) with key in Hin.
    rewrite (proj1 (prefix_ok_all _) Hne _ Hk) in Hin.
    apply in_map_iff in Hin as (r & <- & _). right. exists r. reflexivity.
Qed.

Lemma entry_keys_tagged v prefix key K :
  key <> [] -> keys_nonempty v = true ->
  In K (entry_keys prefix key v) -> tagged prefix key K.
Proof.
  intros Hk Hne Hin. destruct prefix as [|c p].
  - exists K. split; [reflexivity | eapply entry_keys_headed; eassumption].
  - assert (prefix_ok v /\ (forall items, v = VArr items -> Forall prefix_ok items))
      as [H1 H2] by apply prefix_ok_all.
    rewrite (entry_keys_prefix v key Hk Hne H1 H2 (c :: p)) in Hin by discriminate.
    apply in_map_iff in Hin as (r & <- & Hin).
    exists r. split; [reflexivity | eapply entry_keys_headed; eassumption].
Qed.

Lemma entry_keys_NoDup v prefix key :
  key <> [] -> well_keyed v = true ->
  distinct_keys v -> (forall items, v = VArr items -> Forall distinct_keys items) ->
  List.NoDup (entry_keys prefix key v).
Proof.
  intros Hk Hw IH IHitems.
  destruct v as [| | | |items|entries]; try (repeat constructor; intros []).
  - cbn [entry_keys]. specialize (IHitems items eq_refl).
    rewrite List.Forall_forall in IHitems.
    cbn [well_keyed] in Hw. rewrite forallb_forall in Hw.
    set (base := fullKey prefix key).
    assert (base <> []) as Hb by (apply fullKey_nonempty, Hk).
    apply (NoDup_flat_mapi_tagged _
             (fun i K => exists r, K = below base r /\ headed (JS.toString i) r)).
    + intros i i' K (r & -> & H) (r' & E & H'). apply below_inj in E. subst r'.
      apply toString_inj.
      exact (headed_unique _ _ r (toString_dot_free i) (toString_dot_free i') H H').
    + intros i item Hin.
      destruct item; try (repeat constructor; intros []);
        apply (IHitems _ Hin), Hw, Hin.
    + intros i item K Hitem Hin.
      assert (indexKey base i = below base (JS.toString i)) as Ei by reflexivity.
      destruct item; try (destruct Hin as [<-|[]]; exists (JS.toString i);
                          split; [exact Ei | left; reflexivity]);
        (rewrite (proj1 (prefix_ok_all _) (well_keyed_nonempty _ (Hw _ Hitem)))
           in Hin by (rewrite Ei; apply below_nonempty));
        apply in_map_iff in Hin as (r & <- & _);
        exists (below (JS.toString i) r); (split; [rewrite Ei; apply below_below|]);
        right; exists r; reflexivity.
  - cbn [entry_keys]. apply IH, Hw.
Qed.

Lemma distinct_keys_all v :
  distinct_keys v /\ (forall items, v = VArr items -> Forall distinct_keys items).
Proof.
  induction v as [| | |s|items IH|entries IH] using value_ind;
    (split; [|try (intros items' E; discriminate E)]);
    try (intros _ prefix; constructor).
  - (* a string: its indices *)
    intros _ prefix. cbn [extractAllKeys].
    apply (NoDup_flat_mapi_tagged _ (fun i K => K = fullKey prefix (JS.toString i))).
    + intros i i' K -> E. apply fullKey_inj in E. apply toString_inj, E.
    + intros i c _. repeat constructor. intros [].
    + intros i c K _ [<-|[]]. reflexivity.
  - (* an array *)
    intros Hw prefix. rewrite extractAllKeys_VArr.
    cbn [well_keyed] in Hw. rewrite forallb_forall in Hw.
    rewrite List.Forall_forall in IH.
    apply (NoDup_flat_mapi_tagged _ (fun i K => tagged prefix (JS.toString i) K)).
    + intros i i' K H H'. apply toString_inj.
      exact (tagged_unique prefix _ _ K (toString_dot_free i) (toString_dot_free i') H H').
    + intros i item Hin.
      apply entry_keys_NoDup;
        [apply toString_nonempty | apply Hw, Hin | apply IH, Hin | apply IH, Hin].
    + intros i item K Hin HK.
      apply (entry_keys_tagged item); [apply toString_nonempty | | exact HK].
      apply well_keyed_nonempty, Hw, Hin.
  - intros items' E. inversion E; subst items'.
    eapply List.Forall_impl; [|exact IH]. intros item H. apply H.
  - (* an object *)
    intros Hw prefix. rewrite extractAllKeys_VObj.
    cbn [well_keyed] in Hw. apply andb_prop in Hw as [Hd Hw].
    rewrite forallb_forall in Hw. rewrite List.Forall_forall in IH.
    assert (forall kv, In kv entries ->
              fst kv <> [] /\ dot_free (fst kv) /\ well_keyed (snd kv) = true) as Hkv.
    { intros kv Hin. specialize (Hw _ Hin). apply andb_prop in Hw as [Hk Hv].
      apply key_ok_spec in Hk as [Hk1 Hk2]. auto. }
    apply (NoDup_flat_map_tagged _ fst (tagged prefix)).
    + intros kv kv' K Hin Hin' H H'.
      exact (tagged_unique prefix _ _ K (proj1 (proj2 (Hkv _ Hin)))
               (proj1 (proj2 (Hkv _ Hin'))) H H').
    + intros kv Hin. destruct (Hkv _ Hin) as (Hk & _ & Hv).
      apply entry_keys_NoDup; [exact Hk | exact Hv | apply (IH _ Hin) | apply (IH _ Hin)].
    + intros kv K Hin HK. destruct (Hkv _ Hin) as (Hk & _ & Hv).
      apply (entry_keys_tagged (snd kv)); [exact Hk | apply well_keyed_nonempty, Hv | exact HK].
    + apply distinct_NoDup, Hd.
Qed.

End DistinctFacts.

Import DistinctFacts.

(** X10.  When the keys of every mapping of a document are distinct, not
    empty and free of dots, no key is extracted twice. *)
Theorem extracted_keys_are_distinct v prefix :
  well_keyed v = true -> List.NoDup (extractAllKeys v prefix).
Proof. intros Hw. apply (proj1 (distinct_keys_all v)), Hw. Qed.

Lemma extracted_keys_are_distinct_witness :
  List.NoDup (extractAllKeys screen_document "").
Proof. apply (extracted_keys_are_distinct screen_document ""). reflexivity. Defined.

Module ScanFacts.

Lemma count_newlines_firstn_le content i j :
  (i <= j)%nat ->
  (count_newlines (firstn i content) <= count_newlines (firstn j content))%nat.
Proof.
  unfold count_newlines. revert i j. induction content as [|c l IH]; intros i j H.
  - rewrite !firstn_nil. simpl. lia.
  - destruct i as [|i]; [simpl; lia|]. destruct j as [|j]; [lia|].
    cbn [firstn List.filter]. specialize (IH i j ltac:(lia)).
    destruct (JS.is_char "010" c); simpl length; lia.
Qed.

(** The matches of a loop, in the order the loop visits them. *)
Lemma exec_loop_apart r input : forall fuel from ms,
  exec_loop fuel r input from = Some ms ->
  Forall (fun m => from <= index m)%nat ms /\ StronglySorted apart ms.
Proof.
  induction fuel as [|f IH]; intros from ms; simpl; [discriminate|].
  destruct (exec r input from) as [m0|] eqn:E.
  - destruct (from <? lastIndex m0)%nat eqn:Hlt; [|discriminate].
    destruct (exec_loop f r input (lastIndex m0)) as [ms'|] eqn:E'; [|discriminate].
    simpl. intros H. inversion H; subst ms. clear H.
    apply exec_found in E as [Hfrom Hm]. apply found_at_bounds in Hm.
    destruct (IH _ _ E') as [Hall Hsorted]. split.
    + constructor; [exact Hfrom|].
      eapply List.Forall_impl; [|exact Hall]. intros m H. simpl in H. lia.
    + constructor; [exact Hsorted|]. exact Hall.
  - intros H. inversion H; subst. split; constructor.
Qed.

Lemma all_matches_apart r input : StronglySorted apart (all_matches r input).
Proof.
  unfold all_matches, matches.
  destruct (exec_loop _ r input 0) as [ms|] eqn:E; [|constructor].
  exact (proj2 (exec_loop_apart _ _ _ _ _ E)).
Qed.

Lemma StronglySorted_map {A B} (R : A -> A -> Prop) (S : B -> B -> Prop) (h : A -> B) l :
  (forall x y, In x l -> In y l -> R x y -> S (h x) (h y)) ->
  StronglySorted R l -> StronglySorted S (map h l).
Proof.
  intros Hh H. induction H as [|x l Hl IH Hx]; [constructor|].
  cbn [map]. constructor.
  - apply IH. intros a b Ha Hb. apply Hh; right; assumption.
  - apply List.Forall_forall. intros y Hy. apply in_map_iff in Hy as (a & <- & Ha).
    rewrite List.Forall_forall in Hx. apply Hh; [left; reflexivity | right; exact Ha | apply Hx, Ha].
Qed.

Lemma StronglySorted_flat_map {A B} (R : A -> A -> Prop) (S : B -> B -> Prop)
    (h : A -> list B) l :
  (forall x, In x l -> (length (h x) <= 1)%nat) ->
  (forall x y a b, In x l -> In y l -> R x y -> In a (h x) -> In b (h y) -> S a b) ->
  StronglySorted R l -> StronglySorted S (flat_map h l).
Proof.
  intros H1 Hh H. induction H as [|x l Hl IH Hx]; [constructor|].
  cbn [flat_map].
  assert (StronglySorted S (flat_map h l)) as IH'.
  { apply IH; [intros a Ha; apply H1; right; exact Ha|].
    intros a b u v Ha Hb. apply Hh; right; assumption. }
  specialize (H1 x (or_introl eq_refl)).
  destruct (h x) as [|a [|a' t]] eqn:E; [exact IH' | | simpl in H1; lia].
  cbn [app]. constructor; [exact IH'|].
  apply List.Forall_forall. intros b Hb. apply in_flat_map in Hb as (y & Hy & Hb).
  rewrite List.Forall_forall in Hx.
  apply (Hh x y a b); [left; reflexivity | right; exact Hy | apply Hx, Hy | | exact Hb].
  rewrite E. left. reflexivity.
Qed.

Lemma scanner_texts_eq env file :
  scanner_texts env file = map hf_text (hardcoded_of file (candidates_in env file)).
Proof.
  unfold scanner_texts, candidates_in.
  destruct (readFileSync env file) as [content|]; [|reflexivity].
  unfold FileScanner.analyzeI18nUsage, hardcoded_of.
  cbn [FileScanner.hardcodedStrings].
  change FileScanner.shouldFlagAsHardcoded with shouldFlagAsHardcoded.
  induction (all_matches HARDCODED_TEXT_REGEX content) as [|m ms IH]; [reflexivity|].
  cbn [flat_map]. rewrite !map_app, IH. f_equal.
  destruct (shouldFlagAsHardcoded _); reflexivity.
Qed.

Lemma map_flat_map {A B C} (h : B -> C) (f : A -> list B) l :
  map h (flat_map f l) = flat_map (fun x => map h (f x)) l.
Proof.
  induction l as [|x l IH]; [reflexivity|]. cbn [flat_map]. rewrite map_app, IH. reflexivity.
Qed.

End ScanFacts.

Import ScanFacts.

(** X11.  A report without findings has the score 1 when no configured weight
    is an infinity, and the run then succeeds unless the configured minimum is
    above 1.  When a weight is an infinity its penalty is [0 * Infinity]: the
    score is [NaN] and the run does not succeed. *)
Theorem clean_report_scores_one report config :
  missingKeys report = [] -> hardcodedStrings report = [] ->
  malformedKeys report = [] -> unusedKeys report = [] ->
  (DoubleScore.weights_finite config = true ->
   Double.calculateScore report config = Double.Finite 1 /\
   Double.success (Double.calculateScore report config) config
   = Double.leb (Double.or_default (Double.minimumScore config) (Double.literal (8 # 10)))
                (Double.Finite 1)) /\
  (DoubleScore.weights_finite config = false ->
   Double.calculateScore report config = Double.NaN /\
   Double.success (Double.calculateScore report config) config = false).
Proof.
  intros H1 H2 H3 H4.
  rewrite DoubleScoreFacts.double_score_eq,
    (DoubleScoreFacts.clean_totalPenalty report config H1 H2 H3 H4).
  split; intros ->.
  - assert (Double.max (Double.Finite 0)
              (Double.sub (Double.Finite 1) (Double.div (Double.Finite 0) (Double.Finite 10)))
            = Double.Finite 1) as -> by (vm_compute; reflexivity).
    split; reflexivity.
  - split; [reflexivity|]. unfold Double.success, Double.geb.
    cbn [Double.div Double.sub Double.neg Double.add Double.max].
    destruct (Double.or_default _ _) as [|[]|]; reflexivity.
Qed.

Lemma clean_report_scores_one_witness :
  Double.calculateScore emptyReport no_numbers = Double.Finite 1 /\
  Double.success (Double.calculateScore emptyReport no_numbers) no_numbers = true /\
  Double.calculateScore emptyReport infinite_missing_weight = Double.NaN /\
  Double.success (Double.calculateScore emptyReport infinite_missing_weight)
                 infinite_missing_weight = false.
Proof.
  destruct (clean_report_scores_one emptyReport no_numbers eq_refl eq_refl eq_refl eq_refl)
    as [[E S] _]; [reflexivity|].
  destruct (clean_report_scores_one emptyReport infinite_missing_weight
              eq_refl eq_refl eq_refl eq_refl) as [_ [E' S']]; [reflexivity|].
  split; [exact E|]. split; [rewrite S; reflexivity|]. split; [exact E' | exact S'].
Defined.

(** X12.  The score is 0 from a total penalty of 10 on, and above 0 below it;
    the total is the one the machine sums, which rounding can leave below the
    exact one.  With the default weights, 18, 8, 1 and 2 findings have the
    exact penalty 10 and the exact score 0, the machine sums
    9.999999999999998 and the score is [2^-52]; 3, 2 and 1 findings have the
    exact score 0.8, the machine gives 0.7999999999999999, below the number
    0.8, and the run does not succeed. *)
Theorem score_clamps_at_ten report config :
  (Double.leb (Double.Finite 10) (DoubleScore.totalPenalty report config) = true ->
   Double.calculateScore report config = Double.Finite 0) /\
  (Double.ltb (DoubleScore.totalPenalty report config) (Double.Finite 10) = true ->
   Double.ltb (Double.Finite 0) (Double.calculateScore report config) = true) /\
  (DoubleScore.totalPenalty report config = Double.NaN ->
   Double.calculateScore report config = Double.NaN) /\
  (DoubleScore.totalPenalty (report_with 18 8 1 2) no_numbers
   = Double.Finite DoubleScore.below_ten /\
   Double.calculateScore (report_with 18 8 1 2) no_numbers = Double.Finite (2 ^ (-52)) /\
   (calculateScore (report_with 18 8 1 2) default_config == 0)%Q) /\
  (Double.ltb (Double.calculateScore (report_with 3 2 1 0) no_numbers) (Double.literal (8 # 10))
   = true /\
   Double.success (Double.calculateScore (report_with 3 2 1 0) no_numbers) no_numbers = false /\
   (calculateScore (report_with 3 2 1 0) default_config == 8 # 10)%Q).
Proof.
  rewrite DoubleScoreFacts.double_score_eq.
  split; [apply DoubleScoreFacts.score_zero|]. split.
  - apply DoubleScoreFacts.score_positive. intros a E.
    unfold DoubleScore.totalPenalty in E. apply DoubleScoreFacts.add_rounds in E. exact E.
  - split; [intros ->; reflexivity|]. repeat split; vm_compute; reflexivity.
Qed.

(** X13.  Line numbers start at 1 and never decrease along the text; past
    the end of the text they stay at its number of lines. *)
Theorem line_numbers_are_monotone content i j :
  (i <= j)%nat ->
  FileScanner.getLineNumber content 0 = 1%nat /\
  (1 <= FileScanner.getLineNumber content i <= FileScanner.getLineNumber content j)%nat /\
  (FileScanner.getLineNumber content j <= length (JS.split "010" content))%nat /\
  ((length content <= j)%nat ->
   FileScanner.getLineNumber content j = length (JS.split "010" content)).
Proof.
  intros H. rewrite !getLineNumber_eq, split_length.
  fold (count_newlines content).
  assert (count_newlines (firstn j content) <= count_newlines content)%nat as Hj.
  { rewrite <- (firstn_all content) at 2.
    destruct (Nat.le_gt_cases j (length content)) as [Hle|Hgt].
    - apply count_newlines_firstn_le, Hle.
    - rewrite (firstn_all2 (n := j)) by lia. rewrite firstn_all. lia. }
  pose proof (count_newlines_firstn_le content i j H) as Hij.
  split; [reflexivity|]. split; [lia|]. split; [lia|].
  intros Hlen. rewrite firstn_all2 by exact Hlen. reflexivity.
Qed.

Lemma line_numbers_are_monotone_witness :
  FileScanner.getLineNumber two_lines 0 = 1%nat /\
  (1 <= FileScanner.getLineNumber two_lines 3 <= FileScanner.getLineNumber two_lines 40)%nat /\
  (FileScanner.getLineNumber two_lines 40 <= length (JS.split "010" two_lines))%nat /\
  ((length two_lines <= 40)%nat ->
   FileScanner.getLineNumber two_lines 40 = length (JS.split "010" two_lines)).
Proof. apply (line_numbers_are_monotone two_lines 3 40). lia. Defined.

(** X14.  The grader and the FileScanner find the same things in the same
    files: the texts of [hardcodedStrings] are the texts [analyzeI18nUsage]
    flags in the scanned files, in order, and the keys the run uses are the
    keys [analyzeI18nUsage] lists. *)
Theorem grader_and_scanner_agree config env res rep :
  gradeLanguageImplementation config env = Returned res ->
  report res = Findings rep ->
  let files := glob_sync env (sourcePattern config) (ignorePattern config) in
  map hf_text (hardcodedStrings rep) = flat_map (scanner_texts env) files /\
  keys_in env files = flat_map (scanner_keys env) files.
Proof.
  intros Hg Hr files. destruct (run_findings _ _ _ _ Hg Hr) as (tr & _ & _ & -> & _).
  cbn [set_summary hardcodedStrings scanned_report]. fold files. split.
  - rewrite map_flat_map. apply flat_map_ext. intros file. symmetry. apply scanner_texts_eq.
  - unfold keys_in. apply flat_map_ext. intros file.
    unfold scanner_keys, usages_in. destruct (readFileSync env file); [|reflexivity].
    unfold FileScanner.analyzeI18nUsage. cbn [FileScanner.usedKeys].
    rewrite map_map. reflexivity.
Qed.

Lemma grader_and_scanner_agree_witness :
  map hf_text
      (hardcodedStrings
         (set_summary
            (scanned_report small_document (host small_document two_sources)
               [chars "A.js"; chars "B.js"])
            (summary_of small_document (host small_document two_sources)
               [chars "A.js"; chars "B.js"]
               (scanned_report small_document (host small_document two_sources)
                  [chars "A.js"; chars "B.js"])
               (calculateScore
                  (scanned_report small_document (host small_document two_sources)
                     [chars "A.js"; chars "B.js"]) default_config))))
  = flat_map (scanner_texts (host small_document two_sources)) [chars "A.js"; chars "B.js"] /\
  keys_in (host small_document two_sources) [chars "A.js"; chars "B.js"]
  = flat_map (scanner_keys (host small_document two_sources)) [chars "A.js"; chars "B.js"].
Proof.
  assert (gradeLanguageImplementation default_config (host small_document two_sources)
          = Returned (completed default_config small_document (host small_document two_sources)
                        [chars "A.js"; chars "B.js"])) as Hg
    by (rewrite grade_eq; reflexivity).
  exact (grader_and_scanner_agree _ _ _ _ Hg eq_refl).
Defined.

(** X15.  The matches a scan loop visits do not overlap and come in the
    order of the text, so the lines [analyzeI18nUsage] reports for the used
    keys, and those for the hardcoded strings, never decrease. *)
Theorem scanner_lines_never_decrease content :
  StronglySorted apart (all_matches I18N_REGEX content) /\
  StronglySorted apart (all_matches HARDCODED_TEXT_REGEX content) /\
  StronglySorted le (map FileScanner.key_line
                       (FileScanner.usedKeys (FileScanner.analyzeI18nUsage content))) /\
  StronglySorted le (map FileScanner.text_line
                       (FileScanner.hardcodedStrings (FileScanner.analyzeI18nUsage content))).
Proof.
  assert (forall r m m', In m (all_matches r content) -> In m' (all_matches r content) ->
            apart m m' ->
            (FileScanner.getLineNumber content (index m)
             <= FileScanner.getLineNumber content (index m'))%nat) as Hline.
  { intros r m m' Hm _ Ha. rewrite !getLineNumber_eq.
    apply le_n_S, count_newlines_firstn_le.
    apply all_matches_found, found_at_bounds in Hm. unfold apart in Ha. lia. }
  split; [apply all_matches_apart|]. split; [apply all_matches_apart|].
  unfold FileScanner.analyzeI18nUsage.
  cbn [FileScanner.usedKeys FileScanner.hardcodedStrings]. split.
  - rewrite map_map. cbn [FileScanner.key_line].
    apply (StronglySorted_map apart); [apply Hline | apply all_matches_apart].
  - rewrite map_flat_map.
    apply (StronglySorted_flat_map apart); [| |apply all_matches_apart].
    + intros m _. destruct (FileScanner.shouldFlagAsHardcoded _); simpl; lia.
    + intros m m' a b Hm Hm' Ha Hina Hinb.
      destruct (FileScanner.shouldFlagAsHardcoded (JS.trim (group 1 (groups m))));
        [|destruct Hina].
      destruct (FileScanner.shouldFlagAsHardcoded (JS.trim (group 1 (groups m'))));
        [|destruct Hinb].
      destruct Hina as [<-|[]]. destruct Hinb as [<-|[]].
      cbn [FileScanner.text_line]. eapply Hline; eassumption.
Qed.

Module LangFacts.

Lemma lang_sem r w :
  lang r w -> no_anchor r = true ->
  forall p l cs, exists cs', sem r (at_ p (w ++ l) cs) (at_ (p + length w) l cs').
Proof.
  induction 1; cbn [no_anchor]; intros Hn p0 l cs; try discriminate.
  - exists cs. simpl. rewrite Nat.add_0_r. constructor.
  - exists cs. simpl. replace (p0 + 1)%nat with (S p0) by lia. apply sem_chr_intro. assumption.
  - apply andb_prop in Hn as [Hn1 Hn2].
    destruct (IHlang1 Hn1 p0 (w2 ++ l) cs) as (cs1 & H1).
    destruct (IHlang2 Hn2 (p0 + length w1)%nat l cs1) as (cs2 & H2).
    exists cs2. rewrite <- app_assoc, length_app, Nat.add_assoc.
    econstructor; eassumption.
  - apply andb_prop in Hn as [Hn1 _]. destruct (IHlang Hn1 p0 l cs) as (cs' & H').
    exists cs'. apply sem_alt_l. exact H'.
  - apply andb_prop in Hn as [_ Hn2]. destruct (IHlang Hn2 p0 l cs) as (cs' & H').
    exists cs'. apply sem_alt_r. exact H'.
  - exists cs. simpl. rewrite Nat.add_0_r. constructor.
  - destruct w1 as [|c w1].
    + simpl. apply IHlang2. exact Hn.
    + destruct (IHlang1 Hn p0 (w2 ++ l) cs) as (cs1 & H1).
      destruct (IHlang2 Hn (p0 + length (c :: w1))%nat l cs1) as (cs2 & H2).
      exists cs2. rewrite <- app_assoc, length_app, Nat.add_assoc.
      eapply sem_star_more; [exact H1 | simpl; lia | exact H2].
  - destruct (IHlang Hn p0 l cs) as (cs' & H').
    eexists. pose proof (sem_group n r _ _ H') as Hg. exact Hg.
Qed.

Lemma firstn_skipn_middle {A} (l : list A) i n :
  (i + n <= length l)%nat ->
  l = firstn i l ++ firstn n (skipn i l) ++ skipn (i + n) l.
Proof.
  intros H. rewrite <- (firstn_skipn i l) at 1. f_equal.
  rewrite <- (firstn_skipn n (skipn i l)) at 1. f_equal.
  change (@drop A) with (@skipn A).
  rewrite skipn_skipn. f_equal. lia.
Qed.

(** [re.test] of a pattern without anchors: some part of the text is a word
    of the pattern. *)
Lemma test_holds r l : no_anchor r = true -> (test r l = true <-> holds r l).
Proof.
  intros Hn. rewrite test_true. split.
  - intros (i & st' & Hi & Hs). apply sem_lang in Hs as (w & L & E & P).
    simpl in E, P. exists (firstn i l), w, (rest st'). split; [|exact L].
    rewrite <- E. symmetry. apply firstn_skipn.
  - intros (a & w & b & -> & L).
    destruct (lang_sem r w L Hn (length a) b []) as (cs' & Hs).
    exists (length a). eexists. split; [rewrite length_app; lia|].
    change (@drop ascii) with (@skipn ascii).
    rewrite skipn_app, skipn_all, Nat.sub_diag. simpl. exact Hs.
Qed.

Lemma lang_Lit_intro w : lang (Lit w) w.
Proof.
  induction w as [|c w IH]; simpl; [constructor|].
  apply (lang_cat _ _ [c] w); [|exact IH]. constructor. apply Ascii.eqb_refl.
Qed.

Lemma lang_star_class_intro g p w : forallb p w = true -> lang (Star g (Chr p)) w.
Proof.
  induction w as [|c w IH]; simpl; intros H; [constructor|].
  apply andb_prop in H as [Hc Hw].
  apply (lang_star_more g _ [c] w); [constructor; exact Hc | apply IH, Hw].
Qed.

Lemma lang_plus_class_intro g p c w :
  p c = true -> forallb p w = true -> lang (Plus g (Chr p)) (c :: w).
Proof.
  intros Hc Hw. apply (lang_cat _ _ [c] w); [constructor; exact Hc|].
  apply lang_star_class_intro, Hw.
Qed.

Lemma lang_Eps_inv w : lang Eps w -> w = [].
Proof. intros H. inversion H. reflexivity. Qed.

Lemma lang_Group_inv n r w : lang (Group n r) w -> lang r w.
Proof. intros H. inversion H. assumption. Qed.

Lemma lang_Alt_inv r1 r2 w : lang (Alt r1 r2) w -> lang r1 w \/ lang r2 w.
Proof. intros H. inversion H; auto. Qed.

Lemma starts_with_iff p l : JS.starts_with p l = true <-> exists t, l = p ++ t.
Proof.
  revert l. induction p as [|a p IH]; intros l; simpl.
  - split; eauto.
  - destruct l as [|c l]; [split; [discriminate | intros (t & E); discriminate]|].
    rewrite andb_true_iff, IH. unfold JS.is_char. rewrite Ascii.eqb_eq. split.
    + intros (-> & t & ->). eauto.
    + intros (t & E). inversion E; subst. eauto.
Qed.

Lemma includes_str_iff needle l :
  JS.includes_str needle l = true <-> exists a b, l = a ++ needle ++ b.
Proof.
  induction l as [|c l IH]; simpl.
  - rewrite orb_false_r, starts_with_iff. split.
    + intros (t & E). exists [], t. exact E.
    + intros (a & b & E). destruct a; [exists b; exact E|discriminate].
  - rewrite orb_true_iff, starts_with_iff, IH. split.
    + intros [(t & E)|(a & b & ->)]; [exists [], t; exact E | exists (c :: a), b; reflexivity].
    + intros (a & b & E). destruct a as [|c' a].
      * left. exists b. exact E.
      * right. inversion E; subst. eauto.
Qed.

Lemma no_anchor_Lit w : no_anchor (Lit w) = true.
Proof. induction w as [|c w IH]; simpl; [reflexivity | exact IH]. Qed.

(** A literal pattern is a search for a substring. *)
Lemma test_Lit w l : test (Lit w) l = JS.includes_str w l.
Proof.
  apply bool_eq_iff. rewrite (test_holds _ _ (no_anchor_Lit w)), includes_str_iff.
  split.
  - intros (a & w' & b & -> & L). apply lang_Lit in L. subst w'. eauto.
  - intros (a & b & ->). exists a, w, b. split; [reflexivity | apply lang_Lit_intro].
Qed.

Lemma test_Alt r1 r2 l :
  no_anchor r1 = true -> no_anchor r2 = true ->
  test (Alt r1 r2) l = test r1 l || test r2 l.
Proof.
  intros H1 H2. apply bool_eq_iff.
  rewrite orb_true_iff, !test_holds by (simpl; rewrite ?H1, ?H2; reflexivity).
  split.
  - intros (a & w & b & -> & L). apply lang_Alt_inv in L as [L|L]; [left | right];
      exists a, w, b; auto.
  - intros [(a & w & b & -> & L)|(a & w & b & -> & L)]; exists a, w, b;
      (split; [reflexivity|]); [apply lang_alt_l | apply lang_alt_r]; exact L.
Qed.

Lemma test_Group n r l : no_anchor r = true -> test (Group n r) l = test r l.
Proof.
  intros H. apply bool_eq_iff. rewrite !test_holds by exact H. split.
  - intros (a & w & b & -> & L). apply lang_Group_inv in L. exists a, w, b. auto.
  - intros (a & w & b & -> & L). exists a, w, b. split; [reflexivity|]. constructor. exact L.
Qed.

End LangFacts.

Import LangFacts.

(** X16.  [hasI18nImport] is true exactly when the text holds [import] and,
    later, [i18n], with no line terminator in between.  The line terminators
    are those of the language; in a text of code units below 256 they are LF
    and CR. *)
Theorem i18n_import_has_no_line_terminator content :
  FileScanner.hasI18nImport (FileScanner.analyzeI18nUsage content) = true <->
  exists a b c,
    content = a ++ "import" ++ b ++ "i18n" ++ c /\
    forallb not_line_terminator b = true.
Proof.
  unfold FileScanner.analyzeI18nUsage. cbn [FileScanner.hasI18nImport].
  rewrite test_holds by reflexivity. unfold FileScanner.IMPORT_I18N, Seq. cbn [fold_right].
  split.
  - intros (a & w & c & -> & L).
    apply lang_Cat_inv in L as (w1 & w' & -> & L1 & L).
    apply lang_Cat_inv in L as (w2 & w'' & -> & L2 & L).
    apply lang_Cat_inv in L as (w3 & w4 & -> & L3 & L4).
    apply (lang_Lit "import") in L1. apply (lang_Lit "i18n") in L3.
    apply lang_Eps_inv in L4. apply lang_star_class in L2. subst.
    exists a, w2, c. split; [|exact L2].
    rewrite app_nil_r, <- !app_assoc. reflexivity.
  - intros (a & b & c & -> & Hb).
    exists a, ("import" ++ b ++ "i18n"), c. split; [rewrite <- !app_assoc; reflexivity|].
    apply lang_cat; [apply lang_Lit_intro|].
    apply lang_cat; [apply lang_star_class_intro, Hb|].
    rewrite <- (app_nil_r (chars "i18n")). apply lang_cat; [apply lang_Lit_intro | constructor].
Qed.

Module PatternFacts.

Lemma lang_Seq_cons r rs w :
  lang (Seq (r :: rs)) w -> exists w1 w2, w = w1 ++ w2 /\ lang r w1 /\ lang (Seq rs) w2.
Proof. apply lang_Cat_inv. Qed.

Lemma lang_Seq_nil w : lang (Seq []) w -> w = [].
Proof. apply lang_Eps_inv. Qed.

Lemma lang_Seq_intro r rs w1 w2 : lang r w1 -> lang (Seq rs) w2 -> lang (Seq (r :: rs)) (w1 ++ w2).
Proof. intros H1 H2. apply lang_cat; assumption. Qed.

Lemma no_group_Seq rs : forallb no_group rs = true -> no_group (Seq rs) = true.
Proof.
  induction rs as [|r rs IH]; simpl; [reflexivity|]. intros H.
  apply andb_prop in H as [H1 H2]. rewrite H1, IH by exact H2. reflexivity.
Qed.

(** A match of a sequence with one capturing group: the words before the
    group, of the group and after it. *)
Lemma sem_Seq_group pre n g post : forall st st',
  sem (Seq (pre ++ Group n g :: post)) st st' ->
  forallb no_group post = true ->
  exists wpre wg wpost,
    lang (Seq pre) wpre /\ lang g wg /\ lang (Seq post) wpost /\
    group n (caps st') = wg /\
    firstn (pos st' - pos st) (rest st) = wpre ++ wg ++ wpost.
Proof.
  induction pre as [|r pre IH]; intros st st' Hs Hn.
  - cbn [app Seq fold_right] in Hs. apply sem_Cat_inv in Hs as (s1 & Hg & Hpost).
    apply sem_Group_inv in Hg as (s0 & Hg & ->).
    pose proof (sem_caps _ _ _ Hpost (no_group_Seq _ Hn)) as Hc.
    apply sem_word in Hg as (wg & Lg & Eg & Pg & Fg).
    apply sem_word in Hpost as (wp & Lp & Ep & Pp & _).
    cbn [rest pos capture caps] in *.
    exists [], wg, wp. split; [constructor|]. split; [exact Lg|]. split; [exact Lp|].
    split.
    + rewrite Hc. cbn [group]. rewrite Nat.eqb_refl. exact Fg.
    + cbn [app]. apply consumed_word; [rewrite Eg, Ep, app_assoc; reflexivity|].
      rewrite Pp, Pg, length_app. lia.
  - cbn [app Seq fold_right] in Hs. apply sem_Cat_inv in Hs as (s1 & Hr & Hs).
    destruct (IH _ _ Hs Hn) as (wpre & wg & wpost & Lpre & Lg & Lpost & Hg & Hw).
    apply sem_word in Hr as (w1 & L1 & E1 & P1 & _).
    pose proof (sem_word _ _ _ Hs) as (w2 & _ & E2 & P2 & F2).
    rewrite Hw in F2. subst w2.
    exists (w1 ++ wpre), wg, wpost. split; [apply lang_Seq_intro; assumption|].
    split; [exact Lg|]. split; [exact Lpost|]. split; [exact Hg|].
    rewrite <- app_assoc.
    apply consumed_word; [rewrite E1, E2, !app_assoc; reflexivity|].
    rewrite P2, P1, !length_app. lia.
Qed.

Lemma found_Seq_group pre n g post input m :
  found_at (Seq (pre ++ Group n g :: post)) input m ->
  forallb no_group post = true ->
  exists wpre wpost,
    lang (Seq pre) wpre /\ lang g (group n (groups m)) /\ lang (Seq post) wpost /\
    matched_text input m = wpre ++ group n (groups m) ++ wpost.
Proof.
  intros (_ & st' & Hs & Hl & Hg) Hn.
  destruct (sem_Seq_group _ _ _ _ _ _ Hs Hn) as (wpre & wg & wpost & L1 & L2 & L3 & G & W).
  exists wpre, wpost. unfold matched_text. rewrite Hg, Hl, G.
  cbn [pos rest at_] in W. auto.
Qed.

(** The text of a match is a part of the input. *)
Lemma matched_text_part r input m :
  found_at r input m -> JS.includes_str (matched_text input m) input = true.
Proof.
  intros H. pose proof (found_at_bounds _ _ _ H) as Hb.
  apply includes_str_iff. unfold matched_text.
  exists (firstn (index m) input), (skipn (lastIndex m) input).
  replace (lastIndex m) with (index m + (lastIndex m - index m))%nat at 2 by lia.
  apply firstn_skipn_middle. lia.
Qed.

Lemma line_in_text content i :
  (1 <= FileScanner.getLineNumber content i <= length (JS.split "010" content))%nat.
Proof.
  rewrite getLineNumber_eq, split_length. fold (count_newlines content).
  assert (count_newlines (firstn i content) <= count_newlines content)%nat; [|lia].
  destruct (Nat.le_gt_cases i (length content)) as [Hle|Hgt].
  - rewrite <- (firstn_all content) at 2. apply count_newlines_firstn_le, Hle.
  - rewrite firstn_all2 by lia. lia.
Qed.

Lemma IMPORT_REGEX_progresses : progresses FileScanner.IMPORT_REGEX.
Proof. apply progresses_Cat_Lit. Qed.

Lemma EXPORT_REGEX_progresses : progresses FileScanner.EXPORT_REGEX.
Proof. apply progresses_Cat_Lit. Qed.

Lemma loop_ends r content :
  progresses r -> matches r content = Some (all_matches r content).
Proof.
  intros Hp. unfold all_matches. destruct (matches_total r content Hp) as (ms & ->).
  reflexivity.
Qed.

End PatternFacts.

Import PatternFacts.

(** X17.  The flags of [analyzeComponentPatterns] for a plain word are
    searches for that word anywhere in the text; a pressable element is any of
    the three names; an inline style is [style={{], at least one character
    other than [}], then [}}]; a mapped component is [.map(], no [)], then [)],
    [=>] and [<] with only white space between them. *)
Theorem component_flags_in_words content :
  let p := FileScanner.analyzeComponentPatterns content in
  FileScanner.hasAccessibilityLabels p = JS.includes_str "accessibilityLabel" content /\
  FileScanner.hasTestIds p = JS.includes_str "testID" content /\
  FileScanner.hasTextInputs p = JS.includes_str "TextInput" content /\
  FileScanner.hasImages p = JS.includes_str "<Image" content /\
  FileScanner.usesStyleSheet p = JS.includes_str "StyleSheet.create" content /\
  FileScanner.hasPressableElements p
  = JS.includes_str "Pressable" content || JS.includes_str "TouchableOpacity" content
    || JS.includes_str "Button" content /\
  (FileScanner.hasInlineStyles p = true <->
   exists a w b, content = a ++ "style={{" ++ w ++ "}}" ++ b /\
                 w <> [] /\ forallb not_rbrace w = true) /\
  (FileScanner.hasMappedComponents p = true <->
   exists a args s1 s2 b,
     content = a ++ ".map(" ++ args ++ ")" ++ s1 ++ "=>" ++ s2 ++ "<" ++ b /\
     forallb not_rparen args = true /\
     forallb JS.is_space s1 = true /\ forallb JS.is_space s2 = true).
Proof.
  intros p. unfold p, FileScanner.analyzeComponentPatterns.
  cbn [FileScanner.hasAccessibilityLabels FileScanner.hasTestIds FileScanner.hasTextInputs
       FileScanner.hasImages FileScanner.usesStyleSheet FileScanner.hasPressableElements
       FileScanner.hasInlineStyles FileScanner.hasMappedComponents].
  do 5 (split; [apply test_Lit|]). split; [|split].
  - unfold FileScanner.PRESSABLE.
    rewrite test_Group by reflexivity.
    rewrite test_Alt by reflexivity.
    rewrite test_Alt by reflexivity. rewrite !test_Lit. apply orb_assoc.
  - rewrite test_holds by reflexivity. unfold FileScanner.INLINE_STYLE. split.
    + intros (a & w & b & -> & L).
      apply lang_Seq_cons in L as (w1 & w' & -> & L1 & L).
      apply lang_Seq_cons in L as (w2 & w'' & -> & L2 & L).
      apply lang_Seq_cons in L as (w3 & w4 & -> & L3 & L4).
      apply lang_Seq_nil in L4. apply (lang_Lit "style={{") in L1. apply (lang_Lit "}}") in L3.
      apply lang_plus_class in L2 as (c & w & -> & Hc & Hw). subst.
      exists a, (c :: w), b. split; [rewrite app_nil_r, <- !app_assoc; reflexivity|].
      split; [discriminate|]. simpl. unfold not_rbrace at 1. rewrite Hc. exact Hw.
    + intros (a & w & b & -> & Hw & Hall). destruct w as [|c w]; [contradiction|].
      simpl in Hall. apply andb_prop in Hall as [Hc Hall].
      exists a, ("style={{" ++ (c :: w) ++ "}}"), b.
      split; [rewrite <- !app_assoc; reflexivity|].
      apply lang_Seq_intro; [apply lang_Lit_intro|].
      apply lang_Seq_intro; [apply lang_plus_class_intro; assumption|].
      rewrite <- (app_nil_r (chars "}}")). apply lang_Seq_intro; [apply lang_Lit_intro | constructor].
  - rewrite test_holds by reflexivity. unfold FileScanner.MAPPED. split.
    + intros (a & w & b & -> & L).
      apply lang_Seq_cons in L as (w1 & w' & -> & L1 & L).
      apply lang_Seq_cons in L as (w2 & w'' & -> & L2 & L).
      apply lang_Seq_cons in L as (w3 & w''' & -> & L3 & L).
      apply lang_Seq_cons in L as (w4 & w'''' & -> & L4 & L).
      apply lang_Seq_cons in L as (w5 & w''''' & -> & L5 & L).
      apply lang_Seq_cons in L as (w6 & w'''''' & -> & L6 & L).
      apply lang_Seq_cons in L as (w7 & w8 & -> & L7 & L8).
      apply lang_Seq_nil in L8. apply (lang_Lit ".map(") in L1. apply (lang_Lit ")") in L3.
      apply (lang_Lit "=>") in L5. apply (lang_Lit "<") in L7.
      apply lang_star_class in L2, L4, L6. subst.
      exists a, w2, w4, w6, b. split; [rewrite app_nil_r, <- !app_assoc; reflexivity|].
      auto.
    + intros (a & args & s1 & s2 & b & -> & Ha & H1 & H2).
      exists a, (".map(" ++ args ++ ")" ++ s1 ++ "=>" ++ s2 ++ "<"), b.
      split; [rewrite <- !app_assoc; reflexivity|].
      apply lang_Seq_intro; [apply lang_Lit_intro|].
      apply lang_Seq_intro; [apply lang_star_class_intro; exact Ha|].
      apply lang_Seq_intro; [apply (lang_Lit_intro ")")|].
      apply lang_Seq_intro; [apply lang_star_class_intro; exact H1|].
      apply lang_Seq_intro; [apply (lang_Lit_intro "=>")|].
      apply lang_Seq_intro; [apply lang_star_class_intro; exact H2|].
      rewrite <- (app_nil_r (chars "<")). apply lang_Seq_intro; [apply lang_Lit_intro | constructor].
Qed.

(** X18.  Both loops over imports and exports end.  Every import listed has
    a module name that is not empty and holds no quote, and its statement is a
    part of the text that reads [import], ..., [from], white space, a quote,
    the module, a quote.  Every export listed has a name that is not empty and
    holds no [=], no [;] and no white space, and its statement is a part of the
    text that begins with [export] and ends with the name.  The lines lie
    within the text. *)
Theorem imports_and_exports_are_well_formed content :
  matches FileScanner.IMPORT_REGEX content
  = Some (all_matches FileScanner.IMPORT_REGEX content) /\
  matches FileScanner.EXPORT_REGEX content
  = Some (all_matches FileScanner.EXPORT_REGEX content) /\
  (forall e, In e (FileScanner.extractImports content) ->
     FileScanner.module e <> [] /\ forallb not_quote (FileScanner.module e) = true /\
     (exists mid ws q q',
        FileScanner.import_statement e
        = "import" ++ mid ++ "from" ++ ws ++ [q] ++ FileScanner.module e ++ [q'] /\
        ws <> [] /\ forallb JS.is_space ws = true /\
        is_quote q = true /\ is_quote q' = true) /\
     JS.includes_str (FileScanner.import_statement e) content = true /\
     (1 <= FileScanner.import_line e <= length (JS.split "010" content))%nat) /\
  (forall e, In e (FileScanner.extractExports content) ->
     FileScanner.name e <> [] /\ forallb name_char (FileScanner.name e) = true /\
     (exists mid, FileScanner.export_statement e = "export" ++ mid ++ FileScanner.name e) /\
     JS.includes_str (FileScanner.export_statement e) content = true /\
     (1 <= FileScanner.export_line e <= length (JS.split "010" content))%nat).
Proof.
  split; [apply loop_ends, IMPORT_REGEX_progresses|].
  split; [apply loop_ends, EXPORT_REGEX_progresses|]. split.
  - intros e He. unfold FileScanner.extractImports in He.
    apply in_map_iff in He as (m & <- & Hm).
    cbn [FileScanner.module FileScanner.import_statement FileScanner.import_line].
    apply all_matches_found in Hm.
    pose proof (matched_text_part _ _ _ Hm) as Hpart.
    set (pre := [Lit "import"; Plus true (Chr JS.is_space);
                 Opt (Alt (Seq [Lit "*"; Plus true (Chr JS.is_space); Lit "as";
                                Plus true (Chr JS.is_space); Plus true (Chr FileScanner.is_word)])
                     (Alt FileScanner.BRACES
                          (Seq [Plus true (Chr FileScanner.is_word);
                                Opt (Seq [Star true (Chr JS.is_space); Lit ",";
                                          Star true (Chr JS.is_space); FileScanner.BRACES])])));
                 Plus true (Chr JS.is_space); Lit "from"; Plus true (Chr JS.is_space);
                 Chr is_quote]).
    destruct (found_Seq_group pre 1 (Plus true (Chr (fun c => negb (is_quote c))))
                [Chr is_quote] content m Hm eq_refl)
      as (wpre & wpost & Lpre & Lg & Lpost & E).
    apply lang_plus_class in Lg as (c & w & Eg & Hc & Hw).
    apply lang_Seq_cons in Lpost as (wq & w0 & -> & Lq & L0).
    apply lang_Seq_nil in L0. apply lang_Chr_inv in Lq as (q' & -> & Hq'). subst w0.
    unfold pre in Lpre.
    apply lang_Seq_cons in Lpre as (w1 & x1 & -> & L1 & Lpre).
    apply lang_Seq_cons in Lpre as (w2 & x2 & -> & L2 & Lpre).
    apply lang_Seq_cons in Lpre as (w3 & x3 & -> & L3 & Lpre).
    apply lang_Seq_cons in Lpre as (w4 & x4 & -> & L4 & Lpre).
    apply lang_Seq_cons in Lpre as (w5 & x5 & -> & L5 & Lpre).
    apply lang_Seq_cons in Lpre as (w6 & x6 & -> & L6 & Lpre).
    apply lang_Seq_cons in Lpre as (w7 & x7 & -> & L7 & Lpre).
    apply lang_Seq_nil in Lpre. subst x7.
    apply (lang_Lit "import") in L1. apply (lang_Lit "from") in L5.
    apply lang_Chr_inv in L7 as (q & -> & Hq).
    apply lang_plus_class in L6 as (s & ws & -> & Hs & Hws). subst w1 w5.
    rewrite Eg. split; [discriminate|]. split.
    { simpl. unfold not_quote at 1. rewrite Hc. exact Hw. }
    split.
    { exists (w2 ++ w3 ++ w4), (s :: ws), q, q'. rewrite E, Eg.
      split; [rewrite ?app_nil_r, <- !app_assoc; reflexivity|].
      split; [discriminate|]. split; [simpl; rewrite Hs; exact Hws | auto]. }
    split; [exact Hpart | apply line_in_text].
  - intros e He. unfold FileScanner.extractExports in He.
    apply in_map_iff in He as (m & <- & Hm).
    cbn [FileScanner.name FileScanner.export_statement FileScanner.export_line].
    apply all_matches_found in Hm.
    pose proof (matched_text_part _ _ _ Hm) as Hpart.
    set (pre := [Lit "export"; Plus true (Chr JS.is_space);
                 Opt (Seq [Lit "default"; Plus true (Chr JS.is_space)]);
                 Opt (Alt (Lit "function") (Alt (Lit "class") (Alt (Lit "const")
                        (Alt (Lit "let") (Lit "var")))));
                 Star true (Chr JS.is_space)]).
    destruct (found_Seq_group pre 1
                (Plus true (Chr (fun c =>
                   negb (JS.is_char "=" c || JS.is_space c || JS.is_char ";" c))))
                [] content m Hm eq_refl)
      as (wpre & wpost & Lpre & Lg & Lpost & E).
    apply lang_plus_class in Lg as (c & w & Eg & Hc & Hw).
    apply lang_Seq_nil in Lpost. subst wpost.
    unfold pre in Lpre.
    apply lang_Seq_cons in Lpre as (w1 & x1 & -> & L1 & Lpre).
    apply (lang_Lit "export") in L1. subst w1.
    rewrite Eg. split; [discriminate|]. split.
    { simpl. unfold name_char at 1. rewrite Hc. exact Hw. }
    split.
    { exists x1. rewrite E, Eg, app_nil_r, <- !app_assoc. reflexivity. }
    split; [exact Hpart | apply line_in_text].
Qed.

Module FileFacts.

Lemma getFileType_source filePath :
  FileScanner.isSourceFile filePath
  = JS.array_includes source_extensions (JS.toLowerCase (path.extname filePath)).
Proof.
  unfold FileScanner.isSourceFile, FileScanner.getFileType.
  change [chars ".js"; chars ".jsx"; chars ".ts"; chars ".tsx"] with source_extensions.
  destruct (JS.array_includes source_extensions _);
    repeat match goal with
           | |- context [if ?b then _ else _] => destruct b
           end; reflexivity.
Qed.

Lemma trim_nil l : JS.trim l = [] <-> forallb JS.is_space l = true.
Proof.
  unfold JS.trim. induction l as [|c l IH]; simpl; [tauto|].
  destruct (JS.is_space c) eqn:E; [exact IH|]. simpl.
  split; [|discriminate]. destruct (JS.trimEnd l); rewrite ?E; discriminate.
Qed.

Lemma forallb_split p sep l :
  p sep = true ->
  forallb (forallb p) (JS.split sep l) = forallb p l.
Proof.
  intros Hsep. induction l as [|c l IH]; [reflexivity|]. cbn [JS.split forallb].
  destruct (JS.is_char sep c) eqn:E.
  - apply Ascii.eqb_eq in E. subst c. rewrite Hsep. cbn [forallb andb]. exact IH.
  - destruct (JS.split sep l) as [|h t] eqn:Es.
    + exfalso. exact (split_nonempty sep l Es).
    + cbn [forallb] in *. rewrite <- IH, andb_assoc. reflexivity.
Qed.

Lemma filter_none {A} (p : A -> bool) l :
  length (List.filter p l) = 0%nat <-> forallb (fun x => negb (p x)) l = true.
Proof.
  induction l as [|x l IH]; simpl; [tauto|].
  destruct (p x); simpl; [split; [lia | discriminate] | exact IH].
Qed.

Lemma blank_lines text :
  length (List.filter (fun line => (0 <? length (JS.trim line))%nat) (JS.split "010" text))
  = 0%nat <-> all_whitespace text = true.
Proof.
  rewrite filter_none. unfold all_whitespace.
  rewrite <- (forallb_split JS.is_space "010"%char text eq_refl).
  assert (forall line, negb (0 <? length (JS.trim line))%nat = forallb JS.is_space line) as E.
  { intros line. apply bool_eq_iff. rewrite <- trim_nil, negb_true_iff, Nat.ltb_ge.
    destruct (JS.trim line); simpl; split; try lia; try discriminate; reflexivity. }
  induction (JS.split "010" text) as [|line ls IH]; [reflexivity|].
  cbn [forallb]. rewrite E, !andb_true_iff, IH. reflexivity.
Qed.

Lemma fold_push {A B} (get : A -> B + jstr) batch : forall results,
  fold_left (fun results result =>
               match result with
               | inl value => results ++ [value]
               | inr _ => results
               end) (map get batch) results
  = results ++ flat_map (fun x => match get x with inl v => [v] | inr _ => [] end) batch.
Proof.
  induction batch as [|x batch IH]; intros results; simpl; [rewrite app_nil_r; reflexivity|].
  rewrite IH. destruct (get x); simpl; rewrite <- ?app_assoc; reflexivity.
Qed.

Lemma metadata_fulfilled config host options filePath :
  FileScanner.getFileMetadata config host filePath options
  = inl (metadata config host options filePath).
Proof.
  unfold metadata, FileScanner.getFileMetadata.
  destruct (FileScanner.stat host filePath) as [stats|]; [|reflexivity].
  destruct (_ <? _)%N; [reflexivity|].
  destruct (FileScanner.includeContent options);
    [destruct (FileScanner.readFileContent host filePath); [|reflexivity]|];
    (destruct (FileScanner.analyzeCode options && FileScanner.isSourceFile filePath);
     [destruct (FileScanner.analyzeSourceFile host filePath _); reflexivity | reflexivity]).
Qed.

Lemma metadata_path config host options filePath :
  path_of (metadata config host options filePath) = filePath.
Proof.
  unfold metadata, FileScanner.getFileMetadata.
  destruct (FileScanner.stat host filePath) as [stats|]; [|reflexivity].
  destruct (_ <? _)%N; [reflexivity|].
  destruct (FileScanner.includeContent options);
    [destruct (FileScanner.readFileContent host filePath); [|reflexivity]|];
    (destruct (FileScanner.analyzeCode options && FileScanner.isSourceFile filePath);
     [destruct (FileScanner.analyzeSourceFile host filePath _); reflexivity | reflexivity]).
Qed.

Lemma slice_batch {A} (l : list A) i batchSize :
  (0 <= i < Z.of_nat (length l))%Z -> (0 < batchSize)%Z ->
  FileScanner.slice i (i + batchSize) l
  = firstn (Z.to_nat batchSize) (skipn (Z.to_nat i) l).
Proof.
  intros Hi Hb. unfold FileScanner.slice.
  assert ((i <? 0)%Z = false) as -> by (apply Z.ltb_ge; lia).
  assert ((i + batchSize <? 0)%Z = false) as -> by (apply Z.ltb_ge; lia).
  rewrite (Z.min_l i) by lia.
  destruct (Z.le_gt_cases (i + batchSize) (Z.of_nat (length l))) as [H|H].
  - rewrite Z.min_l by lia. f_equal. lia.
  - rewrite Z.min_r by lia.
    rewrite !firstn_all2; [reflexivity | |]; rewrite length_skipn; lia.
Qed.

Lemma batches_eq config host options filePaths batchSize :
  (0 < batchSize)%Z ->
  forall fuel i results,
    (0 <= i)%Z ->
    (length filePaths - Z.to_nat i < fuel)%nat ->
    FileScanner.batches config host fuel batchSize i filePaths options results
    = Some (results ++ map (metadata config host options) (skipn (Z.to_nat i) filePaths)).
Proof.
  intros Hb. induction fuel as [|fuel IH]; intros i results H0 Hf; [lia|].
  cbn [FileScanner.batches]. destruct (i <? Z.of_nat (length filePaths))%Z eqn:Hi.
  - apply Z.ltb_lt in Hi. rewrite IH by lia. f_equal.
    rewrite fold_push, <- app_assoc. f_equal.
    rewrite slice_batch by lia.
    replace (skipn (Z.to_nat (i + batchSize)) filePaths)
      with (skipn (Z.to_nat batchSize) (skipn (Z.to_nat i) filePaths))
      by (rewrite skipn_skipn; f_equal; lia).
    set (rest := skipn (Z.to_nat i) filePaths).
    assert (forall l, flat_map (fun x => match FileScanner.getFileMetadata config host x options with
                                         | inl v => [v]
                                         | inr _ => []
                                         end) l
                      = map (metadata config host options) l) as E.
    { induction l as [|x l IHl]; [reflexivity|].
      cbn [flat_map map]. rewrite IHl, metadata_fulfilled. reflexivity. }
    rewrite E, <- map_app, firstn_skipn. reflexivity.
  - apply Z.ltb_ge in Hi. rewrite skipn_all2 by lia. rewrite app_nil_r. reflexivity.
Qed.

(** With a batch size below 0 the index never reaches the length. *)
Lemma batches_never_end config host options filePaths batchSize :
  (batchSize < 0)%Z ->
  forall fuel i results,
    (i < Z.of_nat (length filePaths))%Z ->
    FileScanner.batches config host fuel batchSize i filePaths options results = None.
Proof.
  intros Hb. induction fuel as [|fuel IH]; intros i results Hi; [reflexivity|].
  cbn [FileScanner.batches].
  assert ((i <? Z.of_nat (length filePaths))%Z = true) as -> by (apply Z.ltb_lt; lia).
  apply IH. lia.
Qed.

Lemma integer_or_batch options :
  batch_size_ok options = true -> (0 < FileScanner.integer_or (FileScanner.batchSize options) 10)%Z.
Proof.
  unfold batch_size_ok, FileScanner.integer_or.
  destruct (FileScanner.batchSize options) as [[|p|p]|]; try lia.
  intros H. apply Z.leb_le in H. lia.
Qed.

Lemma integer_or_negative options :
  batch_size_ok options = false -> (FileScanner.integer_or (FileScanner.batchSize options) 10 < 0)%Z.
Proof.
  unfold batch_size_ok, FileScanner.integer_or.
  destruct (FileScanner.batchSize options) as [[|p|p]|]; try discriminate. lia.
Qed.

Lemma processFilesInBatches_eq config host filePaths options :
  batch_size_ok options = true ->
  FileScanner.processFilesInBatches config host filePaths options
  = Some (map (metadata config host options) filePaths).
Proof.
  intros H. unfold FileScanner.processFilesInBatches. rewrite batches_eq.
  - reflexivity.
  - apply integer_or_batch, H.
  - lia.
  - simpl. lia.
Qed.

Lemma processFilesInBatches_none config host filePaths options :
  FileScanner.processFilesInBatches config host filePaths options = None <->
  batch_size_ok options = false /\ filePaths <> [].
Proof.
  split.
  - intros H. destruct (batch_size_ok options) eqn:E.
    + rewrite processFilesInBatches_eq in H by exact E. discriminate.
    + split; [reflexivity|]. intros ->. discriminate.
  - intros [E Hne]. apply batches_never_end; [apply integer_or_negative, E|].
    destruct filePaths; [contradiction | simpl; lia].
Qed.

Lemma array_includes_In array s : JS.array_includes array s = true <-> In s array.
Proof.
  unfold JS.array_includes. rewrite existsb_exists. split.
  - intros (x & Hx & E). apply str_eqb in E. subst. exact Hx.
  - intros H. exists s. split; [exact H | apply str_eqb_refl].
Qed.

Lemma unique_spec l : forall seen,
  List.NoDup (FileScanner.unique seen l) /\
  (forall x, In x (FileScanner.unique seen l) <-> In x l /\ ~ In x seen).
Proof.
  induction l as [|x l IH]; intros seen; simpl.
  - split; [constructor | intros y; tauto].
  - destruct (JS.array_includes seen x) eqn:E.
    + apply array_includes_In in E. destruct (IH seen) as [Hn Hi].
      split; [exact Hn|]. intros y. rewrite Hi. split; [tauto|].
      intros [[->|H] H']; [contradiction | auto].
    + assert (~ In x seen) as Hx.
      { intros H. apply array_includes_In in H. congruence. }
      destruct (IH (x :: seen)) as [Hn Hi]. split.
      * constructor; [|exact Hn]. rewrite Hi. simpl. tauto.
      * intros y. simpl. rewrite Hi. simpl. split.
        -- intros [<-|[H1 H2]]; [auto|]. split; [auto|]. tauto.
        -- intros [[<-|H1] H2]; [auto|].
           destruct (decide (x = y)) as [->|Hne]; [auto|]. right. tauto.
Qed.

Lemma Promise_all_inl {A} (promises : list (A + jstr)) values :
  FileScanner.Promise_all promises = inl values -> promises = map inl values.
Proof.
  revert values. induction promises as [|[a|e] ps IH]; intros values; simpl.
  - intros H. inversion H. reflexivity.
  - destruct (FileScanner.Promise_all ps) as [vs|] eqn:E; [|discriminate].
    intros H. inversion H; subst. rewrite (IH vs eq_refl). reflexivity.
  - discriminate.
Qed.

Lemma analysed_length p files :
  (length (FileScanner.analysed p files) <= length files)%nat.
Proof.
  unfold FileScanner.analysed. apply flat_map_length_le1. intros f.
  destruct (FileScanner.analysis_of f) as [a|]; [destruct (p a)|]; simpl; lia.
Qed.

Lemma analysed_filter p files :
  FileScanner.analysed p files = List.filter p (FileScanner.analysed (fun _ => true) files).
Proof.
  unfold FileScanner.analysed. induction files as [|f files IH]; [reflexivity|].
  cbn [flat_map]. rewrite List.filter_app, <- IH. f_equal.
  destruct (FileScanner.analysis_of f) as [a|]; [|reflexivity].
  simpl. destruct (p a); reflexivity.
Qed.

Lemma fold_sum {A} (g : A -> nat) l : forall start,
  fold_left (fun sum a => (sum + g a)%nat) l start = (start + list_sum (map g l))%nat.
Proof.
  induction l as [|a l IH]; intros start; simpl; [lia|]. rewrite IH. lia.
Qed.

Lemma positive_le_sum {A} (g : A -> nat) l :
  (length (List.filter (fun a => (0 <? g a)%nat) l) <= list_sum (map g l))%nat.
Proof.
  induction l as [|a l IH]; simpl; [lia|].
  destruct (0 <? g a)%nat eqn:E; simpl; [apply Nat.ltb_lt in E|]; lia.
Qed.

Lemma sum_zero {A} (g : A -> nat) l :
  list_sum (map g l) = 0%nat <-> length (List.filter (fun a => (0 <? g a)%nat) l) = 0%nat.
Proof.
  induction l as [|a l IH]; simpl; [tauto|].
  destruct (0 <? g a)%nat eqn:E; simpl.
  - apply Nat.ltb_lt in E. split; intros; lia.
  - apply Nat.ltb_ge in E. rewrite <- IH. split; intros; lia.
Qed.

End FileFacts.

Import FileFacts.

Module ScannerFacts.

Ltac present :=
  split;
  [ let H := fresh in intros H; first [reflexivity | exfalso; apply H; reflexivity]
  | let H := fresh in intros H; first [discriminate H | discriminate] ].

(** The patterns and the options of a scan, as [scanFiles] computes them. *)
Lemma scanFiles_eq config host patterns options :
  exists normalizedPatterns scanOptions,
    FileScanner.others scanOptions = options /\
    FileScanner.scanFiles config host patterns options =
    match FileScanner.Promise_all
            (map (fun pattern => FileScanner.glob host pattern scanOptions) normalizedPatterns) with
    | inr message => Some (inr ("File scanning failed: " ++ message))
    | inl allMatches =>
        if batch_size_ok options
           || match FileScanner.unique [] (concat allMatches) with [] => true | _ => false end
        then
          let fileResults :=
            map (metadata config host options) (FileScanner.unique [] (concat allMatches)) in
          Some (inl {| FileScanner.files := fileResults;
                       FileScanner.totalFiles := length fileResults;
                       FileScanner.patterns := normalizedPatterns;
                       FileScanner.options := scanOptions |})
        else None
    end.
Proof.
  unfold FileScanner.scanFiles.
  match goal with
  | |- context [FileScanner.Promise_all (map (fun pattern => FileScanner.glob host pattern ?so) ?np)] =>
      exists np, so
  end.
  split; [reflexivity|].
  destruct (FileScanner.Promise_all _) as [allMatches|message]; [|reflexivity].
  destruct (batch_size_ok options) eqn:E.
  - rewrite processFilesInBatches_eq by exact E. reflexivity.
  - destruct (FileScanner.unique [] (concat allMatches)) as [|x l] eqn:Eu; [reflexivity|].
    rewrite (proj2 (processFilesInBatches_none config host (x :: l) options));
      [reflexivity | split; [exact E | discriminate]].
Qed.

Lemma Promise_all_inr {A} (promises : list (A + jstr)) message :
  FileScanner.Promise_all promises = inr message -> In (inr message) promises.
Proof.
  induction promises as [|[a|e] ps IH]; simpl.
  - discriminate.
  - destruct (FileScanner.Promise_all ps) as [vs|e'] eqn:E; [discriminate|].
    intros H. inversion H; subst. right. apply IH. reflexivity.
  - intros H. inversion H; subst. left. reflexivity.
Qed.

Lemma map_path_metadata config host options l :
  map path_of (map (metadata config host options) l) = l.
Proof.
  rewrite map_map. induction l as [|x l IH]; [reflexivity|].
  cbn [map]. rewrite metadata_path, IH. reflexivity.
Qed.

Lemma scanFiles_total config host patterns options :
  batch_size_ok options = true ->
  exists outcome, FileScanner.scanFiles config host patterns options = Some outcome.
Proof.
  intros H. destruct (scanFiles_eq config host patterns options) as (ps & so & _ & ->).
  rewrite H. destruct (FileScanner.Promise_all _); eauto.
Qed.

Lemma scanFiles_rejected config host patterns options message :
  FileScanner.scanFiles config host patterns options = Some (inr message) ->
  JS.starts_with "File scanning failed: " message = true.
Proof.
  destruct (scanFiles_eq config host patterns options) as (ps & so & _ & ->).
  destruct (FileScanner.Promise_all _); [destruct (_ || _)|]; intros H; inversion H.
  apply starts_with_iff. eauto.
Qed.

Lemma summaries_consistent files :
  (length (FileScanner.analysed FileScanner.isReactComponent files)
   <= length (FileScanner.analysed (fun _ => true) files) <= length files)%nat.
Proof.
  split; [|apply analysed_length].
  rewrite (analysed_filter FileScanner.isReactComponent). apply filter_length_le.
Qed.

End ScannerFacts.

Import ScannerFacts.

(** X19.  A file counts as a source file exactly when its extension, capitals
    ignored, is [.js], [.jsx], [.ts] or [.tsx]; so every file whose analysis
    calls it TypeScript is a source file. *)
Theorem source_files_by_extension filePath :
  FileScanner.isSourceFile filePath
  = JS.array_includes source_extensions (JS.toLowerCase (path.extname filePath)) /\
  (forall host content a,
     FileScanner.analyzeSourceFile host filePath content = inl a ->
     FileScanner.isTypeScript a = true -> FileScanner.isSourceFile filePath = true).
Proof.
  split; [apply getFileType_source|].
  intros host content a Ha Hts. rewrite getFileType_source.
  unfold FileScanner.analyzeSourceFile in Ha.
  destruct (match content with
            | Some (c :: l) => inl (c :: l)
            | _ => FileScanner.readFileContent host filePath
            end) as [text|]; [|discriminate].
  inversion Ha; subst a. cbn [FileScanner.isTypeScript] in Hts.
  apply orb_prop in Hts as [H|H]; apply (is_exactly_eq _ (path.extname filePath)) in H;
    rewrite H; reflexivity.
Qed.

(** X20.  [analyzeSourceFile] analyses the content it is given, or the text
    of the file when the content is absent or empty, and fails only when that
    file cannot be read.  The text has at least one line, no more lines with
    something on them than lines, and none exactly when it is all white space;
    the i18n analysis is that of [analyzeI18nUsage]. *)
Theorem analysis_of_a_source_file host filePath content :
  match FileScanner.analyzeSourceFile host filePath content with
  | inl a =>
      exists text,
        analysed_text host filePath content text /\
        FileScanner.lines a = length (JS.split "010" text) /\
        (1 <= FileScanner.lines a)%nat /\
        (FileScanner.nonEmptyLines a <= FileScanner.lines a)%nat /\
        (FileScanner.nonEmptyLines a = 0%nat <-> all_whitespace text = true) /\
        FileScanner.i18nUsage a = FileScanner.analyzeI18nUsage text /\
        FileScanner.componentPatterns a = FileScanner.analyzeComponentPatterns text
  | inr message =>
      (content = None \/ content = Some []) /\
      exists e, FileScanner.readFile host filePath = inr e /\
                message = "Failed to read file " ++ filePath ++ ": " ++ e
  end.
Proof.
  assert (forall text,
            (1 <= length (JS.split "010" text))%nat /\
            (length (List.filter (fun line => (0 <? length (JS.trim line))%nat)
                                 (JS.split "010" text))
             <= length (JS.split "010" text))%nat) as Hlines.
  { intros text. split; [rewrite split_length; lia | apply filter_length_le]. }
  unfold FileScanner.analyzeSourceFile, analysed_text, FileScanner.readFileContent.
  destruct content as [[|c l]|].
  - destruct (FileScanner.readFile host filePath) as [text|e].
    + exists text. destruct (Hlines text). repeat split; auto; apply blank_lines.
    + split; [auto|]. exists e. auto.
  - exists (c :: l). destruct (Hlines (c :: l)).
    repeat split; auto; apply (blank_lines (c :: l)).
  - destruct (FileScanner.readFile host filePath) as [text|e].
    + exists text. destruct (Hlines text). repeat split; auto; apply blank_lines.
    + split; [auto|]. exists e. auto.
Qed.

(** X21.  [getFileMetadata] is never rejected: it resolves to an object with
    the path it was given.  That object is the data of the file only when the
    file is no larger than [maxFileSize]; it then has a content exactly when
    [includeContent] is set, and an analysis exactly when [analyzeCode] is set
    and the file is a source file; a larger file gives [{ path, error }]. *)
Theorem metadata_is_never_rejected config host filePath options :
  exists d,
    FileScanner.getFileMetadata config host filePath options = inl d /\
    path_of d = filePath /\
    (forall info, d = FileScanner.File info ->
       exists stats,
         FileScanner.stat host filePath = inl stats /\
         (FileScanner.size stats <= FileScanner.maxFileSize config)%N /\
         FileScanner.file_size info = FileScanner.size stats /\
         (FileScanner.content info <> None <-> FileScanner.includeContent options = true) /\
         (FileScanner.codeAnalysis info <> None <->
          FileScanner.analyzeCode options && FileScanner.isSourceFile filePath = true) /\
         (forall c, FileScanner.content info = Some c ->
                    FileScanner.isEmpty info = Some (all_whitespace c))) /\
    (forall stats, FileScanner.stat host filePath = inl stats ->
       (FileScanner.maxFileSize config < FileScanner.size stats)%N ->
       exists error, d = FileScanner.FileError filePath error).
Proof.
  exists (metadata config host options filePath).
  split; [apply metadata_fulfilled|]. split; [apply metadata_path|].
  assert (forall c, (length (JS.trim c) =? 0)%nat = all_whitespace c) as Hempty.
  { intros c. apply bool_eq_iff. rewrite Nat.eqb_eq. unfold all_whitespace.
    rewrite <- trim_nil. destruct (JS.trim c); simpl; split; try discriminate; auto. }
  unfold metadata, FileScanner.getFileMetadata.
  destruct (FileScanner.stat host filePath) as [stats|e].
  2: { split; [intros info H; discriminate | intros stats H; discriminate]. }
  destruct (FileScanner.maxFileSize config <? FileScanner.size stats)%N eqn:Hsize.
  { split; [intros info H; discriminate|]. intros stats' _ _. eauto. }
  apply N.ltb_ge in Hsize. split.
  2: { intros stats' H Hlt. inversion H; subst. lia. }
  intros info Hinfo. exists stats. split; [reflexivity|]. split; [exact Hsize|].
  destruct (FileScanner.includeContent options);
    [destruct (FileScanner.readFileContent host filePath) as [c|]; [|discriminate]|];
    (destruct (FileScanner.analyzeCode options && FileScanner.isSourceFile filePath);
     [destruct (FileScanner.analyzeSourceFile host filePath _); [|discriminate]|]);
    inversion Hinfo; subst info;
    cbn [FileScanner.file_size FileScanner.content FileScanner.codeAnalysis
         FileScanner.isEmpty option_map];
    (split; [reflexivity|]); (split; [present|]); (split; [present|]);
    intros c' Hc'; inversion Hc'; subst; rewrite ?Hempty; reflexivity.
Qed.

(** X22.  The constructor keeps every value it is given, also the number 0,
    for which the default after [||] is replaced again by the spread of the
    argument; the defaults serve for what is absent.  So a scanner made with
    [maxFileSize: 0] holds every file that is not empty to be too large. *)
Theorem constructor_keeps_given_values c :
  FileScanner.maxFileSize (FileScanner.constructor c)
  = match FileScanner.c_maxFileSize c with Some n => n | None => (5 * 1024 * 1024)%N end /\
  FileScanner.timeout (FileScanner.constructor c)
  = match FileScanner.c_timeout c with Some n => n | None => 30000%N end /\
  (forall given, FileScanner.c_sourcePatterns c = Some given ->
     FileScanner.sourcePatterns (FileScanner.constructor c) = given) /\
  (forall given, FileScanner.c_componentPatterns c = Some given ->
     FileScanner.config_componentPatterns (FileScanner.constructor c) = given) /\
  (forall given, FileScanner.c_translationPatterns c = Some given ->
     FileScanner.translationPatterns (FileScanner.constructor c) = given) /\
  (forall given, FileScanner.c_testPatterns c = Some given ->
     FileScanner.testPatterns (FileScanner.constructor c) = given) /\
  (FileScanner.c_maxFileSize c = Some 0%N ->
   forall host filePath options stats,
     FileScanner.stat host filePath = inl stats -> FileScanner.size stats <> 0%N ->
     exists error,
       FileScanner.getFileMetadata (FileScanner.constructor c) host filePath options
       = inl (FileScanner.FileError filePath error)).
Proof.
  unfold FileScanner.constructor.
  cbn [FileScanner.maxFileSize FileScanner.timeout FileScanner.sourcePatterns
       FileScanner.config_componentPatterns FileScanner.translationPatterns
       FileScanner.testPatterns].
  split; [destruct (FileScanner.c_maxFileSize c) as [[|n]|]; reflexivity|].
  split; [destruct (FileScanner.c_timeout c) as [[|n]|]; reflexivity|].
  do 4 (split; [intros given ->; reflexivity|]).
  intros Hc host filePath options stats Hs Hsize.
  unfold FileScanner.getFileMetadata. rewrite Hs.
  cbn [FileScanner.maxFileSize]. rewrite Hc. cbn [FileScanner.spread_over].
  assert ((0 <? FileScanner.size stats)%N = true) as -> by (apply N.ltb_lt; lia).
  eauto.
Qed.

Lemma constructor_keeps_given_values_witness :
  exists error,
    FileScanner.getFileMetadata (FileScanner.constructor zero_size_limit) small_host
      "App.js" FileScanner.no_options
    = inl (FileScanner.FileError "App.js" error).
Proof.
  destruct (constructor_keeps_given_values zero_size_limit) as (_ & _ & _ & _ & _ & _ & H).
  apply (H eq_refl small_host "App.js" FileScanner.no_options
           {| FileScanner.size := 11; FileScanner.mtime := 0; FileScanner.birthtime := 0 |}).
  - reflexivity.
  - discriminate.
Defined.

(** X23.  Batches do not show: for a batch size that is absent, 0 or above
    0, [processFilesInBatches] ends and gives, for every path and in the order
    of the paths, what [getFileMetadata] resolves to; no path is dropped.  For
    a batch size below 0 the loop never ends, however many turns it is given,
    unless there is no path at all. *)
Theorem batches_do_not_show config host filePaths options :
  (batch_size_ok options = true ->
   FileScanner.processFilesInBatches config host filePaths options
   = Some (map (metadata config host options) filePaths)) /\
  (batch_size_ok options = false -> filePaths <> [] ->
   FileScanner.processFilesInBatches config host filePaths options = None /\
   forall fuel,
     FileScanner.batches config host fuel
       (FileScanner.integer_or (FileScanner.batchSize options) 10) 0 filePaths options []
     = None) /\
  FileScanner.processFilesInBatches config host [] options = Some [] /\
  (forall filePath,
     FileScanner.getFileMetadata config host filePath options
     = inl (metadata config host options filePath)) /\
  map path_of (map (metadata config host options) filePaths) = filePaths.
Proof.
  split; [apply processFilesInBatches_eq|]. split.
  - intros E Hne. split; [apply processFilesInBatches_none; auto|].
    intros fuel. apply batches_never_end; [apply integer_or_negative, E|].
    destruct filePaths; [contradiction | simpl; lia].
  - split; [reflexivity|]. split.
    + intros filePath. apply metadata_fulfilled.
    + apply map_path_metadata.
Qed.

(** X24.  A scan with a batch size that is not below 0 ends.  When no
    pattern is rejected it lists every file that some pattern matches exactly
    once, however many patterns match it, and [totalFiles] is the number of
    these files; when a pattern is rejected the scan is rejected with
    [File scanning failed: ] and the message.  A scan does not end only when
    the batch size is below 0 and some pattern has matched a file. *)
Theorem scan_lists_every_match_once config host patterns options :
  match FileScanner.scanFiles config host patterns options with
  | Some (inl r) =>
      List.NoDup (map path_of (FileScanner.files r)) /\
      FileScanner.totalFiles r = length (FileScanner.files r) /\
      FileScanner.files r
      = map (metadata config host options) (map path_of (FileScanner.files r)) /\
      (forall filePath,
         In filePath (map path_of (FileScanner.files r)) <->
         exists pattern found,
           In pattern (FileScanner.patterns r) /\
           FileScanner.glob host pattern (FileScanner.options r) = inl found /\
           In filePath found) /\
      (forall pattern, In pattern (FileScanner.patterns r) ->
         exists found, FileScanner.glob host pattern (FileScanner.options r) = inl found)
  | Some (inr message) =>
      exists pattern scanOptions e,
        FileScanner.glob host pattern scanOptions = inr e /\
        message = "File scanning failed: " ++ e
  | None =>
      batch_size_ok options = false /\
      exists pattern scanOptions found filePath,
        FileScanner.glob host pattern scanOptions = inl found /\ In filePath found
  end /\
  (batch_size_ok options = true ->
   FileScanner.scanFiles config host patterns options <> None).
Proof.
  destruct (scanFiles_eq config host patterns options) as (ps & so & _ & ->).
  destruct (FileScanner.Promise_all _) as [allMatches|message] eqn:E.
  - destruct (unique_spec (concat allMatches) []) as [Hn Hi].
    apply Promise_all_inl in E.
    destruct (batch_size_ok options || _) eqn:Eb.
    + split; [|discriminate].
      cbn [FileScanner.files FileScanner.totalFiles FileScanner.patterns FileScanner.options].
      rewrite map_path_metadata.
      split; [exact Hn|]. split; [reflexivity|]. split; [reflexivity|]. split.
      * intros filePath. rewrite Hi, in_concat. split.
        -- intros [(found & Hf & Hin) _].
           assert (In (inl found) (map (fun pattern => FileScanner.glob host pattern so) ps)) as H
             by (rewrite E; apply in_map, Hf).
           apply in_map_iff in H as (pattern & Hg & Hp). eauto.
        -- intros (pattern & found & Hp & Hg & Hin). split; [|intros []].
           exists found. split; [|exact Hin].
           assert (In (inl found) (map (@inl (list jstr) jstr) allMatches)) as H.
           { rewrite <- E. apply in_map_iff. eauto. }
           apply in_map_iff in H as (found' & Ef & H). inversion Ef; subst. exact H.
      * intros pattern Hp.
        assert (In (FileScanner.glob host pattern so)
                   (map (@inl (list jstr) jstr) allMatches)) as H.
        { rewrite <- E. apply in_map_iff. eauto. }
        apply in_map_iff in H as (found & <- & _). eauto.
    + apply orb_false_elim in Eb as [Eb Eu]. split; [|congruence].
      split; [exact Eb|].
      destruct (FileScanner.unique [] (concat allMatches)) as [|filePath rest] eqn:Ef;
        [discriminate|].
      assert (In filePath (concat allMatches)) as Hin
        by (apply Hi; left; reflexivity).
      apply in_concat in Hin as (found & Hf & Hin).
      assert (In (inl found) (map (fun pattern => FileScanner.glob host pattern so) ps)) as H
        by (rewrite E; apply in_map, Hf).
      apply in_map_iff in H as (pattern & Hg & Hp). eauto 6.
  - split; [|discriminate].
    apply Promise_all_inr in E. apply in_map_iff in E as (pattern & Hg & _). eauto.
Qed.

(** X25.  The counts of the two summaries agree with each other: no count of
    files exceeds the number of files with an analysis, nor that the number of
    files; files with keys are no more than keys, files with hardcoded text no
    more than hardcoded strings, and either pair is zero together; no count of
    components exceeds the number of components. *)
Theorem summaries_are_consistent files :
  let s := FileScanner.summarizeI18nUsage files in
  let c := FileScanner.summarizeComponentPatterns files in
  (FileScanner.filesWithI18n s <= FileScanner.s_totalFiles s <= length files)%nat /\
  (FileScanner.filesWithHardcodedText s <= FileScanner.s_totalFiles s)%nat /\
  (FileScanner.filesWithI18n s <= FileScanner.totalKeys s)%nat /\
  (FileScanner.filesWithHardcodedText s <= FileScanner.totalHardcodedStrings s)%nat /\
  (FileScanner.totalKeys s = 0%nat <-> FileScanner.filesWithI18n s = 0%nat) /\
  (FileScanner.totalHardcodedStrings s = 0%nat <->
   FileScanner.filesWithHardcodedText s = 0%nat) /\
  (FileScanner.totalComponents c <= FileScanner.s_totalFiles s)%nat /\
  (FileScanner.withAccessibilityLabels c <= FileScanner.totalComponents c)%nat /\
  (FileScanner.withTestIds c <= FileScanner.totalComponents c)%nat /\
  (FileScanner.withInlineStyles c <= FileScanner.totalComponents c)%nat /\
  (FileScanner.usingStyleSheet c <= FileScanner.totalComponents c)%nat.
Proof.
  intros s c. unfold s, c, FileScanner.summarizeI18nUsage, FileScanner.summarizeComponentPatterns.
  cbn [FileScanner.filesWithI18n FileScanner.s_totalFiles FileScanner.filesWithHardcodedText
       FileScanner.totalKeys FileScanner.totalHardcodedStrings FileScanner.totalComponents
       FileScanner.withAccessibilityLabels FileScanner.withTestIds
       FileScanner.withInlineStyles FileScanner.usingStyleSheet].
  rewrite !fold_sum. cbn [Nat.add].
  rewrite (analysed_filter FileScanner.isReactComponent).
  set (l := FileScanner.analysed (fun _ => true) files).
  pose proof (analysed_length (fun _ => true) files) as Hl. fold l in Hl.
  split; [split; [apply filter_length_le | exact Hl]|].
  split; [apply filter_length_le|].
  split; [apply (positive_le_sum (fun a => FileScanner.keyCount (FileScanner.i18nUsage a)))|].
  split; [apply (positive_le_sum (fun a => FileScanner.hardcodedCount (FileScanner.i18nUsage a)))|].
  split; [apply (sum_zero (fun a => FileScanner.keyCount (FileScanner.i18nUsage a)))|].
  split; [apply (sum_zero (fun a => FileScanner.hardcodedCount (FileScanner.i18nUsage a)))|].
  repeat split; apply filter_length_le.
Qed.

(** X26.  The summary of a project is always produced or rejected, it never
    hangs.  In a summary the components with React in them are no more than
    the component files with an analysis, and these no more than the component
    files; a rejection names the scan that failed. *)
Theorem project_summary_is_consistent config host :
  exists outcome,
    FileScanner.generateProjectSummary config host = Some outcome /\
    match outcome with
    | inl s =>
        (FileScanner.totalComponents (FileScanner.componentSummary s)
         <= FileScanner.s_totalFiles (FileScanner.i18nSummary s)
         <= FileScanner.p_components s)%nat
    | inr message =>
        JS.starts_with "Failed to generate project summary: File scanning failed: " message
        = true
    end.
Proof.
  unfold FileScanner.generateProjectSummary, FileScanner.scanComponents,
    FileScanner.scanTranslations, FileScanner.scanTests.
  set (s1 := FileScanner.scanFiles config host (inr _) _).
  set (s2 := FileScanner.scanFiles config host _ _).
  set (s3 := FileScanner.scanFiles config host _ _).
  set (s4 := FileScanner.scanFiles config host _ _).
  assert (forall message,
            JS.starts_with "File scanning failed: " message = true ->
            JS.starts_with "Failed to generate project summary: File scanning failed: "
              ("Failed to generate project summary: " ++ message) = true) as Hrej.
  { intros message H. apply starts_with_iff in H as (t & ->).
    apply starts_with_iff. exists t. reflexivity. }
  assert (forall m, s1 = Some (inr m) -> JS.starts_with "File scanning failed: " m = true)
    as H1 by (intros m; apply scanFiles_rejected).
  assert (forall m, s2 = Some (inr m) -> JS.starts_with "File scanning failed: " m = true)
    as H2 by (intros m; apply scanFiles_rejected).
  assert (forall m, s3 = Some (inr m) -> JS.starts_with "File scanning failed: " m = true)
    as H3 by (intros m; apply scanFiles_rejected).
  assert (forall m, s4 = Some (inr m) -> JS.starts_with "File scanning failed: " m = true)
    as H4 by (intros m; apply scanFiles_rejected).
  assert (exists o1, s1 = Some o1) as (o1 & E1)
    by (apply scanFiles_total; reflexivity).
  assert (exists o2, s2 = Some o2) as (o2 & E2)
    by (apply scanFiles_total; reflexivity).
  assert (exists o3, s3 = Some o3) as (o3 & E3)
    by (apply scanFiles_total; reflexivity).
  assert (exists o4, s4 = Some o4) as (o4 & E4)
    by (apply scanFiles_total; reflexivity).
  clearbody s1 s2 s3 s4. subst s1 s2 s3 s4.
  cbn [FileScanner.first_rejection].
  destruct o1 as [r1|m1];
    [|eexists; split; [reflexivity | apply Hrej, H1; reflexivity]].
  destruct o2 as [r2|m2];
    [|eexists; split; [reflexivity | apply Hrej, H2; reflexivity]].
  destruct o3 as [r3|m3];
    [|eexists; split; [reflexivity | apply Hrej, H3; reflexivity]].
  destruct o4 as [r4|m4];
    [|eexists; split; [reflexivity | apply Hrej, H4; reflexivity]].
  eexists. split; [reflexivity|].
  cbn [FileScanner.componentSummary FileScanner.i18nSummary FileScanner.p_components].
  pose proof (summaries_consistent (FileScanner.files r2)) as H.
  unfold FileScanner.summarizeComponentPatterns, FileScanner.summarizeI18nUsage.
  cbn [FileScanner.totalComponents FileScanner.s_totalFiles]. exact H.
Qed.

Module HandlerFacts.

Lemma own_property_assign o k v name :
  own_property (LanguageGraderFunction.assign o k v) name
  = if String.eqb (JS.str k) (JS.str name) then Some v else own_property o name.
Proof.
  induction o as [|[k' v'] o IH]; simpl.
  - reflexivity.
  - destruct (String.eqb (JS.str k') (JS.str k)) eqn:E; simpl.
    + apply str_eqb in E. subst k'. destruct (String.eqb (JS.str k) (JS.str name)); reflexivity.
    + destruct (String.eqb (JS.str k') (JS.str name)) eqn:E'.
      * apply str_eqb in E'. subst name. rewrite (String.eqb_sym (JS.str k)), E. reflexivity.
      * exact IH.
Qed.

Lemma own_property_absent entries k :
  existsb (fun k' => String.eqb (JS.str k) (JS.str k')) (map fst entries) = false ->
  own_property entries k = None.
Proof.
  induction entries as [|[k' v'] es IH]; simpl; [reflexivity|].
  intros H. apply orb_false_elim in H as [H1 H2].
  rewrite String.eqb_sym, H1. apply IH, H2.
Qed.

Lemma own_property_fold entries : forall o name,
  distinct (map fst entries) = true ->
  own_property (fold_left (fun o kv => LanguageGraderFunction.assign o (fst kv) (snd kv))
                          entries o) name
  = match own_property entries name with
    | Some v => Some v
    | None => own_property o name
    end.
Proof.
  induction entries as [|[k v] es IH]; intros o name Hd; [reflexivity|].
  cbn [map fst distinct] in Hd. apply andb_prop in Hd as [Hk Hd].
  apply negb_true_iff in Hk.
  cbn [fold_left fst snd own_property]. rewrite IH by exact Hd.
  rewrite own_property_assign.
  destruct (String.eqb (JS.str k) (JS.str name)) eqn:E.
  - apply str_eqb in E. subst name. rewrite (own_property_absent _ _ Hk). reflexivity.
  - reflexivity.
Qed.

Lemma config_object_property entries name :
  distinct (map fst entries) = true ->
  own_property (LanguageGraderFunction.config_object (VObj entries)) name
  = match own_property entries name with
    | Some v => Some v
    | None => own_property default_object name
    end.
Proof.
  intros Hd. unfold LanguageGraderFunction.config_object, LanguageGraderFunction.spread.
  cbn [LanguageGraderFunction.own_enumerable LanguageGraderFunction.property].
  rewrite own_property_fold by exact Hd.
  destruct (own_property entries name) as [v|] eqn:E; [reflexivity|].
  unfold default_object. cbn [own_property].
  repeat match goal with
         | |- context [String.eqb (JS.str (chars ?k)) (JS.str name)] =>
             let E' := fresh "E" in
             destruct (String.eqb (JS.str (chars k)) (JS.str name)) eqn:E';
             [apply (str_eqb (chars k) name) in E'; subst name; rewrite E; reflexivity|]
         end.
  reflexivity.
Qed.




Lemma split_lines_no_newline l :
  Forall (fun line => JS.includes "010" line = false) (JS.split "010" l).
Proof.
  induction l as [|c l IH]; [repeat constructor|]. cbn [JS.split].
  destruct (JS.is_char "010" c) eqn:E; [constructor; [reflexivity | exact IH]|].
  destruct (JS.split "010" l) as [|h t]; [repeat constructor; simpl; rewrite E; reflexivity|].
  inversion IH; subst. constructor; [|assumption].
  unfold JS.includes in *. simpl. rewrite E. assumption.
Qed.

Lemma split_line l : JS.includes "010" l = false -> JS.split "010" l = [l].
Proof.
  unfold JS.includes. induction l as [|c l IH]; simpl; [reflexivity|].
  intros H. apply orb_false_elim in H as [Hc Hl]. rewrite Hc, (IH Hl). reflexivity.
Qed.

Lemma split_line_app l r :
  JS.includes "010" l = false ->
  JS.split "010" (l ++ "010"%char :: r) = l :: JS.split "010" r.
Proof.
  unfold JS.includes. induction l as [|c l IH]; simpl; [reflexivity|].
  intros H. apply orb_false_elim in H as [Hc Hl]. rewrite Hc, (IH Hl). reflexivity.
Qed.

Lemma split_join_lines ls :
  ls <> [] -> Forall (fun line => JS.includes "010" line = false) ls ->
  JS.split "010" (join_lines ls) = ls.
Proof.
  induction ls as [|l ls IH]; [contradiction|]. intros _ H. inversion H; subst.
  destruct ls as [|l' ls'].
  - apply split_line. assumption.
  - change (join_lines (l :: l' :: ls')) with (l ++ "010"%char :: join_lines (l' :: ls')).
    rewrite split_line_app by assumption. rewrite IH; [reflexivity | discriminate | assumption].
Qed.

Lemma filter_idem {A} (p : A -> bool) l : List.filter p (List.filter p l) = List.filter p l.
Proof.
  induction l as [|x l IH]; [reflexivity|]. simpl. destruct (p x) eqn:E; [|exact IH].
  simpl. rewrite E, IH. reflexivity.
Qed.

Lemma filter_sublist {A} (p : A -> bool) l : sublist (List.filter p l) l.
Proof.
  induction l as [|x l IH]; simpl; [constructor|].
  destruct (p x); [apply sublist_skip | apply sublist_cons]; exact IH.
Qed.

Lemma Forall_filter {A} (P : A -> Prop) (p : A -> bool) l :
  Forall P l -> Forall P (List.filter p l).
Proof.
  induction 1 as [|x l Hx _ IH]; simpl; [constructor|].
  destruct (p x); [constructor; assumption | exact IH].
Qed.

(** Parsing the lines a filter kept, joined again, keeps them all. *)
Lemma filter_lines_idem (p : jstr -> bool) output :
  p [] = false ->
  List.filter p (JS.split "010" (join_lines (List.filter p (JS.split "010" output))))
  = List.filter p (JS.split "010" output).
Proof.
  intros Hp. pose proof (split_lines_no_newline output) as H.
  apply (Forall_filter _ p) in H.
  destruct (List.filter p (JS.split "010" output)) as [|l ls] eqn:E.
  - simpl. rewrite Hp. reflexivity.
  - rewrite split_join_lines by (try discriminate; exact H).
    rewrite <- E. apply filter_idem.
Qed.

End HandlerFacts.

Import HandlerFacts.

(** X27.  For a body that is an object, every property of [config] is the
    property of the body when the body has it, also when its value is falsy
    (the empty string, 0, [false], [null]): the spread of the body replaces
    what [||] has chosen.  The defaults are the values of the properties the
    body lacks. *)
Theorem handler_config_keeps_body entries name :
  distinct (map fst entries) = true ->
  own_property (LanguageGraderFunction.config_object (VObj entries)) name
  = match own_property entries name with
    | Some v => Some v
    | None => own_property default_object name
    end /\
  LanguageGraderFunction.config_object (VObj []) = default_object /\
  (forall q, LanguageGraderFunction.config_object (VNum q) = default_object) /\
  (forall b, LanguageGraderFunction.config_object (VBool b) = default_object).
Proof.
  intros Hd. split; [apply config_object_property, Hd|].
  split; [reflexivity|]. split; intros; reflexivity.
Qed.

Lemma handler_config_keeps_body_witness :
  own_property (LanguageGraderFunction.config_object falsy_body) "translationFile"
  = Some (VStr []) /\
  own_property (LanguageGraderFunction.config_object falsy_body) "sourcePattern"
  = Some (VStr "./**/*.{js,jsx,ts,tsx}").
Proof.
  split.
  - exact (proj1 (handler_config_keeps_body
                    [(chars "translationFile", VStr []); (chars "minimumScore", VNum 0)]
                    "translationFile" eq_refl)).
  - exact (proj1 (handler_config_keeps_body
                    [(chars "translationFile", VStr []); (chars "minimumScore", VNum 0)]
                    "sourcePattern" eq_refl)).
Defined.



(** X29.  [runMaestroTest] runs [maestro test <testPath> --format=json] in the
    project.  The result mirrors the run: [success] is [passed], the score is
    1 for a run that passed and 0 otherwise, the output of a run that passed
    is its standard output, and the output of a run that failed is never
    empty.  The handler answers 200 whenever there is a test path, also when
    the run failed; its only other status is 500. *)
Theorem maestro_result_mirrors_the_run host projectPath testPath :
  let r := E2ETestGrader.runMaestroTest host projectPath testPath in
  let settled :=
    E2ETestGrader.execAsync host ("maestro test " ++ testPath ++ " --format=json")
      projectPath 900000%N in
  E2ETestGrader.success r = E2ETestGrader.passed (E2ETestGrader.report r) /\
  E2ETestGrader.score r = (if E2ETestGrader.success r then 1%Q else 0%Q) /\
  (E2ETestGrader.success r = true <-> exists out, settled = inl out) /\
  (forall out err, settled = inl (out, err) ->
     E2ETestGrader.output (E2ETestGrader.report r) = out) /\
  (E2ETestGrader.success r = false -> E2ETestGrader.output (E2ETestGrader.report r) <> []) /\
  E2ETestGrader.testFlow (E2ETestGrader.report r) = testPath /\
  (forall request_json,
     (E2ETestGrader.status (E2ETestGrader.handler host request_json) = 200%nat \/
      E2ETestGrader.status (E2ETestGrader.handler host request_json) = 500%nat) /\
     (E2ETestGrader.status (E2ETestGrader.handler host request_json) = 200%nat <->
      exists p c l, request_json = E2ETestGrader.Body p (Some (c :: l)))).
Proof.
  intros r settled. unfold r, E2ETestGrader.runMaestroTest. fold settled.
  destruct settled as [[out err]|error] eqn:E;
    cbn [E2ETestGrader.success E2ETestGrader.score E2ETestGrader.report E2ETestGrader.passed
         E2ETestGrader.output E2ETestGrader.testFlow].
  - repeat split; eauto; try discriminate.
    + intros o e H. inversion H. reflexivity.
    + destruct request_json as [m| |p [[|c l]|]]; simpl; auto.
    + destruct request_json as [m| |p [[|c l]|]]; simpl; try discriminate. eauto.
    + intros (p & c & l & ->). reflexivity.
  - repeat split; eauto; try discriminate.
    + intros (out & H). discriminate.
    + intros _. unfold E2ETestGrader.or_string.
      destruct (E2ETestGrader.stdout error) as [[|c l]|];
        destruct (E2ETestGrader.stderr error) as [[|c' l']|]; discriminate.
    + destruct request_json as [m| |p [[|c l]|]]; simpl; auto.
    + destruct request_json as [m| |p [[|c l]|]]; simpl; try discriminate. eauto.
    + intros (p & c & l & ->). reflexivity.
Qed.

(** X30.  [parseTestOutput] keeps, in their order, the lines of the output
    that hold [FAIL] or [Test suite failed], and [parseTypeScriptOutput] those
    that hold [error TS], digits and a colon; an output that is no string gives
    no line.  Parsing again what was kept, joined by newlines, keeps it all. *)
Theorem output_parsers_filter_lines output :
  sublist (CodeQualityGrader.parseTestOutput (Some output)) (JS.split "010" output) /\
  sublist (CodeQualityGrader.parseTypeScriptOutput (Some output)) (JS.split "010" output) /\
  (forall line, In line (CodeQualityGrader.parseTestOutput (Some output)) <->
                In line (JS.split "010" output) /\ failure_line line = true) /\
  (forall line, In line (CodeQualityGrader.parseTypeScriptOutput (Some output)) <->
                In line (JS.split "010" output) /\ ts_error_line line) /\
  CodeQualityGrader.parseTestOutput None = [] /\
  CodeQualityGrader.parseTypeScriptOutput None = [] /\
  CodeQualityGrader.parseTestOutput
    (Some (join_lines (CodeQualityGrader.parseTestOutput (Some output))))
  = CodeQualityGrader.parseTestOutput (Some output) /\
  CodeQualityGrader.parseTypeScriptOutput
    (Some (join_lines (CodeQualityGrader.parseTypeScriptOutput (Some output))))
  = CodeQualityGrader.parseTypeScriptOutput (Some output).
Proof.
  unfold CodeQualityGrader.parseTestOutput, CodeQualityGrader.parseTypeScriptOutput.
  split; [apply filter_sublist|]. split; [apply filter_sublist|]. split; [|split].
  - intros line. rewrite filter_In, test_Lit. reflexivity.
  - intros line. rewrite filter_In.
    assert (test CodeQualityGrader.TS_ERROR line = true <-> ts_error_line line) as ->;
      [|reflexivity].
    rewrite test_holds by reflexivity. unfold CodeQualityGrader.TS_ERROR, ts_error_line. split.
    + intros (a & w & b & -> & L).
      apply lang_Seq_cons in L as (w1 & w' & -> & L1 & L).
      apply lang_Seq_cons in L as (w2 & w'' & -> & L2 & L).
      apply lang_Seq_cons in L as (w3 & w4 & -> & L3 & L4).
      apply lang_Seq_nil in L4. apply (lang_Lit "error TS") in L1. apply (lang_Lit ":") in L3.
      apply lang_plus_class in L2 as (c & w & -> & Hc & Hw). subst.
      exists a, (c :: w), b. split; [rewrite app_nil_r, <- !app_assoc; reflexivity|].
      split; [discriminate|]. simpl. rewrite Hc. exact Hw.
    + intros (a & ds & b & -> & Hd & Hall). destruct ds as [|c w]; [contradiction|].
      simpl in Hall. apply andb_prop in Hall as [Hc Hw].
      exists a, ("error TS" ++ (c :: w) ++ ":"), b.
      split; [rewrite <- !app_assoc; reflexivity|].
      apply lang_Seq_intro; [apply lang_Lit_intro|].
      apply lang_Seq_intro; [apply lang_plus_class_intro; assumption|].
      rewrite <- (app_nil_r (chars ":")). apply lang_Seq_intro; [apply lang_Lit_intro | constructor].
  - split; [reflexivity|]. split; [reflexivity|]. split.
    + apply filter_lines_idem. reflexivity.
    + apply (filter_lines_idem (fun line => test CodeQualityGrader.TS_ERROR line)). reflexivity.
Qed.
